(** * Path_module: map matching with recovery

    A shallow embedding of the routing core of the repository
    (graph_manager.py, matcher.py, visualizer.py, utils.py of Path_module)
    and the properties its specification states about it.

    Conventions of the embedding
    - Python floats are rationals ([Q]); comparisons are the boolean
      comparisons of [Q].  Coordinates are pairs of rationals compared
      with [==] componentwise, as Python compares tuples of numbers.
    - A shapely [LineString] is the list of its coordinates.
    - Exceptions are values of [exn]; a computation that may raise
      returns a [result].
    - The libraries the code calls (osmnx, networkx, geopy, shapely's
      distance) are Section variables: the properties hold for every
      behaviour of those functions.
    - The road-network provider is an oracle that answers a request given
      the requests made before it; the state threaded through the code is
      the cache dictionary together with that list of requests. *)

From Stdlib Require Import ZArith QArith Qround Qabs Lia Lqa.
From stdpp Require Import base option list gmap strings.

(** ** Exceptions and results *)

Inductive exn : Type :=
| ValueError (msg : string)
| RuntimeError (msg : string)
| IndexError (site : string)
| KeyError (site : string)
| GEOSException
| ProviderError (code : Z).

Inductive result (A : Type) : Type :=
| Ok (a : A)
| Raise (e : exn).
Arguments Ok {A} a.
Arguments Raise {A} e.

Definition rbind {A B} (r : result A) (k : A -> result B) : result B :=
  match r with
  | Ok a => k a
  | Raise e => Raise e
  end.

Definition is_raise {A} (r : result A) : bool :=
  match r with Ok _ => false | Raise _ => true end.

(** ** Numbers and geometry *)

Definition Qlt_bool (x y : Q) : bool := negb (Qle_bool y x).

Definition coord : Type := Q * Q.

Definition coord_eqb (p q : coord) : bool :=
  Qeq_bool (fst p) (fst q) && Qeq_bool (snd p) (snd q).

(** [LineString.coords] *)
Definition line : Type := list coord.

(** The constructor [LineString(coords)]: shapely refuses exactly one
    coordinate; none gives the empty geometry. *)
Definition LineString (cs : list coord) : result line :=
  if (length cs =? 1)%nat then Raise GEOSException else Ok cs.

(** Truth value of a geometry: [not is_empty]. *)
Definition line_truthy (l : line) : bool := negb (length l =? 0)%nat.

(** ** Graphs (networkx.MultiDiGraph as osmnx builds it) *)

Record edge_attrs : Type := {
  e_length : option Q;
  e_geometry : option line
}.

Record graph : Type := {
  g_nodes : gmap Z coord;                       (* node -> (x, y) *)
  g_edges : gmap (Z * Z) (list (Z * edge_attrs)) (* (u, v) -> key -> attributes *)
}.

(** ** Configuration *)

(** Modelled from the spec: config.py is not among the sources; the
    constants the code reads from it ("radius base + expansion ladder,
    network-type priority list, GAP_BREAK_M, MAX_BRIDGE_TRY_M,
    MAX_END_TO_END_DIST_M") are the fields of this record, and nothing is
    assumed about their values. *)
Record config : Type := {
  REGION_GRAPH_DIST_M : Z;
  DIST_EXPANDS : list Z;
  NETWORK_TYPE_PRIMARY : string;
  NETWORK_TYPE_SECONDARY : string;
  GAP_BREAK_M : Q;
  MAX_BRIDGE_TRY_M : Q;
  MAX_END_TO_END_DIST_M : Q
}.

(** ** The graph provider and the cache *)

Inductive provider_call : Type :=
| FromPoint (lat lon : Q) (dist : Z) (network_type : string)
| FromBBox (north south east west : Q) (network_type : string).

Record region_row : Type := {
  region_id : Z;
  mean_lat : Q;
  mean_lon : Q
}.

(** [RegionGraphCache]: the region table, the cache dictionary, and the
    requests sent to the provider so far. *)
Record RegionGraphCache : Type := {
  reg_df : list region_row;
  cache : gmap (Z * string * Z) graph;
  requests : list provider_call
}.

Definition set_cache (c : gmap (Z * string * Z) graph) (rc : RegionGraphCache) :=
  {| reg_df := reg_df rc; cache := c; requests := requests rc |}.

Definition add_request (q : provider_call) (rc : RegionGraphCache) :=
  {| reg_df := reg_df rc; cache := cache rc; requests := requests rc ++ [q] |}.

Definition generic_failure : exn := RuntimeError "graph load failed"%string.

Definition region_missing : exn := ValueError "region_id missing"%string.

(** [self.reg_df[self.reg_df['region_id'] == region_id]]; an absent id
    ([None]) selects no row. *)
Definition select_region (df : list region_row) (rid : option Z) : list region_row :=
  match rid with
  | None => []
  | Some r => filter (fun row => region_id row = r) df
  end.

Section GraphManager.

Variable cfg : config.

(** [ox.graph_from_point] / [ox.graph_from_bbox]: the provider's answer to
    a request, given the requests made before it. *)
Variable provider : list provider_call -> provider_call -> result graph.

(** The radius-expansion loop of [get_with_expand].  Radii are whole
    metres, so [int(REGION_GRAPH_DIST_M + extra)] is the sum itself. *)
Fixpoint expand_loop (rid : Z) (lat lon : Q) (network_type : string)
    (extras : list Z) (last_exc : option exn) (rc : RegionGraphCache)
    : result graph * RegionGraphCache :=
  match extras with
  | [] => (Raise (default generic_failure last_exc), rc)
  | extra :: rest =>
      let dist := (REGION_GRAPH_DIST_M cfg + extra)%Z in
      let key := (rid, network_type, dist) in
      match cache rc !! key with
      | Some G => (Ok G, rc)
      | None =>
          let q := FromPoint lat lon dist network_type in
          match provider (requests rc) q with
          | Ok G => (Ok G, add_request q (set_cache (<[key := G]> (cache rc)) rc))
          | Raise e => expand_loop rid lat lon network_type rest (Some e) (add_request q rc)
          end
      end
  end.

Definition get_with_expand (rc : RegionGraphCache) (rid : option Z)
    (network_type : string) : result graph * RegionGraphCache :=
  match rid, select_region (reg_df rc) rid with
  | Some r, row :: _ =>
      expand_loop r (mean_lat row) (mean_lon row) network_type
        (DIST_EXPANDS cfg) None rc
  | _, _ => (Raise region_missing, rc)
  end.

(** The requests the ladder sends for a region centred at [(lat, lon)]. *)
Definition ladder_calls (lat lon : Q) (network_type : string) (extras : list Z)
    : list provider_call :=
  map (fun extra => FromPoint lat lon (REGION_GRAPH_DIST_M cfg + extra) network_type) extras.

(** Every radius of the ladder was sent to the provider between [rc] and [rc']. *)
Definition tried_whole_ladder (network_type : string) (rc rc' : RegionGraphCache) : Prop :=
  forall extra, In extra (DIST_EXPANDS cfg) ->
    exists lat lon,
      In (FromPoint lat lon (REGION_GRAPH_DIST_M cfg + extra) network_type)
         (drop (length (requests rc)) (requests rc')).

Lemma expand_loop_raise rid lat lon nt extras last_exc rc e rc' :
  expand_loop rid lat lon nt extras last_exc rc = (Raise e, rc') ->
  let calls := ladder_calls lat lon nt extras in
  requests rc' = requests rc ++ calls /\
  cache rc' = cache rc /\
  (forall extra, In extra extras ->
     cache rc !! (rid, nt, (REGION_GRAPH_DIST_M cfg + extra)%Z) = None) /\
  (forall i q, calls !! i = Some q ->
     is_raise (provider (requests rc ++ take i calls) q) = true) /\
  match last calls with
  | None => e = default generic_failure last_exc
  | Some q => provider (requests rc ++ take (length calls - 1) calls) q = Raise e
  end.
Proof.
  revert last_exc rc.
  induction extras as [|extra rest IH]; intros last_exc rc H; simpl in *.
  - inversion H; subst. rewrite app_nil_r. repeat split; done.
  - destruct (cache rc !! _) as [G|] eqn:Hc; [done|].
    destruct (provider (requests rc) _) as [G|e0] eqn:Hp; [done|].
    apply IH in H. simpl in H.
    destruct H as (Hreq & Hcache & Hmiss & Hfail & Hlast).
    rewrite <- app_assoc in Hreq. simpl in Hreq.
    split; [done|]. split; [done|]. split.
    { intros x [->|Hx]; [done|]. by apply Hmiss. }
    split.
    { intros [|i] q Hq; simpl in Hq.
      - inversion Hq; subst. simpl. rewrite app_nil_r. by rewrite Hp.
      - specialize (Hfail i q Hq). simpl in Hfail.
        by rewrite <- app_assoc in Hfail. }
    rewrite Nat.sub_0_r.
    destruct (ladder_calls lat lon nt rest) as [|q1 calls'] eqn:Hcalls.
    + simpl in *. rewrite app_nil_r. by rewrite Hp, Hlast.
    + change (last (_ :: q1 :: calls')) with (last (q1 :: calls')).
      destruct (last (q1 :: calls')) as [q|] eqn:Hl; [|by apply last_None in Hl].
      simpl in Hlast. rewrite Nat.sub_0_r in Hlast.
      rewrite <- app_assoc in Hlast. simpl in Hlast.
      simpl. exact Hlast.
Qed.

Lemma expand_loop_ok rid lat lon nt extras last_exc rc G rc' :
  expand_loop rid lat lon nt extras last_exc rc = (Ok G, rc') ->
  exists extra, In extra extras /\
    cache rc' !! (rid, nt, (REGION_GRAPH_DIST_M cfg + extra)%Z) = Some G.
Proof.
  revert last_exc rc.
  induction extras as [|extra rest IH]; intros last_exc rc H; simpl in *; [done|].
  destruct (cache rc !! _) as [G0|] eqn:Hc.
  { inversion H; subst. exists extra. by split; [left|]. }
  destruct (provider (requests rc) _) as [G0|e0] eqn:Hp.
  - inversion H; subst. exists extra. split; [by left|]. simpl.
    by rewrite lookup_insert_eq.
  - apply IH in H as (x & Hx & Hget). exists x. by split; [right|].
Qed.

(** C6 (amended to regions present in the region table):
    for a region id that selects a row of the region table,
    [get_with_expand] raises only when every radius of the expansion ladder
    missed the cache and was sent to the provider, in order, and every one
    of those requests failed; the error raised is then the provider's error
    for the last radius, or the generic failure when the ladder is empty.
    When it returns a graph, that graph is stored in the cache under the
    key of one of the ladder's radii (a cache hit or a provider success).
    For a region id that selects no row the call raises at once, the cache
    and the list of requests untouched. *)
Theorem get_with_expand_failure_condition
    (rc : RegionGraphCache) (rid : option Z) (nt : string)
    (res : result graph) (rc' : RegionGraphCache) :
  get_with_expand rc rid nt = (res, rc') ->
  match rid, select_region (reg_df rc) rid with
  | Some r, row :: _ =>
      let calls := ladder_calls (mean_lat row) (mean_lon row) nt (DIST_EXPANDS cfg) in
      match res with
      | Raise e =>
          tried_whole_ladder nt rc rc' /\
          requests rc' = requests rc ++ calls /\
          cache rc' = cache rc /\
          (forall extra, In extra (DIST_EXPANDS cfg) ->
             cache rc !! (r, nt, (REGION_GRAPH_DIST_M cfg + extra)%Z) = None) /\
          (forall i q, calls !! i = Some q ->
             is_raise (provider (requests rc ++ take i calls) q) = true) /\
          match last calls with
          | None => e = generic_failure
          | Some q => provider (requests rc ++ take (length calls - 1) calls) q = Raise e
          end
      | Ok G =>
          exists extra, In extra (DIST_EXPANDS cfg) /\
            cache rc' !! (r, nt, (REGION_GRAPH_DIST_M cfg + extra)%Z) = Some G
      end
  | _, _ => res = Raise region_missing /\ rc' = rc
  end.
Proof.
  unfold get_with_expand. intros H.
  destruct rid as [r|]; [|by inversion H].
  destruct (select_region (reg_df rc) (Some r)) as [|row rows]; [by inversion H|].
  destruct res as [G|e]; simpl.
  - by apply expand_loop_ok in H.
  - apply expand_loop_raise in H. simpl in H.
    destruct H as (Hreq & Hcache & Hmiss & Hfail & Hlast).
    split; [|done].
    intros extra Hin. exists (mean_lat row), (mean_lon row).
    rewrite Hreq, drop_app_length. unfold ladder_calls.
    apply in_map_iff. by exists extra.
Qed.

End GraphManager.

(** ** Fixtures: a configuration, a failing provider, a region table *)

Definition cfg0 : config := {|
  REGION_GRAPH_DIST_M := 5000;
  DIST_EXPANDS := [0; 3000; 6000]%Z;
  NETWORK_TYPE_PRIMARY := "walk"%string;
  NETWORK_TYPE_SECONDARY := "drive"%string;
  GAP_BREAK_M := 300;
  MAX_BRIDGE_TRY_M := 3000;
  MAX_END_TO_END_DIST_M := 1000
|}.

Definition provider_down : list provider_call -> provider_call -> result graph :=
  fun _ _ => Raise (ProviderError 503).

Definition seoul : region_row :=
  {| region_id := 1; mean_lat := 375 # 10; mean_lon := 127 |}.

Definition rc_seoul : RegionGraphCache :=
  {| reg_df := [seoul]; cache := ∅; requests := [] |}.

(** The theorem at region 1 with the provider down: the whole ladder is
    tried before the error is raised. *)
Lemma get_with_expand_failure_condition_witness :
  tried_whole_ladder cfg0 "walk" rc_seoul
    (snd (get_with_expand cfg0 provider_down rc_seoul (Some 1%Z) "walk")).
Proof.
  exact (proj1 (get_with_expand_failure_condition cfg0 provider_down rc_seoul
                  (Some 1%Z) "walk" _ _ eq_refl)).
Defined.

(** C6 as stated fails: a region id that is not in the region table makes
    [get_with_expand] raise although no radius of the (non-empty) ladder
    was sent to the provider. *)
Lemma get_with_expand_unknown_region_raises_untried :
  ~ (forall cfg provider rc rid nt e rc',
       get_with_expand cfg provider rc rid nt = (Raise e, rc') ->
       tried_whole_ladder cfg nt rc rc').
Proof.
  intros H.
  destruct (H cfg0 provider_down rc_seoul (Some 7%Z) "walk"%string
              region_missing rc_seoul eq_refl 0%Z) as (lat & lon & Hin).
  { simpl. by left. }
  simpl in Hin. exact Hin.
Qed.

(** ** matcher.py: routing on a graph *)

#[local] Instance result_bind : MBind result := fun A B k r => rbind r k.

(** Unfolds the bind of [result] and nothing else. *)
Ltac rsimpl := cbv beta iota delta [mbind result_bind rbind].
Ltac rsimpl_in H := cbv beta iota delta [mbind result_bind rbind] in H.

Definition swap_coord (p : coord) : coord := (snd p, fst p).

(** [G.nodes[n]["x"], G.nodes[n]["y"]] *)
Definition node_xy (G : graph) (n : Z) : result coord :=
  match g_nodes G !! n with
  | Some c => Ok c
  | None => Raise (KeyError "nodes")
  end.

(** [_safe_same_node_linestring] *)
Definition _safe_same_node_linestring (G : graph) (node : Z) : result line :=
  xy ← node_xy G node;
  LineString [xy; xy].

(** Comparison of edge lengths, a missing length counting as infinity. *)
Definition length_lt (a b : option Q) : bool :=
  match a, b with
  | Some x, Some y => Qlt_bool x y
  | Some _, None => true
  | None, _ => false
  end.

(** [min(edge_data, key=lambda k: edge_data[k].get("length", inf))]:
    the first edge of minimal length. *)
Definition best_edge (kd : Z * edge_attrs) (rest : list (Z * edge_attrs)) : edge_attrs :=
  snd (fold_left
         (fun best cand =>
            if length_lt (e_length (snd cand)) (e_length (snd best)) then cand else best)
         rest kd).

Definition edge_coords (G : graph) (u v : Z) (edge : edge_attrs) : result (list coord) :=
  match e_geometry edge with
  | Some geom => Ok geom
  | None =>
      u_n ← node_xy G u;
      v_n ← node_xy G v;
      Ok [u_n; v_n]
  end.

(** Appending an edge's coordinates to [full_coords], dropping a repeated
    joint. *)
Definition extend_full_coords (full_coords ec : list coord) : result (list coord) :=
  match last full_coords with
  | None => Ok (full_coords ++ ec)
  | Some l =>
      match ec with
      | [] => Raise (IndexError "edge_coords[0]")
      | c0 :: tl => if coord_eqb l c0 then Ok (full_coords ++ tl) else Ok (full_coords ++ ec)
      end
  end.

(** The inner loop over [zip(route_nodes[:-1], route_nodes[1:])]. *)
Fixpoint walk_route (G : graph) (route_nodes : list Z) (full_coords : list coord)
    : result (list coord) :=
  match route_nodes with
  | u :: ((v :: _) as rest) =>
      match g_edges G !! (u, v) with
      | Some (kd :: kds) =>
          ec ← edge_coords G u v (best_edge kd kds);
          full' ← extend_full_coords full_coords ec;
          walk_route G rest full'
      | _ => walk_route G rest full_coords
      end
  | _ => Ok full_coords
  end.

(** Removal of consecutive duplicates, as the code does it: compare with
    the last node kept so far. *)
Definition append_if_new (unique_nodes : list Z) (node : Z) : list Z :=
  if decide (last unique_nodes = Some node) then unique_nodes
  else unique_nodes ++ [node].

Definition collapse_nodes (all_nodes : list Z) : result (list Z) :=
  match all_nodes with
  | [] => Raise (IndexError "all_nodes[0]")
  | n0 :: rest => Ok (fold_left append_if_new rest [n0])
  end.

(** The stitcher's test for a failed match:
    [line is None or len(line.coords) < 2]. *)
Definition is_unmatched (l : option line) : bool :=
  match l with
  | None => true
  | Some cs => (length cs <? 2)%nat
  end.

Section Matcher.

Variable cfg : config.
Variable provider : list provider_call -> provider_call -> result graph.

(** [ox.distance.nearest_nodes], [ox.distance.nearest_edges],
    [nx.shortest_path(G, u, v, weight="length")] and
    [geodesic(a, b).meters] on [(lat, lon)] pairs. *)
Variable nearest_nodes : graph -> Q -> Q -> result Z.
Variable nearest_edges : graph -> Q -> Q -> result (Z * Z * Z).
Variable shortest_path : graph -> Z -> Z -> result (list Z).
Variable geodesic : coord -> coord -> Q.

Definition snap_nodes_hybrid (G : graph) (lon lat : Q) : result Z :=
  match nearest_nodes G lon lat with
  | Ok n => Ok n
  | Raise _ =>
      let by_edge :=
        '(u, v, _) ← nearest_edges G lon lat;
        uxy ← node_xy G u;
        vxy ← node_xy G v;
        let du := geodesic (lat, lon) (snd uxy, fst uxy) in
        let dv := geodesic (lat, lon) (snd vxy, fst vxy) in
        Ok (if Qle_bool du dv then u else v) in
      match by_edge with
      | Ok n => Ok n
      | Raise _ => nearest_nodes G lon lat
      end
  end.

Fixpoint snap_all (G : graph) (waypoints : list coord) : result (list Z) :=
  match waypoints with
  | [] => Ok []
  | (lon, lat) :: rest =>
      n ← snap_nodes_hybrid G lon lat;
      ns ← snap_all G rest;
      Ok (n :: ns)
  end.

(** The loop over consecutive pairs of [unique_nodes]; a [Raise] is the
    [except: return None] of the loop body. *)
Fixpoint route_pairs (G : graph) (unique_nodes : list Z) (full_coords : list coord)
    : result (list coord) :=
  match unique_nodes with
  | a :: ((b :: _) as rest) =>
      route_nodes ← shortest_path G a b;
      full' ← walk_route G route_nodes full_coords;
      route_pairs G rest full'
  | _ => Ok full_coords
  end.

Definition route_on_graph_with_waypoints (G : graph) (waypoints : list coord)
    : result (option line) :=
  if (length waypoints <? 2)%nat then Ok None else
  match snap_all G waypoints with
  | Raise _ => Ok None
  | Ok all_nodes =>
      unique_nodes ← collapse_nodes all_nodes;
      if (length unique_nodes <? 2)%nat then
        match unique_nodes with
        | n0 :: _ => l ← _safe_same_node_linestring G n0; Ok (Some l)
        | [] => Raise (IndexError "unique_nodes[0]")
        end
      else
        match route_pairs G unique_nodes [] with
        | Raise _ => Ok None
        | Ok [] => Ok None
        | Ok full_coords => l ← LineString full_coords; Ok (Some l)
        end
  end.

(** ** matcher.py: the fallback router *)

(** One attempt of a tier: [line = route_on_graph_with_waypoints(G, waypoints)]
    followed by [if line and len(line.coords) > 1], inside [try]. *)
Definition usable (r : result (option line)) : option line :=
  match r with
  | Ok (Some l) => if line_truthy l && (1 <? length l)%nat then Some l else None
  | _ => None
  end.

Fixpoint tier1 (rc : RegionGraphCache) (rid : option Z) (waypoints : list coord)
    (nets : list string) : option line * RegionGraphCache :=
  match nets with
  | [] => (None, rc)
  | net :: rest =>
      match get_with_expand cfg provider rc rid net with
      | (Ok G, rc1) =>
          match usable (route_on_graph_with_waypoints G waypoints) with
          | Some l => (Some l, rc1)
          | None => tier1 rc1 rid waypoints rest
          end
      | (Raise _, rc1) => tier1 rc1 rid waypoints rest
      end
  end.

Definition py_max (a b : Q) : Q := if Qlt_bool a b then b else a.
Definition py_min (a b : Q) : Q := if Qlt_bool b a then b else a.

(** [graph_from_segment_bbox] *)
Definition graph_from_segment_bbox (rc : RegionGraphCache)
    (s_lat s_lon e_lat e_lon pad_m : Q) (network_type : string)
    : result graph * RegionGraphCache :=
  let pad_deg := (pad_m / 111000)%Q in
  let north := (py_max s_lat e_lat + pad_deg)%Q in
  let south := (py_min s_lat e_lat - pad_deg)%Q in
  let east := (py_max s_lon e_lon + pad_deg)%Q in
  let west := (py_min s_lon e_lon - pad_deg)%Q in
  let q := FromBBox north south east west network_type in
  (provider (requests rc) q, add_request q rc).

Fixpoint tier2 (rc : RegionGraphCache) (waypoints : list coord)
    (s_lat s_lon e_lat e_lon : Q) (nets : list string)
    : option line * RegionGraphCache :=
  match nets with
  | [] => (None, rc)
  | net :: rest =>
      match graph_from_segment_bbox rc s_lat s_lon e_lat e_lon 800 net with
      | (Ok G_bbox, rc1) =>
          match usable (route_on_graph_with_waypoints G_bbox waypoints) with
          | Some l => (Some l, rc1)
          | None => tier2 rc1 waypoints s_lat s_lon e_lat e_lon rest
          end
      | (Raise _, rc1) => tier2 rc1 waypoints s_lat s_lon e_lat e_lon rest
      end
  end.

Definition network_types : list string :=
  [NETWORK_TYPE_PRIMARY cfg; NETWORK_TYPE_SECONDARY cfg].

Definition route_between_points_with_fallback (rc : RegionGraphCache)
    (rid : option Z) (waypoints : list coord)
    : result (option line) * RegionGraphCache :=
  match tier1 rc rid waypoints network_types with
  | (Some l, rc1) => (Ok (Some l), rc1)
  | (None, rc1) =>
      match head waypoints, last waypoints with
      | Some (s_lon, s_lat), Some (e_lon, e_lat) =>
          let '(r, rc2) := tier2 rc1 waypoints s_lat s_lon e_lat e_lon network_types in
          (Ok r, rc2)
      | _, _ => (Raise (IndexError "waypoints[0]"), rc1)
      end
  end.

(** *** RouteFinder: all or nothing *)

(** [a] and [b] are consecutive entries of [l]. *)
Definition adjacent_in (l : list Z) (a b : Z) : Prop :=
  exists i, l !! i = Some a /\ l !! S i = Some b.

Lemma route_pairs_raises G unique_nodes full_coords a b :
  adjacent_in unique_nodes a b ->
  is_raise (shortest_path G a b) = true ->
  is_raise (route_pairs G unique_nodes full_coords) = true.
Proof.
  revert full_coords.
  induction unique_nodes as [|x rest IH]; intros full_coords (i & Ha & Hb) Hsp.
  { by rewrite lookup_nil in Ha. }
  destruct rest as [|y rest'].
  { by destruct i. }
  cbn [route_pairs].
  destruct i as [|i]; simpl in Ha, Hb.
  - inversion Ha; inversion Hb; subst.
    by destruct (shortest_path G a b).
  - destruct (shortest_path G x y) as [route|]; [|done]. cbn.
    destruct (walk_route G route full_coords) as [full'|]; [|done]. cbn.
    apply IH; [|done]. by exists i.
Qed.

(** C5: when the shortest-path search fails for any pair of consecutive
    nodes of the collapsed node list, [route_on_graph_with_waypoints]
    returns [None]; hence a polyline is returned only when the search
    succeeded for every consecutive pair. *)
Theorem route_on_graph_all_or_nothing
    (G : graph) (waypoints : list coord) (all_nodes unique_nodes : list Z) :
  snap_all G waypoints = Ok all_nodes ->
  collapse_nodes all_nodes = Ok unique_nodes ->
  (forall a b, adjacent_in unique_nodes a b ->
     is_raise (shortest_path G a b) = true ->
     route_on_graph_with_waypoints G waypoints = Ok None) /\
  (forall l, route_on_graph_with_waypoints G waypoints = Ok (Some l) ->
     forall a b, adjacent_in unique_nodes a b ->
       is_raise (shortest_path G a b) = false).
Proof.
  intros Hsnap Hcol.
  assert (Hfail : forall a b, adjacent_in unique_nodes a b ->
     is_raise (shortest_path G a b) = true ->
     route_on_graph_with_waypoints G waypoints = Ok None).
  { intros a b Hadj Hsp. unfold route_on_graph_with_waypoints.
    destruct (length waypoints <? 2)%nat; [done|].
    rewrite Hsnap, Hcol. cbv beta iota delta [mbind result_bind rbind].
    assert (Hlen : (length unique_nodes <? 2)%nat = false).
    { destruct Hadj as (i & Ha & Hb). apply lookup_lt_Some in Hb.
      apply Nat.ltb_ge. lia. }
    rewrite Hlen.
    pose proof (route_pairs_raises G unique_nodes [] a b Hadj Hsp) as Hr.
    by destruct (route_pairs G unique_nodes []). }
  split; [exact Hfail|].
  intros l Hl a b Hadj.
  destruct (is_raise (shortest_path G a b)) eqn:Hsp; [|done].
  rewrite (Hfail a b Hadj Hsp) in Hl. discriminate.
Qed.

(** *** FallbackRouter: waypoints that all snap to one node *)

Lemma snap_all_one_node G (waypoints : list coord) n :
  (forall lon lat, In (lon, lat) waypoints -> snap_nodes_hybrid G lon lat = Ok n) ->
  snap_all G waypoints = Ok (repeat n (length waypoints)).
Proof.
  induction waypoints as [|[lon lat] rest IH]; intros H; [done|].
  cbn [snap_all]. rewrite (H lon lat) by (by left). cbn.
  rewrite IH; [done|]. intros lon' lat' Hin. apply H. by right.
Qed.

Lemma collapse_fold_one_node (n : Z) (k : nat) :
  fold_left append_if_new (repeat n k) [n] = [n].
Proof.
  induction k as [|k IH]; [done|]. simpl. unfold append_if_new at 2. simpl.
  destruct (decide (Some n = Some n)); [exact IH|done].
Qed.

Lemma route_on_one_node G (waypoints : list coord) n xy :
  (2 <= length waypoints)%nat ->
  (forall lon lat, In (lon, lat) waypoints -> snap_nodes_hybrid G lon lat = Ok n) ->
  g_nodes G !! n = Some xy ->
  route_on_graph_with_waypoints G waypoints = Ok (Some [xy; xy]).
Proof.
  intros Hlen Hsnap Hxy. unfold route_on_graph_with_waypoints.
  destruct (length waypoints <? 2)%nat eqn:Hlt; [apply Nat.ltb_lt in Hlt; lia|].
  rewrite (snap_all_one_node G waypoints n Hsnap).
  destruct (length waypoints) as [|k]; [lia|].
  cbn [repeat collapse_nodes]. rewrite collapse_fold_one_node.
  cbn. unfold _safe_same_node_linestring, node_xy. by rewrite Hxy.
Qed.

(** The graph a Tier-1 attempt works on: the primary network type's graph,
    or the secondary one's when the primary attempt gave no usable line. *)
Definition tier1_graph (rc : RegionGraphCache) (rid : option Z)
    (waypoints : list coord) (G : graph) (rc1 : RegionGraphCache) : Prop :=
  get_with_expand cfg provider rc rid (NETWORK_TYPE_PRIMARY cfg) = (Ok G, rc1) \/
  exists r0 rc0,
    get_with_expand cfg provider rc rid (NETWORK_TYPE_PRIMARY cfg) = (r0, rc0) /\
    match r0 with
    | Ok G0 => usable (route_on_graph_with_waypoints G0 waypoints) = None
    | Raise _ => True
    end /\
    get_with_expand cfg provider rc0 rid (NETWORK_TYPE_SECONDARY cfg) = (Ok G, rc1).

(** C9: when every waypoint of a request (two or more) snaps to one and
    the same node of a Tier-1 graph, [route_between_points_with_fallback]
    returns the line of two identical coordinates built by
    [_safe_same_node_linestring]; that line counts as a success of the
    tier, and it is not rejected by the stitcher's test for failed matches. *)
Theorem same_node_route_is_success
    (rc rc1 : RegionGraphCache) (rid : option Z) (waypoints : list coord)
    (G : graph) (n : Z) (xy : coord) :
  (2 <= length waypoints)%nat ->
  tier1_graph rc rid waypoints G rc1 ->
  (forall lon lat, In (lon, lat) waypoints -> snap_nodes_hybrid G lon lat = Ok n) ->
  g_nodes G !! n = Some xy ->
  _safe_same_node_linestring G n = Ok [xy; xy] /\
  route_between_points_with_fallback rc rid waypoints = (Ok (Some [xy; xy]), rc1) /\
  usable (Ok (Some [xy; xy])) = Some [xy; xy] /\
  is_unmatched (Some [xy; xy]) = false.
Proof.
  intros Hlen Hg Hsnap Hxy.
  pose proof (route_on_one_node G waypoints n xy Hlen Hsnap Hxy) as Hroute.
  split. { unfold _safe_same_node_linestring, node_xy. by rewrite Hxy. }
  split; [|done].
  unfold route_between_points_with_fallback, network_types.
  destruct Hg as [Hget|(r0 & rc0 & Hget0 & Hr0 & Hget)].
  - cbn [tier1]. rewrite Hget, Hroute. done.
  - cbn [tier1]. rewrite Hget0.
    destruct r0 as [G0|e0].
    + rewrite Hr0, Hget, Hroute. done.
    + rewrite Hget, Hroute. done.
Qed.

(** ** matcher.py: the stitcher *)

(** The local variables of [stitch_and_merge_paths], the cache object it
    passes to the router, and the list of bridge requests it has sent to
    the router so far (region id and waypoints of each). *)
Record stitch_state : Type := {
  chunks : list line;
  merged_coords : list coord;
  prev_end : option coord;
  prev_rid : option Z;
  reg_cache : RegionGraphCache;
  bridge_calls : list (option Z * list coord)
}.

Definition EPS_CONNECT_M : Q := 50.

Definition stitch_init (rc : RegionGraphCache) : stitch_state :=
  {| chunks := []; merged_coords := []; prev_end := None; prev_rid := None;
     reg_cache := rc; bridge_calls := [] |}.

(** [flush_chunk]: a chunk of two or more coordinates is emitted, a
    shorter one is dropped. *)
Definition flush_chunk (s : stitch_state) : stitch_state :=
  {| chunks := if (2 <=? length (merged_coords s))%nat
               then chunks s ++ [merged_coords s] else chunks s;
     merged_coords := [];
     prev_end := prev_end s; prev_rid := prev_rid s;
     reg_cache := reg_cache s; bridge_calls := bridge_calls s |}.

(** [flush_chunk(); prev_end = None; prev_rid = None] *)
Definition flush_and_reset (s : stitch_state) : stitch_state :=
  let s1 := flush_chunk s in
  {| chunks := chunks s1; merged_coords := merged_coords s1;
     prev_end := None; prev_rid := None;
     reg_cache := reg_cache s1; bridge_calls := bridge_calls s1 |}.

(** [merged_coords.extend(list(line.coords)); prev_end = line.coords[-1];
    prev_rid = rid] *)
Definition start_with (s : stitch_state) (l : line) (rid : option Z) : stitch_state :=
  {| chunks := chunks s; merged_coords := merged_coords s ++ l;
     prev_end := last l; prev_rid := rid;
     reg_cache := reg_cache s; bridge_calls := bridge_calls s |}.

(** A split: flush, then start a new chunk with the line. *)
Definition force_split (s : stitch_state) (l : line) (rid : option Z) : stitch_state :=
  start_with (flush_chunk s) l rid.

(** [if merged_coords[-1] == cs[0]: merged_coords.extend(cs[1:])
    else: merged_coords.extend(cs)] *)
Definition extend_dedup (merged cs : list coord) : result (list coord) :=
  match last merged with
  | None => Raise (IndexError "merged_coords[-1]")
  | Some m =>
      match cs with
      | [] => Raise (IndexError "coords[0]")
      | c0 :: tl => if coord_eqb m c0 then Ok (merged ++ tl) else Ok (merged ++ cs)
      end
  end.

(** The last statements of the loop body: the line is joined to the
    current chunk. *)
Definition append_line (s : stitch_state) (l : line) (rid : option Z)
    : result stitch_state :=
  merged ← extend_dedup (merged_coords s) l;
  Ok {| chunks := chunks s; merged_coords := merged;
        prev_end := last l; prev_rid := rid;
        reg_cache := reg_cache s; bridge_calls := bridge_calls s |}.

(** [prev_rid if prev_rid else rid]: an absent or zero region id is false. *)
Definition rid_for_gap (prev_rid rid : option Z) : option Z :=
  match prev_rid with
  | Some z => if (z =? 0)%Z then rid else Some z
  | None => rid
  end.

(** A bridge attempt between [p] and the line's start: on success the
    bridge and then the line are appended, on failure the chunk is split. *)
Definition bridge_or_split (s : stitch_state) (p start : coord) (l : line)
    (rid : option Z) : result stitch_state :=
  let rid_gap := rid_for_gap (prev_rid s) rid in
  let gap_waypoints := [p; start] in
  let '(r, rc') := route_between_points_with_fallback (reg_cache s) rid_gap gap_waypoints in
  let s1 := {| chunks := chunks s; merged_coords := merged_coords s;
               prev_end := prev_end s; prev_rid := prev_rid s;
               reg_cache := rc';
               bridge_calls := bridge_calls s ++ [(rid_gap, gap_waypoints)] |} in
  bridge ← r;
  match bridge with
  | Some b =>
      if line_truthy b && (1 <? length b)%nat then
        merged ← extend_dedup (merged_coords s1) b;
        append_line
          {| chunks := chunks s1; merged_coords := merged;
             prev_end := prev_end s1; prev_rid := prev_rid s1;
             reg_cache := reg_cache s1; bridge_calls := bridge_calls s1 |} l rid
      else Ok (force_split s1 l rid)
  | None => Ok (force_split s1 l rid)
  end.

(** One iteration of the loop [for i, line in enumerate(matched_lines)]. *)
Definition stitch_step (seg_region_ids : list (option Z)) (s : stitch_state)
    (i : nat) (matched : option line) : result stitch_state :=
  match seg_region_ids !! i with
  | None => Raise (IndexError "seg_region_ids[i]")
  | Some rid =>
      if is_unmatched matched then Ok (flush_and_reset s) else
      match matched with
      | None => Ok (flush_and_reset s)
      | Some l =>
          match head l, last l with
          | Some start, Some finish =>
              match prev_end s with
              | None => Ok (start_with s l rid)
              | Some p =>
                  let gap_m := geodesic (swap_coord p) (swap_coord start) in
                  let end_to_end_m := geodesic (swap_coord p) (swap_coord finish) in
                  if Qle_bool (MAX_END_TO_END_DIST_M cfg) end_to_end_m then
                    Ok (force_split s l rid)
                  else if Qlt_bool (GAP_BREAK_M cfg) gap_m then
                    if Qlt_bool (MAX_BRIDGE_TRY_M cfg) gap_m then
                      Ok (force_split s l rid)
                    else bridge_or_split s p start l rid
                  else if Qlt_bool EPS_CONNECT_M gap_m then
                    bridge_or_split s p start l rid
                  else append_line s l rid
              end
          | _, _ => Raise (IndexError "line.coords[0]")
          end
      end
  end.

Fixpoint stitch_loop (seg_region_ids : list (option Z)) (s : stitch_state)
    (i : nat) (matched_lines : list (option line)) : result stitch_state :=
  match matched_lines with
  | [] => Ok s
  | matched :: rest =>
      s' ← stitch_step seg_region_ids s i matched;
      stitch_loop seg_region_ids s' (S i) rest
  end.

Definition stitch_and_merge_paths (rc : RegionGraphCache)
    (matched_lines : list (option line)) (seg_region_ids : list (option Z))
    : result (list line) :=
  s ← stitch_loop seg_region_ids (stitch_init rc) 0 matched_lines;
  Ok (chunks (flush_chunk s)).

(** *** The stitcher's invariant *)

(** Between iterations: with no previous endpoint the working list is
    empty; with one, the working list ends in it and holds at least two
    coordinates. *)
Definition stitch_inv (s : stitch_state) : Prop :=
  match prev_end s with
  | None => merged_coords s = []
  | Some p => last (merged_coords s) = Some p /\ (2 <= length (merged_coords s))%nat
  end.

Lemma matched_line_shape (l : line) :
  is_unmatched (Some l) = false ->
  exists c0 c1 tl, l = c0 :: c1 :: tl.
Proof.
  destruct l as [|c0 [|c1 tl]]; try done. intros _. by exists c0, c1, tl.
Qed.

Lemma last_app_cons {A} (l : list A) (x : A) (tl : list A) :
  last (l ++ x :: tl) = last (x :: tl).
Proof.
  induction l as [|y l IH]; [done|].
  simpl. destruct (l ++ x :: tl) eqn:E; [by destruct l|]. exact IH.
Qed.

Lemma extend_dedup_matched (merged : list coord) (m : coord) (cs : line) :
  last merged = Some m ->
  is_unmatched (Some cs) = false ->
  let merged' := merged ++ (if coord_eqb m (default m (head cs)) then tail cs else cs) in
  extend_dedup merged cs = Ok merged' /\
  last merged' = last cs /\
  (length merged < length merged')%nat.
Proof.
  intros Hm Hcs. destruct (matched_line_shape cs Hcs) as (c0 & c1 & tl & ->).
  unfold extend_dedup. rewrite Hm. simpl.
  destruct (coord_eqb m c0).
  - split; [done|]. split; [by rewrite last_app_cons|].
    rewrite length_app. simpl. lia.
  - split; [done|]. split; [by rewrite last_app_cons|].
    rewrite length_app. simpl. lia.
Qed.

Lemma start_with_inv (s : stitch_state) (l : line) (rid : option Z) :
  is_unmatched (Some l) = false ->
  stitch_inv (start_with s l rid).
Proof.
  intros Hl. destruct (matched_line_shape l Hl) as (c0 & c1 & tl & ->).
  unfold stitch_inv, start_with. cbn [prev_end merged_coords].
  change (last (c0 :: c1 :: tl)) with (last (c1 :: tl)).
  destruct (last (c1 :: tl)) as [p|] eqn:E; [|by apply last_None in E].
  split.
  - rewrite (last_app_cons (merged_coords s) c0 (c1 :: tl)). exact E.
  - rewrite length_app. simpl. lia.
Qed.

Lemma append_line_inv (s s' : stitch_state) (l : line) (rid : option Z) :
  is_unmatched (Some l) = false ->
  append_line s l rid = Ok s' ->
  stitch_inv s'.
Proof.
  intros Hl. destruct (matched_line_shape l Hl) as (c0 & c1 & tl & ->).
  unfold append_line, extend_dedup.
  destruct (last (merged_coords s)) as [m|] eqn:Hm; [|done].
  destruct (coord_eqb m c0); cbn; intros H; inversion H; subst; clear H;
    unfold stitch_inv; cbn [prev_end merged_coords];
    change (last (c0 :: c1 :: tl)) with (last (c1 :: tl));
    (destruct (last (c1 :: tl)) as [p|] eqn:E; [|by apply last_None in E]).
  - split; [by rewrite last_app_cons|]. rewrite length_app. simpl.
    destruct (merged_coords s); [done|]. simpl. lia.
  - split; [by rewrite (last_app_cons _ c0 (c1 :: tl))|].
    rewrite length_app. simpl. lia.
Qed.

Lemma bridge_or_split_inv s s' p start l rid :
  is_unmatched (Some l) = false ->
  bridge_or_split s p start l rid = Ok s' ->
  stitch_inv s'.
Proof.
  intros Hl. unfold bridge_or_split.
  destruct (route_between_points_with_fallback _ _ _) as [r rc'].
  destruct r as [[b|]|e]; rsimpl; [| |done].
  - destruct (line_truthy b && (1 <? length b)%nat).
    + cbn [merged_coords].
      destruct (extend_dedup (merged_coords s) b) as [merged|]; [|done].
      intros H. by apply append_line_inv in H.
    + intros H; inversion H; subst. by apply start_with_inv.
  - intros H; inversion H; subst. by apply start_with_inv.
Qed.

Lemma stitch_step_inv ids s i matched s' :
  stitch_step ids s i matched = Ok s' ->
  stitch_inv s'.
Proof.
  unfold stitch_step.
  destruct (ids !! i) as [rid|]; [|done].
  destruct (is_unmatched matched) eqn:Hm.
  { intros H; inversion H; subst. done. }
  destruct matched as [l|]; [|done].
  destruct (head l) as [start|]; [|done].
  destruct (last l) as [finish|]; [|done].
  destruct (prev_end s) as [p|].
  - repeat match goal with |- context [if ?b then _ else _] => destruct b end;
      intros H;
      first [ by (inversion H; subst; apply start_with_inv)
            | by (apply bridge_or_split_inv in H)
            | by (apply append_line_inv in H) ].
  - intros H; inversion H; subst. by apply start_with_inv.
Qed.

Lemma stitch_loop_inv ids s i matched_lines s' :
  stitch_inv s ->
  stitch_loop ids s i matched_lines = Ok s' ->
  stitch_inv s'.
Proof.
  revert s i. induction matched_lines as [|m rest IH]; intros s i Hinv; cbn.
  - intros H; by inversion H; subst.
  - destruct (stitch_step ids s i m) as [s1|] eqn:Hs; cbn; [|done].
    apply IH. by apply stitch_step_inv in Hs.
Qed.

Lemma stitch_init_inv rc : stitch_inv (stitch_init rc).
Proof. done. Qed.

Lemma stitch_loop_app ids s i (l1 l2 : list (option line)) :
  stitch_loop ids s i (l1 ++ l2) =
  (s1 ← stitch_loop ids s i l1; stitch_loop ids s1 (i + length l1) l2).
Proof.
  revert s i. induction l1 as [|m l1 IH]; intros s i; cbn [stitch_loop app length].
  - rsimpl. by rewrite Nat.add_0_r.
  - rsimpl. destruct (stitch_step ids s i m) as [s1|]; [|done].
    rewrite IH. rsimpl. by rewrite Nat.add_succ_comm.
Qed.

Lemma append_line_prev_end s l rid s' :
  append_line s l rid = Ok s' -> prev_end s' = last l.
Proof.
  unfold append_line. destruct (extend_dedup _ _); rsimpl; [|done].
  intros H; by inversion H.
Qed.

Lemma stitch_step_prev_end ids s i (l : line) s' :
  is_unmatched (Some l) = false ->
  stitch_step ids s i (Some l) = Ok s' ->
  prev_end s' = last l.
Proof.
  intros Hl. unfold stitch_step. rewrite Hl.
  destruct (ids !! i) as [rid|]; [|done].
  destruct (head l) as [start|]; [|done].
  destruct (last l) as [finish|] eqn:Hlast; [|done].
  assert (Hb : forall p, bridge_or_split s p start l rid = Ok s' ->
                         prev_end s' = Some finish).
  { intros p. unfold bridge_or_split.
    destruct (route_between_points_with_fallback _ _ _) as [r rc'].
    destruct r as [[b|]|e]; rsimpl; [| |done].
    - destruct (line_truthy b && (1 <? length b)%nat).
      + destruct (extend_dedup _ b); [|done].
        intros H. apply append_line_prev_end in H. by rewrite H.
      + intros H; inversion H; subst. done.
    - intros H; inversion H; subst. done. }
  destruct (prev_end s) as [p|].
  - repeat match goal with |- context [if ?b then _ else _] => destruct b end;
      intros H;
      first [ by (inversion H; subst)
            | by (apply Hb in H)
            | by (apply append_line_prev_end in H; rewrite H) ].
  - intros H; by inversion H; subst.
Qed.

(** *** Pairs of consecutive matched lines *)

(** [l1] and [l2] are matched lines at consecutive positions of the input
    (after the lines [before]); [s] is the stitcher's state when it reaches
    [l2], [rid] is [l2]'s region id, [p] is the endpoint of [l1], [start]
    and [finish] are the ends of [l2]. *)
Definition consecutive_pair (seg_region_ids : list (option Z))
    (rc : RegionGraphCache) (before : list (option line)) (l1 l2 : line)
    (s : stitch_state) (rid : option Z) (p start finish : coord) : Prop :=
  is_unmatched (Some l1) = false /\
  is_unmatched (Some l2) = false /\
  stitch_loop seg_region_ids (stitch_init rc) 0 (before ++ [Some l1]) = Ok s /\
  seg_region_ids !! S (length before) = Some rid /\
  last l1 = Some p /\
  head l2 = Some start /\
  last l2 = Some finish.

Definition gap_m (p start : coord) : Q := geodesic (swap_coord p) (swap_coord start).
Definition end_to_end_m (p finish : coord) : Q := geodesic (swap_coord p) (swap_coord finish).

(** The line was joined to the current chunk: nothing was emitted, the
    working list grew by the line (less a repeated joint), and no bridge
    request was sent. *)
Definition joined_without_bridge (s s' : stitch_state) (p start : coord) (l2 : line)
    : Prop :=
  chunks s' = chunks s /\
  merged_coords s' = merged_coords s ++ (if coord_eqb p start then tail l2 else l2) /\
  prev_end s' = last l2 /\
  bridge_calls s' = bridge_calls s /\
  reg_cache s' = reg_cache s.

(** The chunk was split: the current chunk was emitted, the line starts
    the next one, and no bridge request was sent. *)
Definition split_without_bridge (s s' : stitch_state) (l2 : line) : Prop :=
  chunks s' = chunks s ++ [merged_coords s] /\
  merged_coords s' = l2 /\
  prev_end s' = last l2 /\
  bridge_calls s' = bridge_calls s /\
  reg_cache s' = reg_cache s.

Lemma consecutive_pair_state ids rc before l1 l2 s rid p start finish :
  consecutive_pair ids rc before l1 l2 s rid p start finish ->
  prev_end s = Some p /\ stitch_inv s.
Proof.
  intros (Hl1 & _ & Hloop & _ & Hp & _).
  split.
  - rewrite stitch_loop_app in Hloop.
    destruct (stitch_loop ids (stitch_init rc) 0 before) as [s0|]; [|done].
    rsimpl_in Hloop. cbn [stitch_loop] in Hloop.
    destruct (stitch_step ids s0 _ (Some l1)) as [s1|] eqn:Hs; [|done].
    rsimpl_in Hloop. inversion Hloop; subst.
    apply stitch_step_prev_end in Hs; [|done]. by rewrite Hs.
  - eapply stitch_loop_inv; [apply stitch_init_inv|exact Hloop].
Qed.

Lemma force_split_spec (s : stitch_state) (l : line) (rid : option Z) :
  (2 <= length (merged_coords s))%nat ->
  split_without_bridge s (force_split s l rid) l.
Proof.
  intros Hlen. unfold split_without_bridge, force_split, start_with, flush_chunk.
  cbn [chunks merged_coords prev_end bridge_calls reg_cache app].
  apply Nat.leb_le in Hlen. by rewrite Hlen.
Qed.

Lemma Qle_bool_false (x y : Q) : (y < x)%Q -> Qle_bool x y = false.
Proof.
  intros H. destruct (Qle_bool x y) eqn:E; [|done].
  apply Qle_bool_iff in E. lra.
Qed.

Lemma Qlt_bool_true (x y : Q) : (x < y)%Q -> Qlt_bool x y = true.
Proof. intros H. unfold Qlt_bool. by rewrite Qle_bool_false. Qed.

Lemma Qlt_bool_false (x y : Q) : (y <= x)%Q -> Qlt_bool x y = false.
Proof.
  intros H. unfold Qlt_bool. apply Qle_bool_iff in H. by rewrite H.
Qed.

(** C1 (amended): for consecutive matched lines whose start gap is at most
    EPS_CONNECT_M = 50 m and at most GAP_BREAK_M, and whose end-to-end
    distance is below MAX_END_TO_END_DIST_M, the stitcher joins the new
    line to the current chunk: no chunk is emitted, the line's coordinates
    are appended (less a repeated joint), and no bridge request is sent,
    whatever the router would have answered. *)
Theorem small_gap_joins_chunk
    (seg_region_ids : list (option Z)) (rc : RegionGraphCache)
    (before : list (option line)) (l1 l2 : line) (s : stitch_state)
    (rid : option Z) (p start finish : coord) :
  consecutive_pair seg_region_ids rc before l1 l2 s rid p start finish ->
  (gap_m p start <= EPS_CONNECT_M)%Q ->
  (gap_m p start <= GAP_BREAK_M cfg)%Q ->
  (end_to_end_m p finish < MAX_END_TO_END_DIST_M cfg)%Q ->
  exists s',
    stitch_step seg_region_ids s (S (length before)) (Some l2) = Ok s' /\
    joined_without_bridge s s' p start l2.
Proof.
  intros Hpair Heps Hgap He2e.
  destruct (consecutive_pair_state _ _ _ _ _ _ _ _ _ _ Hpair) as [Hprev Hinv].
  destruct Hpair as (_ & Hl2 & _ & Hrid & _ & Hstart & Hfinish).
  unfold stitch_inv in Hinv. rewrite Hprev in Hinv. destruct Hinv as [Hlast Hlen].
  unfold stitch_step. rewrite Hrid, Hl2, Hstart, Hfinish, Hprev.
  fold (gap_m p start). fold (end_to_end_m p finish).
  rewrite (Qle_bool_false _ _ He2e).
  rewrite (Qlt_bool_false _ _ Hgap), (Qlt_bool_false _ _ Heps).
  destruct (extend_dedup_matched (merged_coords s) p l2 Hlast Hl2) as (Hext & _ & _).
  rewrite Hstart in Hext. cbn [default] in Hext.
  unfold append_line. rewrite Hext. rsimpl.
  eexists. split; [reflexivity|]. by repeat split.
Qed.

(** C2: for consecutive matched lines whose end-to-end distance reaches
    MAX_END_TO_END_DIST_M, the stitcher emits the current chunk and starts
    a new chunk with the new line, however small the start gap, and sends
    no bridge request. *)
Theorem end_to_end_forces_split
    (seg_region_ids : list (option Z)) (rc : RegionGraphCache)
    (before : list (option line)) (l1 l2 : line) (s : stitch_state)
    (rid : option Z) (p start finish : coord) :
  consecutive_pair seg_region_ids rc before l1 l2 s rid p start finish ->
  (MAX_END_TO_END_DIST_M cfg <= end_to_end_m p finish)%Q ->
  stitch_step seg_region_ids s (S (length before)) (Some l2)
    = Ok (force_split s l2 rid) /\
  split_without_bridge s (force_split s l2 rid) l2.
Proof.
  intros Hpair He2e.
  destruct (consecutive_pair_state _ _ _ _ _ _ _ _ _ _ Hpair) as [Hprev Hinv].
  destruct Hpair as (_ & Hl2 & _ & Hrid & _ & Hstart & Hfinish).
  unfold stitch_inv in Hinv. rewrite Hprev in Hinv. destruct Hinv as [Hlast Hlen].
  split; [|by apply force_split_spec].
  unfold stitch_step. rewrite Hrid, Hl2, Hstart, Hfinish, Hprev.
  fold (end_to_end_m p finish).
  apply Qle_bool_iff in He2e. by rewrite He2e.
Qed.


(** C4 (amended to lines that are absent or hold fewer than two
    coordinates): at such a position the stitcher flushes the current
    chunk, emitting it when it holds at least two coordinates and dropping
    it otherwise, and resets the previous endpoint and the previous region;
    no bridge request is sent, and a matched line that comes next starts a
    chunk of its own. *)
Theorem unmatched_line_flushes_and_resets
    (seg_region_ids : list (option Z)) (s : stitch_state) (i : nat)
    (matched : option line) (rid : option Z) :
  seg_region_ids !! i = Some rid ->
  is_unmatched matched = true ->
  exists s',
    stitch_step seg_region_ids s i matched = Ok s' /\
    chunks s' = (if (2 <=? length (merged_coords s))%nat
                 then chunks s ++ [merged_coords s] else chunks s) /\
    merged_coords s' = [] /\
    prev_end s' = None /\
    prev_rid s' = None /\
    bridge_calls s' = bridge_calls s /\
    reg_cache s' = reg_cache s /\
    (forall (l : line) (rid' : option Z),
       seg_region_ids !! S i = Some rid' ->
       is_unmatched (Some l) = false ->
       stitch_step seg_region_ids s' (S i) (Some l) = Ok (start_with s' l rid') /\
       merged_coords (start_with s' l rid') = l).
Proof.
  intros Hrid Hm. exists (flush_and_reset s).
  split. { unfold stitch_step. by rewrite Hrid, Hm. }
  repeat (split; [done|]).
  intros l rid' Hrid' Hl. split; [|done].
  destruct (matched_line_shape l Hl) as (c0 & c1 & tl & ->).
  unfold stitch_step. rewrite Hrid', Hl. cbn [head].
  change (last (c0 :: c1 :: tl)) with (last (c1 :: tl)).
  destruct (last (c1 :: tl)) eqn:E; [done|by apply last_None in E].
Qed.

(** *** Safety of [merged_coords[-1]] *)

Lemma router_returns (rc : RegionGraphCache) (rid : option Z) (p : coord)
    (rest : list coord) :
  exists r rc', route_between_points_with_fallback rc rid (p :: rest) = (Ok r, rc').
Proof.
  unfold route_between_points_with_fallback.
  destruct (tier1 rc rid (p :: rest) network_types) as [[l|] rc1]; [by eauto|].
  cbn [head].
  destruct (last (p :: rest)) as [[e_lon e_lat]|] eqn:E;
    [|by apply last_None in E].
  destruct p as [s_lon s_lat].
  match goal with
  | |- context [tier2 ?a ?b ?c ?d ?e ?f ?g] => destruct (tier2 a b c d e f g) as [r rc2]
  end.
  by eauto.
Qed.

Definition seg_region_ids_error : exn := IndexError "seg_region_ids[i]".
Definition merged_coords_error : exn := IndexError "merged_coords[-1]".

Lemma append_line_safe s (l : line) rid p :
  last (merged_coords s) = Some p ->
  is_unmatched (Some l) = false ->
  is_raise (append_line s l rid) = false.
Proof.
  intros Hlast Hl. unfold append_line.
  destruct (extend_dedup_matched _ _ _ Hlast Hl) as (-> & _). by rsimpl.
Qed.

Lemma bridge_or_split_safe s p start (l : line) rid :
  last (merged_coords s) = Some p ->
  is_unmatched (Some l) = false ->
  is_raise (bridge_or_split s p start l rid) = false.
Proof.
  intros Hlast Hl. unfold bridge_or_split.
  destruct (router_returns (reg_cache s) (rid_for_gap (prev_rid s) rid) p [start])
    as (r & rc' & ->).
  rsimpl. destruct r as [b|]; [|done].
  destruct (line_truthy b && (1 <? length b)%nat) eqn:Hb; [|done].
  apply andb_prop in Hb as [_ Hb].
  cbn [merged_coords].
  destruct (extend_dedup_matched (merged_coords s) p b Hlast) as (-> & Hlast' & _).
  { unfold is_unmatched. apply Nat.ltb_lt in Hb. apply Nat.ltb_ge. lia. }
  destruct (matched_line_shape l Hl) as (c0 & c1 & tl & ->).
  unfold is_unmatched in Hl.
  destruct (last b) as [q|] eqn:Eb.
  - eapply append_line_safe; [exact Hlast'|done].
  - apply last_None in Eb. subst b. done.
Qed.

Lemma stitch_step_raises_only_on_region_lookup ids s i matched e :
  stitch_inv s ->
  stitch_step ids s i matched = Raise e ->
  e = seg_region_ids_error /\ ids !! i = None.
Proof.
  intros Hinv. unfold stitch_step.
  destruct (ids !! i) as [rid|]; [|by intros H; inversion H].
  destruct (is_unmatched matched) eqn:Hm; [done|].
  destruct matched as [l|]; [|done].
  destruct (matched_line_shape l Hm) as (c0 & c1 & tl & ->).
  cbn [head]. change (last (c0 :: c1 :: tl)) with (last (c1 :: tl)).
  destruct (last (c1 :: tl)) as [finish|] eqn:E; [|by apply last_None in E].
  unfold stitch_inv in Hinv.
  destruct (prev_end s) as [p|]; [|done].
  destruct Hinv as [Hlast _].
  pose proof (bridge_or_split_safe s p c0 _ rid Hlast Hm) as Hb.
  pose proof (append_line_safe s _ rid p Hlast Hm) as Ha.
  repeat match goal with |- context [if ?b then _ else _] => destruct b end;
    intros H; try done.
  - by rewrite H in Hb.
  - by rewrite H in Hb.
  - by rewrite H in Ha.
Qed.

(** C10: at every iteration of the stitcher's loop, if the previous
    endpoint is set then [merged_coords] holds at least two coordinates
    and ends in that endpoint; so the iteration, whatever the next line
    is, does not fail on [merged_coords[-1]]: the only error it can raise
    is the lookup of the region id of a position the region list lacks. *)
Theorem merged_coords_nonempty_invariant
    (seg_region_ids : list (option Z)) (rc : RegionGraphCache)
    (matched_lines : list (option line)) (s : stitch_state) :
  stitch_loop seg_region_ids (stitch_init rc) 0 matched_lines = Ok s ->
  (forall p, prev_end s = Some p ->
     (2 <= length (merged_coords s))%nat /\ last (merged_coords s) = Some p) /\
  (forall next e,
     stitch_step seg_region_ids s (length matched_lines) next = Raise e ->
     e <> merged_coords_error /\ seg_region_ids !! length matched_lines = None).
Proof.
  intros Hloop.
  assert (Hinv : stitch_inv s).
  { eapply stitch_loop_inv; [apply stitch_init_inv|exact Hloop]. }
  split.
  - intros p Hp. unfold stitch_inv in Hinv. rewrite Hp in Hinv. by destruct Hinv.
  - intros next e He.
    apply stitch_step_raises_only_on_region_lookup in He as [-> Hnone]; [|done].
    by split.
Qed.

Lemma stitch_loop_raises_only_on_region_lookup ids s i matched_lines e :
  stitch_inv s ->
  stitch_loop ids s i matched_lines = Raise e ->
  e = seg_region_ids_error.
Proof.
  revert s i. induction matched_lines as [|m rest IH]; intros s i Hinv; [done|].
  cbn [stitch_loop].
  destruct (stitch_step ids s i m) as [s1|e1] eqn:Hs; rsimpl.
  - apply IH. by apply stitch_step_inv in Hs.
  - intros H; inversion H; subst.
    by apply stitch_step_raises_only_on_region_lookup in Hs as [-> _].
Qed.

(** With a region id for every line, the stitcher returns its chunks. *)
Lemma stitch_and_merge_paths_returns rc matched_lines (ids : list (option Z)) :
  (length matched_lines <= length ids)%nat ->
  exists chunks, stitch_and_merge_paths rc matched_lines ids = Ok chunks.
Proof.
  intros Hlen. unfold stitch_and_merge_paths.
  assert (H : forall lines s i, stitch_inv s ->
            (i + length lines <= length ids)%nat ->
            exists s', stitch_loop ids s i lines = Ok s').
  { induction lines as [|m rest IH]; intros s i Hinv Hi; [by eexists|].
    cbn [stitch_loop].
    destruct (stitch_step ids s i m) as [s1|e1] eqn:Hs; rsimpl.
    - apply IH; [by apply stitch_step_inv in Hs|]. simpl in Hi. lia.
    - apply stitch_step_raises_only_on_region_lookup in Hs as [_ Hnone]; [|done].
      apply lookup_ge_None in Hnone. simpl in Hi. lia. }
  destruct (H matched_lines (stitch_init rc) 0%nat (stitch_init_inv rc) Hlen) as [s' ->].
  rsimpl. by eexists.
Qed.

End Matcher.

(** ** Fixtures for the matcher: stand-ins for the libraries *)

(** A flat stand-in for geopy's geodesic on [(lat, lon)] pairs: 111 km per
    degree, measured along the axes. *)
Definition flat_geodesic (a b : coord) : Q :=
  (111000 * (Qabs (fst a - fst b) + Qabs (snd a - snd b)))%Q.

(** Nearest node by a scan of the node table. *)
Definition scan_nearest_nodes (G : graph) (lon lat : Q) : result Z :=
  match map_to_list (g_nodes G) with
  | [] => Raise (ValueError "empty graph")
  | nd :: rest =>
      Ok (fst (fold_left
                 (fun best cand =>
                    if Qlt_bool (flat_geodesic (lat, lon) (swap_coord (snd cand)))
                                (flat_geodesic (lat, lon) (swap_coord (snd best)))
                    then cand else best)
                 rest nd))
  end.

Definition no_nearest_edges (G : graph) (lon lat : Q) : result (Z * Z * Z) :=
  Raise (ValueError "no edges").

(** A path search that only knows direct edges. *)
Definition one_hop_path (G : graph) (a b : Z) : result (list Z) :=
  match g_edges G !! (a, b) with
  | Some (_ :: _) => Ok [a; b]
  | _ => Raise (KeyError "no path")
  end.

Definition pt (x y : Q) : coord := (x, y).

(** Three nodes on the parallel 37.5 N; one road, from node 1 to node 2. *)
Definition G_line : graph := {|
  g_nodes := <[1%Z := pt 127 37.5]>
             (<[2%Z := pt 127.01 37.5]>
             (<[3%Z := pt 127.05 37.5]> ∅));
  g_edges := <[(1%Z, 2%Z) := [(0%Z, {| e_length := Some 1110%Q; e_geometry := None |})]]> ∅
|}.

Definition rc_cached : RegionGraphCache :=
  {| reg_df := [seoul];
     cache := <[(1%Z, "walk"%string, 5000%Z) := G_line]> ∅;
     requests := [] |}.

(** Waypoints on the nodes 1, 2, 3: the road 1 -> 2 is found, no path
    leads from 2 to 3, and no partial route is returned. *)
Lemma route_on_graph_all_or_nothing_witness :
  route_on_graph_with_waypoints scan_nearest_nodes no_nearest_edges one_hop_path
    flat_geodesic G_line [pt 127 37.5; pt 127.01 37.5; pt 127.05 37.5] = Ok None.
Proof.
  apply (proj1 (route_on_graph_all_or_nothing scan_nearest_nodes no_nearest_edges
                  one_hop_path flat_geodesic G_line
                  [pt 127 37.5; pt 127.01 37.5; pt 127.05 37.5]
                  [1; 2; 3]%Z [1; 2; 3]%Z
                  ltac:(by vm_compute) ltac:(by vm_compute)) 2%Z 3%Z).
  - exists 1%nat. by split.
  - by vm_compute.
Defined.

(** Two waypoints next to node 1 of the cached graph. *)
Lemma same_node_route_is_success_witness :
  route_between_points_with_fallback cfg0 provider_down scan_nearest_nodes
    no_nearest_edges one_hop_path flat_geodesic rc_cached (Some 1%Z)
    [pt 127.0001 37.5; pt 127.0002 37.5]
  = (Ok (Some [pt 127 37.5; pt 127 37.5]), rc_cached).
Proof.
  apply (same_node_route_is_success cfg0 provider_down scan_nearest_nodes
           no_nearest_edges one_hop_path flat_geodesic rc_cached rc_cached
           (Some 1%Z) _ G_line 1%Z (pt 127 37.5)).
  - simpl. lia.
  - left. by vm_compute.
  - intros lon lat [H|[H|[]]]; inversion H; subst; by vm_compute.
  - by vm_compute.
Defined.

(** ** Fixtures for the stitcher *)

(** Lines along the parallel 37.5 N, as [(lon, lat)]. *)
Definition line_a : line := [pt 127 37.5; pt 127.001 37.5].
Definition line_near : line := [pt 127.0011 37.5; pt 127.002 37.5].
Definition line_near_long : line := [pt 127.0011 37.5; pt 127.02 37.5].
Definition line_mid : line := [pt 127.003 37.5; pt 127.004 37.5].
Definition line_far : line := [pt 127.05 37.5; pt 127.051 37.5].
Definition line_point : line := [pt 127 37.5; pt 127 37.5].

Definition ids2 : list (option Z) := [Some 1%Z; Some 1%Z].

(** The stitcher's state after [line_a] alone. *)
Definition s_after_a : stitch_state :=
  {| chunks := []; merged_coords := line_a; prev_end := Some (pt 127.001 37.5);
     prev_rid := Some 1%Z; reg_cache := rc_seoul; bridge_calls := [] |}.

Definition pair_after_a (c : config) (l2 : line) (start finish : coord) : Prop :=
  consecutive_pair c provider_down scan_nearest_nodes no_nearest_edges one_hop_path
    flat_geodesic ids2 rc_seoul [] line_a l2 s_after_a (Some 1%Z)
    (pt 127.001 37.5) start finish.

Lemma pair_after_a_holds (c : config) (l2 : line) (start finish : coord) :
  is_unmatched (Some l2) = false ->
  head l2 = Some start ->
  last l2 = Some finish ->
  pair_after_a c l2 start finish.
Proof. intros H1 H2 H3. by repeat split. Qed.

(** A start gap of 11.1 m, an end-to-end distance of 111 m. *)
Lemma small_gap_joins_chunk_witness :
  exists s',
    stitch_step cfg0 provider_down scan_nearest_nodes no_nearest_edges one_hop_path
      flat_geodesic ids2 s_after_a 1 (Some line_near) = Ok s' /\
    joined_without_bridge s_after_a s' (pt 127.001 37.5) (pt 127.0011 37.5) line_near.
Proof.
  apply (small_gap_joins_chunk cfg0 provider_down scan_nearest_nodes no_nearest_edges
           one_hop_path flat_geodesic ids2 rc_seoul [] line_a line_near s_after_a
           (Some 1%Z) (pt 127.001 37.5) (pt 127.0011 37.5) (pt 127.002 37.5)).
  - by apply pair_after_a_holds.
  - by vm_compute.
  - by vm_compute.
  - by vm_compute.
Defined.

(** C1 as stated fails: a start gap of 11.1 m with an end-to-end distance
    of 2109 m, beyond MAX_END_TO_END_DIST_M = 1000, splits the chunk. *)
Lemma small_gap_long_line_is_split :
  ~ (forall cfg provider nearest_nodes nearest_edges shortest_path geodesic
            seg_region_ids rc before l1 l2 s rid p start finish,
       consecutive_pair cfg provider nearest_nodes nearest_edges shortest_path
         geodesic seg_region_ids rc before l1 l2 s rid p start finish ->
       (gap_m geodesic p start <= EPS_CONNECT_M)%Q ->
       exists s',
         stitch_step cfg provider nearest_nodes nearest_edges shortest_path geodesic
           seg_region_ids s (S (length before)) (Some l2) = Ok s' /\
         joined_without_bridge s s' p start l2).
Proof.
  intros H.
  destruct (H cfg0 provider_down scan_nearest_nodes no_nearest_edges one_hop_path
              flat_geodesic ids2 rc_seoul [] line_a line_near_long s_after_a
              (Some 1%Z) (pt 127.001 37.5) (pt 127.0011 37.5) (pt 127.02 37.5))
    as (s' & Hstep & Hchunks & _).
  - by apply pair_after_a_holds.
  - by vm_compute.
  - vm_compute in Hstep. inversion Hstep; subst. discriminate Hchunks.
Qed.

(** A start gap of 11.1 m, an end-to-end distance of 2109 m. *)
Lemma end_to_end_forces_split_witness :
  split_without_bridge s_after_a (force_split s_after_a line_near_long (Some 1%Z))
    line_near_long.
Proof.
  apply (end_to_end_forces_split cfg0 provider_down scan_nearest_nodes no_nearest_edges
           one_hop_path flat_geodesic ids2 rc_seoul [] line_a line_near_long s_after_a
           (Some 1%Z) (pt 127.001 37.5) (pt 127.0011 37.5) (pt 127.02 37.5)).
  - by apply pair_after_a_holds.
  - by vm_compute.
Defined.


(** A configuration whose bridge limit lies below its gap threshold. *)
Definition cfg_low_bridge_limit : config := {|
  REGION_GRAPH_DIST_M := 5000;
  DIST_EXPANDS := [0; 3000; 6000]%Z;
  NETWORK_TYPE_PRIMARY := "walk"%string;
  NETWORK_TYPE_SECONDARY := "drive"%string;
  GAP_BREAK_M := 300;
  MAX_BRIDGE_TRY_M := 100;
  MAX_END_TO_END_DIST_M := 100000
|}.


(** A line of geometric length zero: all its coordinates coincide. *)
Definition zero_length (l : line) : bool :=
  match l with
  | [] => true
  | c :: tl => forallb (coord_eqb c) tl
  end.

(** An absent line after [line_a]: the chunk [line_a] is emitted. *)
Lemma unmatched_line_flushes_and_resets_witness :
  exists s',
    stitch_step cfg0 provider_down scan_nearest_nodes no_nearest_edges one_hop_path
      flat_geodesic ids2 s_after_a 1 None = Ok s' /\
    chunks s' = [line_a] /\ merged_coords s' = [] /\ prev_end s' = None.
Proof.
  destruct (unmatched_line_flushes_and_resets cfg0 provider_down scan_nearest_nodes
              no_nearest_edges one_hop_path flat_geodesic ids2 s_after_a 1 None
              (Some 1%Z) eq_refl eq_refl)
    as (s' & Hstep & Hchunks & Hmerged & Hend & _).
  exists s'. by repeat split.
Defined.

(** C4 as stated fails: the zero-length line of two identical coordinates
    (what [_safe_same_node_linestring] builds) is not treated as a failed
    match; the stitcher starts a chunk with it and records its endpoint. *)
Lemma zero_length_line_is_not_flushed :
  ~ (forall cfg provider nearest_nodes nearest_edges shortest_path geodesic
            seg_region_ids s i matched rid,
       seg_region_ids !! i = Some rid ->
       (matched = None \/ exists l, matched = Some l /\ zero_length l = true) ->
       exists s',
         stitch_step cfg provider nearest_nodes nearest_edges shortest_path geodesic
           seg_region_ids s i matched = Ok s' /\
         merged_coords s' = [] /\ prev_end s' = None /\ prev_rid s' = None).
Proof.
  intros H.
  destruct (H cfg0 provider_down scan_nearest_nodes no_nearest_edges one_hop_path
              flat_geodesic ids2 (stitch_init rc_seoul) 0%nat (Some line_point)
              (Some 1%Z) eq_refl)
    as (s' & Hstep & Hmerged & _).
  - right. exists line_point. by split.
  - vm_compute in Hstep. inversion Hstep; subst. discriminate Hmerged.
Qed.

(** The invariant in the state reached after [line_a]. *)
Lemma merged_coords_nonempty_invariant_witness :
  (2 <= length (merged_coords s_after_a))%nat /\
  last (merged_coords s_after_a) = Some (pt 127.001 37.5).
Proof.
  apply (proj1 (merged_coords_nonempty_invariant cfg0 provider_down scan_nearest_nodes
                  no_nearest_edges one_hop_path flat_geodesic ids2 rc_seoul
                  [Some line_a] s_after_a eq_refl)).
  reflexivity.
Defined.

(** ** visualizer.py: grouping chunks by connectivity *)

(** *** networkx: an undirected graph on the nodes [0 .. n-1] given by its
    edge list, breadth-first traversal, and [connected_components] *)

(** [G.adj[v]] *)
Definition neighbours (edges : list (nat * nat)) (v : nat) : list nat :=
  flat_map
    (fun e => if decide (fst e = v) then [snd e]
              else if decide (snd e = v) then [fst e] else [])
    edges.

(** A neighbour not seen before is marked and queued. *)
Definition visit (acc : list nat * list nat) (w : nat) : list nat * list nat :=
  if decide (w ∈ fst acc) then acc else (fst acc ++ [w], snd acc ++ [w]).

(** The traversal from the queue's nodes; [seen] lists the nodes reached. *)
Fixpoint plain_bfs (fuel : nat) (edges : list (nat * nat)) (seen queue : list nat)
    : list nat :=
  match fuel, queue with
  | S fuel', v :: q =>
      let acc := fold_left visit (neighbours edges v) (seen, q) in
      plain_bfs fuel' edges (fst acc) (snd acc)
  | _, _ => seen
  end.

(** [for v in G: if v not in seen: c = bfs(v); seen.update(c); yield c] *)
Fixpoint components_loop (n : nat) (edges : list (nat * nat)) (nodes seen : list nat)
    : list (list nat) :=
  match nodes with
  | [] => []
  | v :: rest =>
      if decide (v ∈ seen) then components_loop n edges rest seen
      else
        let c := plain_bfs n edges [v] [v] in
        c :: components_loop n edges rest (seen ++ c)
  end.

Definition connected_components (n : nat) (edges : list (nat * nat)) : list (list nat) :=
  components_loop n edges (seq 0 n) [].

Section Components.

Variable n : nat.
Variable edges : list (nat * nat).
Hypothesis edges_in_range :
  forall i j, (i, j) ∈ edges -> (i < n)%nat /\ (j < n)%nat.

(** The undirected adjacency of the graph. *)
Definition linked (v w : nat) : Prop := (v, w) ∈ edges \/ (w, v) ∈ edges.

Lemma linked_sym v w : linked v w -> linked w v.
Proof. unfold linked. tauto. Qed.

Lemma rtc_linked_sym v w : rtc linked v w -> rtc linked w v.
Proof.
  induction 1 as [|x y z Hxy _ IH]; [done|].
  eapply rtc_r; [exact IH|]. by apply linked_sym.
Qed.

Lemma neighbours_spec v w : w ∈ neighbours edges v <-> linked v w.
Proof.
  unfold neighbours, linked. rewrite list_elem_of_In, in_flat_map. split.
  - intros ([a b] & Hin & Hw). apply list_elem_of_In in Hin. simpl in Hw.
    destruct (decide (a = v)) as [->|Ha].
    + destruct Hw as [<-|[]]. by left.
    + destruct (decide (b = v)) as [->|Hb]; [|done].
      destruct Hw as [<-|[]]. by right.
  - intros [H|H].
    + exists (v, w). split; [by apply list_elem_of_In|]. simpl.
      destruct (decide (v = v)); [by left|done].
    + exists (w, v). split; [by apply list_elem_of_In|]. simpl.
      destruct (decide (w = v)) as [->|Hwv]; [by left|].
      destruct (decide (v = v)); [by left|done].
Qed.

Lemma linked_in_range v w : linked v w -> (v < n)%nat /\ (w < n)%nat.
Proof.
  intros [H|H]; apply edges_in_range in H; tauto.
Qed.

(** What one round of visits does to the pair (seen, queue). *)
Lemma visit_fold ws seen q :
  exists new,
    fold_left visit ws (seen, q) = (seen ++ new, q ++ new) /\
    (forall w, w ∈ new -> w ∈ ws /\ w ∉ seen) /\
    (forall w, w ∈ ws -> w ∈ seen ++ new) /\
    (NoDup seen -> NoDup (seen ++ new)).
Proof.
  revert seen q. induction ws as [|w ws IH]; intros seen q.
  - exists []. rewrite !app_nil_r.
    split; [done|]. split; [|split; [|done]]; intros x Hx; by apply elem_of_nil in Hx.
  - cbn [fold_left]. unfold visit at 2. cbn [fst snd].
    destruct (decide (w ∈ seen)) as [Hin|Hnin].
    + destruct (IH seen q) as (new & Hfold & Hnew & Hall & Hnd).
      exists new. split; [done|]. split; [|split; [|done]].
      * intros x Hx. destruct (Hnew x Hx). split; [by right|done].
      * intros x Hx. apply elem_of_cons in Hx as [->|Hx]; [|by apply Hall].
        apply elem_of_app. by left.
    + destruct (IH (seen ++ [w]) (q ++ [w])) as (new & Hfold & Hnew & Hall & Hnd).
      exists (w :: new).
      rewrite Hfold, <- !app_assoc. split; [done|]. split; [|split].
      * intros x Hx. apply elem_of_cons in Hx as [->|Hx].
        { split; [by left|done]. }
        destruct (Hnew x Hx) as [H1 H2]. split; [by right|].
        intros Hs. apply H2. apply elem_of_app. by left.
      * intros x Hx. apply elem_of_cons in Hx as [->|Hx].
        { apply elem_of_app. right. by left. }
        specialize (Hall x Hx). by rewrite <- app_assoc in Hall.
      * intros Hs. rewrite <- app_assoc in Hnd. apply Hnd.
        apply NoDup_app. split; [done|]. split.
        { intros x Hx Hx'. apply list_elem_of_singleton in Hx'. by subst. }
        apply NoDup_singleton.
Qed.

(** The invariant of the traversal from [src]. *)
Record bfs_inv (src : nat) (seen queue : list nat) : Prop := {
  inv_nodup : NoDup seen;
  inv_range : forall u, u ∈ seen -> (u < n)%nat;
  inv_queue : forall u, u ∈ queue -> u ∈ seen;
  inv_closed : forall u w, u ∈ seen -> u ∉ queue -> linked u w -> w ∈ seen;
  inv_reach : forall u, u ∈ seen -> rtc linked src u;
  inv_src : src ∈ seen
}.

Lemma seen_bounded src seen queue : bfs_inv src seen queue -> (length seen <= n)%nat.
Proof.
  intros H.
  transitivity (length (seq 0 n)); [|by rewrite length_seq].
  apply submseteq_length, NoDup_submseteq; [apply (inv_nodup _ _ _ H)|].
  intros u Hu. apply elem_of_seq. apply (inv_range _ _ _ H) in Hu. lia.
Qed.

Lemma bfs_inv_step src seen v q :
  bfs_inv src seen (v :: q) ->
  exists new,
    fold_left visit (neighbours edges v) (seen, q) = (seen ++ new, q ++ new) /\
    bfs_inv src (seen ++ new) (q ++ new).
Proof.
  intros H.
  destruct (visit_fold (neighbours edges v) seen q) as (new & Hfold & Hnew & Hall & Hnd).
  exists new. split; [done|].
  assert (Hv : v ∈ seen) by (apply (inv_queue _ _ _ H); by left).
  split.
  - apply Hnd, (inv_nodup _ _ _ H).
  - intros u Hu. apply elem_of_app in Hu as [Hu|Hu]; [by apply (inv_range _ _ _ H)|].
    apply Hnew in Hu as [Hu _]. apply neighbours_spec, linked_in_range in Hu. tauto.
  - intros u Hu. apply elem_of_app in Hu as [Hu|Hu]; apply elem_of_app.
    + left. apply (inv_queue _ _ _ H). by right.
    + by right.
  - intros u w Hu Hq Hl.
    assert (Hq1 : u ∉ q) by (intros Hq1; apply Hq, elem_of_app; by left).
    assert (Hq2 : u ∉ new) by (intros Hq2; apply Hq, elem_of_app; by right).
    apply elem_of_app in Hu as [Hu|Hu]; [|done].
    destruct (decide (u = v)) as [->|Huv].
    + apply Hall, neighbours_spec, Hl.
    + apply elem_of_app. left. apply (inv_closed _ _ _ H u w); [done| |done].
      intros Hc. apply elem_of_cons in Hc as [Hc|Hc]; done.
  - intros u Hu. apply elem_of_app in Hu as [Hu|Hu]; [by apply (inv_reach _ _ _ H)|].
    apply Hnew in Hu as [Hu _]. apply neighbours_spec in Hu.
    eapply rtc_r; [|exact Hu]. by apply (inv_reach _ _ _ H).
  - apply elem_of_app. left. apply (inv_src _ _ _ H).
Qed.

Lemma closed_contains_component src (l : list nat) :
  src ∈ l ->
  (forall u w, u ∈ l -> linked u w -> w ∈ l) ->
  forall u, rtc linked src u -> u ∈ l.
Proof.
  intros Hsrc Hclosed u Hr.
  revert u Hr. apply (rtc_ind_r (R := linked) (fun u => u ∈ l)); [done|].
  intros y z _ Hyz Hy. by apply (Hclosed y z).
Qed.

Lemma bfs_inv_done src seen :
  bfs_inv src seen [] ->
  forall u, u ∈ seen <-> rtc linked src u.
Proof.
  intros Hinv u. split; [apply (inv_reach _ _ _ Hinv)|].
  apply closed_contains_component; [apply (inv_src _ _ _ Hinv)|].
  intros x w Hx Hl. apply (inv_closed _ _ _ Hinv x w); [done| |done].
  apply not_elem_of_nil.
Qed.

Lemma plain_bfs_spec fuel src seen queue :
  bfs_inv src seen queue ->
  (length queue + n <= fuel + length seen)%nat ->
  forall u, u ∈ plain_bfs fuel edges seen queue <-> rtc linked src u.
Proof.
  revert seen queue. induction fuel as [|fuel IH]; intros seen queue Hinv Hfuel.
  - pose proof (seen_bounded _ _ _ Hinv) as Hb.
    destruct queue as [|v q]; [|simpl in Hfuel; lia].
    cbn [plain_bfs]. by apply bfs_inv_done.
  - destruct queue as [|v q].
    + cbn [plain_bfs]. by apply bfs_inv_done.
    + cbn [plain_bfs].
      destruct (bfs_inv_step _ _ _ _ Hinv) as (new & -> & Hinv').
      cbn [fst snd]. apply IH; [done|].
      rewrite !length_app. simpl in Hfuel. lia.
Qed.

Lemma bfs_inv_start src : (src < n)%nat -> bfs_inv src [src] [src].
Proof.
  intros Hsrc. split.
  - apply NoDup_singleton.
  - intros u Hu. apply list_elem_of_singleton in Hu. by subst.
  - done.
  - intros u w Hu Hq. done.
  - intros u Hu. apply list_elem_of_singleton in Hu. by subst.
  - by left.
Qed.

(** The traversal from [src] returns the connected component of [src]. *)
Lemma plain_bfs_component src :
  (src < n)%nat ->
  forall u, u ∈ plain_bfs n edges [src] [src] <-> rtc linked src u.
Proof.
  intros Hsrc. apply plain_bfs_spec; [by apply bfs_inv_start|]. simpl. lia.
Qed.

Definition closed (l : list nat) : Prop :=
  forall u w, u ∈ l -> linked u w -> w ∈ l.

Lemma closed_app l1 l2 : closed l1 -> closed l2 -> closed (l1 ++ l2).
Proof.
  intros H1 H2 u w Hu Hl. apply elem_of_app in Hu as [Hu|Hu]; apply elem_of_app.
  - left. by apply (H1 u w).
  - right. by apply (H2 u w).
Qed.

Lemma component_closed src : (src < n)%nat -> closed (plain_bfs n edges [src] [src]).
Proof.
  intros Hsrc u w Hu Hl. apply plain_bfs_component; [done|].
  apply plain_bfs_component in Hu; [|done]. by eapply rtc_r.
Qed.

Lemma components_loop_member nodes seen c :
  c ∈ components_loop n edges nodes seen ->
  exists v, v ∈ nodes /\ (v ∉ seen) /\ c = plain_bfs n edges [v] [v].
Proof.
  revert seen. induction nodes as [|x rest IH]; intros seen Hc; cbn in Hc.
  { by apply elem_of_nil in Hc. }
  destruct (decide (x ∈ seen)) as [Hx|Hx].
  - destruct (IH seen Hc) as (v & Hv & Hs & ->). exists v. by split; [right|].
  - apply elem_of_cons in Hc as [->|Hc].
    + exists x. by split; [left|].
    + destruct (IH _ Hc) as (v & Hv & Hs & ->). exists v.
      split; [by right|]. split; [|done].
      intros Hin. apply Hs, elem_of_app. by left.
Qed.

Lemma components_loop_cover nodes seen v :
  (forall u, u ∈ nodes -> (u < n)%nat) ->
  v ∈ nodes ->
  v ∈ seen \/ exists c, c ∈ components_loop n edges nodes seen /\ v ∈ c.
Proof.
  revert seen. induction nodes as [|x rest IH]; intros seen Hrange Hv.
  { by apply elem_of_nil in Hv. }
  assert (Hrest : forall u, u ∈ rest -> (u < n)%nat).
  { intros u Hu. apply Hrange. by right. }
  cbn [components_loop].
  destruct (decide (x ∈ seen)) as [Hx|Hx].
  - apply elem_of_cons in Hv as [->|Hv]; [by left|]. by apply IH.
  - apply elem_of_cons in Hv as [->|Hv].
    + right. eexists. split; [by left|].
      apply plain_bfs_component; [|done]. apply Hrange. by left.
    + destruct (IH (seen ++ plain_bfs n edges [x] [x]) Hrest Hv) as [Hin|(c & Hc & Hvc)].
      * apply elem_of_app in Hin as [Hin|Hin]; [by left|].
        right. eexists. split; [by left|done].
      * right. exists c. split; [by right|done].
Qed.

Lemma components_loop_fresh nodes seen c i :
  (forall u, u ∈ nodes -> (u < n)%nat) ->
  closed seen ->
  c ∈ components_loop n edges nodes seen ->
  i ∈ c -> i ∉ seen.
Proof.
  intros Hrange Hclosed Hc Hi Hin.
  destruct (components_loop_member nodes seen c Hc) as (v & Hv & Hs & ->).
  apply plain_bfs_component in Hi; [|by apply Hrange].
  apply Hs. apply (closed_contains_component i seen Hin Hclosed).
  by apply rtc_linked_sym.
Qed.

Lemma components_loop_disjoint nodes seen k1 k2 g1 g2 i :
  (forall u, u ∈ nodes -> (u < n)%nat) ->
  closed seen ->
  components_loop n edges nodes seen !! k1 = Some g1 ->
  components_loop n edges nodes seen !! k2 = Some g2 ->
  i ∈ g1 -> i ∈ g2 -> k1 = k2.
Proof.
  revert seen k1 k2. induction nodes as [|x rest IH]; intros seen k1 k2 Hrange Hclosed.
  { cbn. by rewrite lookup_nil. }
  assert (Hrest : forall u, u ∈ rest -> (u < n)%nat).
  { intros u Hu. apply Hrange. by right. }
  cbn [components_loop].
  destruct (decide (x ∈ seen)) as [Hx|Hx]; [by apply IH|].
  assert (Hx' : (x < n)%nat) by (apply Hrange; by left).
  assert (Hcl : closed (seen ++ plain_bfs n edges [x] [x])).
  { apply closed_app; [done|by apply component_closed]. }
  assert (Hfresh : forall k g, components_loop n edges rest
             (seen ++ plain_bfs n edges [x] [x]) !! k = Some g ->
           i ∈ g -> i ∉ plain_bfs n edges [x] [x]).
  { intros k g Hk Hg Hin.
    apply (components_loop_fresh rest _ g i Hrest Hcl); [|done|].
    - by eapply list_elem_of_lookup_2.
    - apply elem_of_app. by right. }
  destruct k1 as [|k1], k2 as [|k2]; cbn; intros H1 H2 Hi1 Hi2.
  - done.
  - inversion H1; subst. by destruct (Hfresh k2 g2 H2 Hi2).
  - inversion H2; subst. by destruct (Hfresh k1 g1 H1 Hi1).
  - f_equal. by eapply (IH _ k1 k2 Hrest Hcl).
Qed.

(** [connected_components] returns the classes of the reflexive and
    transitive closure of the adjacency: every node is in a class, the
    members of a class are exactly the nodes connected to any of its
    members, and no node is in two classes. *)
Lemma connected_components_spec :
  (forall i, (i < n)%nat -> exists g, g ∈ connected_components n edges /\ i ∈ g) /\
  (forall g i j, g ∈ connected_components n edges -> i ∈ g ->
     (j ∈ g <-> rtc linked i j)) /\
  (forall k1 k2 g1 g2 i,
     connected_components n edges !! k1 = Some g1 ->
     connected_components n edges !! k2 = Some g2 ->
     i ∈ g1 -> i ∈ g2 -> k1 = k2).
Proof.
  assert (Hrange : forall u, u ∈ seq 0 n -> (u < n)%nat).
  { intros u Hu. apply elem_of_seq in Hu. lia. }
  unfold connected_components. split; [|split].
  - intros i Hi.
    destruct (components_loop_cover (seq 0 n) [] i Hrange) as [Hin|H]; [|by apply elem_of_nil in Hin|done].
    apply elem_of_seq. lia.
  - intros g i j Hg Hi.
    destruct (components_loop_member _ _ _ Hg) as (v & Hv & _ & ->).
    apply Hrange in Hv.
    apply plain_bfs_component in Hi; [|done].
    rewrite plain_bfs_component by done. split; intros Hr.
    + etrans; [by apply rtc_linked_sym|done].
    + by etrans.
  - intros k1 k2 g1 g2 i. apply components_loop_disjoint; [done|].
    intros u w Hu. by apply elem_of_nil in Hu.
Qed.

End Components.

(** *** [group_lines_by_connectivity] *)

Section Visualizer.

(** shapely's [a.distance(b)]: the minimum separation of two geometries. *)
Variable distance : line -> line -> Q.

(** [lines[i].distance(lines[j]) < tol_deg] *)
Definition touching (lines : list line) (tol_deg : Q) (i j : nat) : bool :=
  match lines !! i, lines !! j with
  | Some a, Some b => Qlt_bool (distance a b) tol_deg
  | _, _ => false
  end.

(** The edges added by the double loop
    [for i in range(len(lines)): for j in range(i + 1, len(lines))]. *)
Definition close_pairs (lines : list line) (tol_deg : Q) : list (nat * nat) :=
  let n := length lines in
  flat_map
    (fun i =>
       flat_map (fun j => if touching lines tol_deg i j then [(i, j)] else [])
                (seq (S i) (n - S i)))
    (seq 0 n).

Definition group_indices (lines : list line) (tol_deg : Q) : list (list nat) :=
  connected_components (length lines) (close_pairs lines tol_deg).

Definition group_lines_by_connectivity (lines : list line) (tol_deg : Q)
    : list (list line) :=
  match lines with
  | [] => []
  | _ => map (fun comp => omap (fun i => lines !! i) comp) (group_indices lines tol_deg)
  end.

(** The adjacency the specification names: two chunks (at different
    positions) whose separation, as the code measures it from the earlier
    to the later one, is below the tolerance. *)
Definition near (lines : list line) (tol_deg : Q) (i j : nat) : Prop :=
  (i < j)%nat /\
  exists a b, lines !! i = Some a /\ lines !! j = Some b /\ (distance a b < tol_deg)%Q.

Definition adjacent (lines : list line) (tol_deg : Q) (i j : nat) : Prop :=
  near lines tol_deg i j \/ near lines tol_deg j i.

Lemma Qlt_bool_iff (x y : Q) : Qlt_bool x y = true <-> (x < y)%Q.
Proof.
  unfold Qlt_bool. split.
  - intros H. destruct (Qle_bool y x) eqn:E; [done|].
    destruct (Qlt_le_dec x y) as [Hlt|Hle]; [done|].
    apply Qle_bool_iff in Hle. congruence.
  - intros H. destruct (Qle_bool y x) eqn:E; [|done].
    apply Qle_bool_iff in E. lra.
Qed.

Lemma close_pairs_spec lines tol_deg i j :
  (i, j) ∈ close_pairs lines tol_deg <-> near lines tol_deg i j.
Proof.
  unfold close_pairs, near, touching.
  rewrite list_elem_of_In, in_flat_map. split.
  - intros (i' & Hi' & Hin). apply in_flat_map in Hin as (j' & Hj' & Hin).
    apply in_seq in Hi', Hj'.
    destruct (lines !! i') as [a|] eqn:Ha; [|done].
    destruct (lines !! j') as [b|] eqn:Hb; [|done].
    destruct (Qlt_bool (distance a b) tol_deg) eqn:Hd; [|done].
    destruct Hin as [Hin|[]]. inversion Hin; subst.
    split; [lia|]. exists a, b. repeat split; try done. by apply Qlt_bool_iff.
  - intros (Hlt & a & b & Ha & Hb & Hd).
    pose proof (lookup_lt_Some _ _ _ Hb) as Hj.
    exists i. split; [apply in_seq; lia|].
    apply in_flat_map. exists j. split; [apply in_seq; lia|].
    rewrite Ha, Hb. apply Qlt_bool_iff in Hd. rewrite Hd. by left.
Qed.

Lemma close_pairs_in_range lines tol_deg i j :
  (i, j) ∈ close_pairs lines tol_deg ->
  (i < length lines)%nat /\ (j < length lines)%nat.
Proof.
  intros H. apply close_pairs_spec in H as (Hlt & a & b & Ha & Hb & _).
  apply lookup_lt_Some in Ha, Hb. done.
Qed.

Lemma linked_adjacent lines tol_deg i j :
  linked (close_pairs lines tol_deg) i j <-> adjacent lines tol_deg i j.
Proof. unfold linked, adjacent. by rewrite !close_pairs_spec. Qed.

Lemma rtc_linked_adjacent lines tol_deg i j :
  rtc (linked (close_pairs lines tol_deg)) i j <-> rtc (adjacent lines tol_deg) i j.
Proof.
  split; induction 1 as [|x y z Hxy _ IH]; try done;
    (eapply rtc_l; [|exact IH]); by apply linked_adjacent.
Qed.


End Visualizer.

(** A stand-in for shapely's distance on concrete examples: the flat
    distance between the first coordinates of two lines. *)
Definition first_point_distance (l1 l2 : line) : Q :=
  match l1, l2 with
  | a :: _, b :: _ => flat_geodesic a b
  | _, _ => 0%Q
  end.

Example three_chunks_in_a_chain_share_a_group :
  group_indices first_point_distance
    [[pt 0 0; pt 0 1]; [pt 0 0.000001; pt 1 1]; [pt 0 0.000002; pt 2 2]; [pt 5 5; pt 6 6]]
    0.2%Q = [[0; 1; 2]; [3]]%nat.
Proof. by vm_compute. Qed.

(** ** utils.py: resampling the islands *)

Section Utils.

(** [geodesic(p1, p2).meters] on [(lat, lon)] pairs. *)
Variable geodesic : coord -> coord -> Q.

(** [p1 + (p2 - p1) * ratio], componentwise. *)
Definition lerp (p1 p2 : coord) (ratio : Q) : coord :=
  ((fst p1 + (fst p2 - fst p1) * ratio)%Q, (snd p1 + (snd p2 - snd p1) * ratio)%Q).

(** The [while] loop over one segment [p1 -> p2] of an island; [None] when
    the fuel does not suffice to reach the loop's exit. *)
Fixpoint emit_samples (fuel : nat) (step_m seg_dist : Q) (p1 p2 : coord)
    (island_points : list coord) (dist_since current_seg_traveled : Q)
    : option (list coord * Q * Q) :=
  match fuel with
  | O => None
  | S fuel' =>
      if Qle_bool step_m (dist_since + (seg_dist - current_seg_traveled)) then
        let need := (step_m - dist_since)%Q in
        let ratio := if Qlt_bool 0 seg_dist
                     then ((current_seg_traveled + need) / seg_dist)%Q else 0%Q in
        emit_samples fuel' step_m seg_dist p1 p2
          (island_points ++ [lerp p1 p2 ratio]) 0 (current_seg_traveled + need)
      else Some (island_points, dist_since, current_seg_traveled)
  end.

(** The loop [for i in range(len(segment) - 1)] over one island. *)
Fixpoint walk_island (fuel : nat) (step_m : Q) (segment : list coord)
    (island_points : list coord) (dist_since : Q) : option (list coord) :=
  match segment with
  | p1 :: ((p2 :: _) as rest) =>
      let seg_dist := geodesic p1 p2 in
      match emit_samples fuel step_m seg_dist p1 p2 island_points dist_since 0 with
      | None => None
      | Some (pts, ds, traveled) =>
          walk_island fuel step_m rest pts (ds + (seg_dist - traveled))
      end
  | _ => Some island_points
  end.

(** The loop over the islands, [final_points] being extended by each. *)
Fixpoint resample_loop (fuel : nat) (step_m : Q) (lines_coords : list (list coord))
    (final_points : list coord) : option (list coord) :=
  match lines_coords with
  | [] => Some final_points
  | segment :: rest =>
      match segment with
      | p0 :: _ :: _ =>
          match walk_island fuel step_m segment [p0] 0 with
          | None => None
          | Some island_points =>
              resample_loop fuel step_m rest (final_points ++ island_points)
          end
      | _ => resample_loop fuel step_m rest final_points
      end
  end.

Definition interpolate_continuous_coords_global (fuel : nat)
    (lines_coords : list (list coord)) (step_m : Q) : option (list coord) :=
  resample_loop fuel step_m lines_coords [].

(** [pt] was interpolated between two consecutive points of [island]. *)
Definition on_segment_of (island : list coord) (pt : coord) : Prop :=
  exists i p1 p2 ratio,
    island !! i = Some p1 /\ island !! S i = Some p2 /\ pt = lerp p1 p2 ratio.

(** As [on_segment_of], and not beyond the segment's ends. *)
Definition within_segment_of (island : list coord) (pt : coord) : Prop :=
  exists i p1 p2 ratio,
    island !! i = Some p1 /\ island !! S i = Some p2 /\
    (0 <= ratio <= 1)%Q /\ pt = lerp p1 p2 ratio.

Lemma resample_loop_acc fuel step_m lines_coords final_points :
  resample_loop fuel step_m lines_coords final_points =
  (pts ← resample_loop fuel step_m lines_coords []; Some (final_points ++ pts)).
Proof.
  revert final_points.
  induction lines_coords as [|segment rest IH]; intros final_points.
  - cbn. by rewrite app_nil_r.
  - cbn [resample_loop].
    destruct segment as [|p0 [|p1 tl]]; try apply IH.
    destruct (walk_island fuel step_m (p0 :: p1 :: tl) [p0] 0) as [pts|]; [|done].
    rewrite (IH (final_points ++ pts)), (IH ([] ++ pts)).
    destruct (resample_loop fuel step_m rest []) as [more|]; cbn; [|done].
    by rewrite app_assoc.
Qed.

Lemma resample_loop_app fuel step_m l1 l2 :
  resample_loop fuel step_m (l1 ++ l2) [] =
  (pts1 ← resample_loop fuel step_m l1 [];
   pts2 ← resample_loop fuel step_m l2 [];
   Some (pts1 ++ pts2)).
Proof.
  induction l1 as [|segment rest IH].
  - cbn. by destruct (resample_loop fuel step_m l2 []).
  - cbn [app resample_loop].
    destruct segment as [|p0 [|p1 tl]]; try apply IH.
    destruct (walk_island fuel step_m (p0 :: p1 :: tl) [p0] 0) as [pts|]; [|done].
    rewrite (resample_loop_acc _ _ (rest ++ l2)), (resample_loop_acc _ _ rest), IH.
    destruct (resample_loop fuel step_m rest []) as [pts1|]; cbn; [|done].
    destruct (resample_loop fuel step_m l2 []) as [pts2|]; cbn; [|done].
    by rewrite app_assoc.
Qed.

(** *** The points emitted for one island *)

Lemma emit_samples_points fuel step_m seg_dist p1 p2 pts ds tr pts' ds' tr' :
  emit_samples fuel step_m seg_dist p1 p2 pts ds tr = Some (pts', ds', tr') ->
  exists new, pts' = pts ++ new /\
    forall pt, pt ∈ new -> exists ratio, pt = lerp p1 p2 ratio.
Proof.
  revert pts ds tr. induction fuel as [|fuel IH]; intros pts ds tr H; [done|].
  cbn [emit_samples] in H.
  destruct (Qle_bool step_m (ds + (seg_dist - tr))).
  - apply IH in H as (new & -> & Hnew).
    eexists (_ :: new). split; [by rewrite <- app_assoc|].
    intros pt Hpt. apply elem_of_cons in Hpt as [->|Hpt]; [by eexists|by apply Hnew].
  - inversion H; subst. exists []. split; [by rewrite app_nil_r|].
    intros pt Hpt. by apply elem_of_nil in Hpt.
Qed.

Lemma on_segment_of_cons p island pt :
  on_segment_of island pt -> on_segment_of (p :: island) pt.
Proof.
  intros (i & p1 & p2 & r & H1 & H2 & ->). by exists (S i), p1, p2, r.
Qed.

Lemma walk_island_points fuel step_m segment pts ds pts' :
  walk_island fuel step_m segment pts ds = Some pts' ->
  exists new, pts' = pts ++ new /\
    forall pt, pt ∈ new -> on_segment_of segment pt.
Proof.
  revert pts ds. induction segment as [|p1 rest IH]; intros pts ds H.
  { inversion H; subst. exists []. split; [by rewrite app_nil_r|].
    intros pt Hpt. by apply elem_of_nil in Hpt. }
  destruct rest as [|p2 rest'].
  { inversion H; subst. exists []. split; [by rewrite app_nil_r|].
    intros pt Hpt. by apply elem_of_nil in Hpt. }
  cbn [walk_island] in H.
  destruct (emit_samples fuel step_m (geodesic p1 p2) p1 p2 pts ds 0)
    as [[[pts1 ds1] tr1]|] eqn:He; [|done].
  apply emit_samples_points in He as (new1 & -> & Hnew1).
  apply IH in H as (new2 & -> & Hnew2).
  exists (new1 ++ new2). split; [by rewrite app_assoc|].
  intros pt Hpt. apply elem_of_app in Hpt as [Hpt|Hpt].
  - destruct (Hnew1 pt Hpt) as (r & ->). by exists 0%nat, p1, p2, r.
  - by apply on_segment_of_cons, Hnew2.
Qed.

Lemma single_island_points fuel step_m (island : list coord) part :
  interpolate_continuous_coords_global fuel [island] step_m = Some part ->
  if (length island <? 2)%nat then part = []
  else exists p0 new,
      head island = Some p0 /\ part = p0 :: new /\
      forall pt, pt ∈ new -> on_segment_of island pt.
Proof.
  unfold interpolate_continuous_coords_global. cbn [resample_loop].
  destruct island as [|p0 [|p1 tl]]; try (intros H; by inversion H).
  destruct (walk_island fuel step_m (p0 :: p1 :: tl) [p0] 0) as [pts|] eqn:Hw; [|done].
  intros H; inversion H; subst; clear H.
  apply walk_island_points in Hw as (new & -> & Hnew).
  cbn. by exists p0, new.
Qed.

(** *** Termination *)

Lemma walk_island_step fuel step_m p1 p2 rest pts ds :
  walk_island fuel step_m (p1 :: p2 :: rest) pts ds =
  match emit_samples fuel step_m (geodesic p1 p2) p1 p2 pts ds 0 with
  | None => None
  | Some (pts', ds', traveled) =>
      walk_island fuel step_m (p2 :: rest) pts' (ds' + (geodesic p1 p2 - traveled))
  end.
Proof. reflexivity. Qed.

Lemma emit_samples_mono fuel fuel' step_m seg_dist p1 p2 pts ds tr r :
  (fuel <= fuel')%nat ->
  emit_samples fuel step_m seg_dist p1 p2 pts ds tr = Some r ->
  emit_samples fuel' step_m seg_dist p1 p2 pts ds tr = Some r.
Proof.
  revert fuel' pts ds tr. induction fuel as [|fuel IH]; intros fuel' pts ds tr Hle H;
    [done|].
  destruct fuel' as [|fuel']; [lia|].
  cbn [emit_samples] in *.
  destruct (Qle_bool step_m (ds + (seg_dist - tr))); [|done].
  apply IH; [lia|done].
Qed.

Lemma walk_island_mono fuel fuel' step_m segment pts ds r :
  (fuel <= fuel')%nat ->
  walk_island fuel step_m segment pts ds = Some r ->
  walk_island fuel' step_m segment pts ds = Some r.
Proof.
  intros Hle. revert pts ds.
  induction segment as [|p1 rest IH]; intros pts ds H; [done|].
  destruct rest as [|p2 rest']; [done|].
  cbn [walk_island] in *.
  destruct (emit_samples fuel step_m (geodesic p1 p2) p1 p2 pts ds 0)
    as [[[pts1 ds1] tr1]|] eqn:He; [|done].
  rewrite (emit_samples_mono _ _ _ _ _ _ _ _ _ _ Hle He). by apply IH.
Qed.

Lemma resample_loop_mono fuel fuel' step_m lines_coords final_points r :
  (fuel <= fuel')%nat ->
  resample_loop fuel step_m lines_coords final_points = Some r ->
  resample_loop fuel' step_m lines_coords final_points = Some r.
Proof.
  intros Hle. revert final_points.
  induction lines_coords as [|segment rest IH]; intros final_points H; [done|].
  cbn [resample_loop] in *.
  destruct segment as [|p0 [|p1 tl]]; try by apply IH.
  destruct (walk_island fuel step_m (p0 :: p1 :: tl) [p0] 0) as [pts|] eqn:Hw; [|done].
  rewrite (walk_island_mono _ _ _ _ _ _ _ Hle Hw). by apply IH.
Qed.

Lemma inject_nat_succ (k : nat) :
  inject_Z (Z.of_nat (S k)) == inject_Z (Z.of_nat k) + 1.
Proof. by rewrite Nat2Z.inj_succ, <- Z.add_1_r, inject_Z_plus. Qed.

Lemma emit_samples_terminates fuel step_m seg_dist p1 p2 pts ds tr :
  (0 < step_m)%Q ->
  (ds + (seg_dist - tr) < step_m * inject_Z (Z.of_nat fuel))%Q ->
  exists r, emit_samples (S fuel) step_m seg_dist p1 p2 pts ds tr = Some r.
Proof.
  intros Hstep. revert pts ds tr.
  induction fuel as [|fuel IH]; intros pts ds tr Hq; cbn [emit_samples].
  - rewrite Qle_bool_false; [by eauto|].
    change (inject_Z (Z.of_nat 0)) with 0%Q in Hq. lra.
  - destruct (Qle_bool step_m (ds + (seg_dist - tr))) eqn:Hc; [|by eauto].
    apply IH. rewrite inject_nat_succ in Hq. lra.
Qed.

(** For a positive step every rational is below some multiple of it. *)
Lemma multiple_above (step_m q : Q) :
  (0 < step_m)%Q -> exists k : nat, (q < step_m * inject_Z (Z.of_nat k))%Q.
Proof.
  intros Hstep.
  exists (Z.to_nat (Qfloor (q / step_m) + 1)).
  assert (H1 : (q / step_m < inject_Z (Qfloor (q / step_m) + 1))%Q) by apply Qlt_floor.
  assert (H2 : (inject_Z (Qfloor (q / step_m) + 1)
                <= inject_Z (Z.of_nat (Z.to_nat (Qfloor (q / step_m) + 1))))%Q).
  { rewrite <- Zle_Qle. lia. }
  assert (H3 : (q / step_m < inject_Z (Z.of_nat (Z.to_nat (Qfloor (q / step_m) + 1))))%Q)
    by lra.
  apply (Qmult_lt_r _ _ step_m Hstep) in H3.
  assert (H4 : (q / step_m * step_m == q)%Q) by (field; lra).
  rewrite H4 in H3. lra.
Qed.

Lemma emit_samples_total step_m seg_dist p1 p2 pts ds tr :
  (0 < step_m)%Q ->
  exists fuel r, emit_samples fuel step_m seg_dist p1 p2 pts ds tr = Some r.
Proof.
  intros Hstep.
  destruct (multiple_above step_m (ds + (seg_dist - tr)) Hstep) as [k Hk].
  exists (S k). by apply emit_samples_terminates.
Qed.

Lemma walk_island_total step_m segment pts ds :
  (0 < step_m)%Q ->
  exists fuel r, walk_island fuel step_m segment pts ds = Some r.
Proof.
  intros Hstep. revert pts ds.
  induction segment as [|p1 rest IH]; intros pts ds; [by exists 0%nat, pts|].
  destruct rest as [|p2 rest']; [by exists 0%nat, pts|].
  destruct (emit_samples_total step_m (geodesic p1 p2) p1 p2 pts ds 0 Hstep)
    as (f1 & [[pts1 ds1] tr1] & He).
  destruct (IH pts1 (ds1 + (geodesic p1 p2 - tr1))%Q) as (f2 & r & Hw).
  exists (f1 `max` f2)%nat, r. rewrite walk_island_step.
  rewrite (emit_samples_mono f1 _ _ _ _ _ _ _ _ _ (Nat.le_max_l f1 f2) He).
  by apply (walk_island_mono f2 _ _ _ _ _ _ (Nat.le_max_r f1 f2)).
Qed.

Lemma resample_loop_total step_m lines_coords final_points :
  (0 < step_m)%Q ->
  exists fuel r, resample_loop fuel step_m lines_coords final_points = Some r.
Proof.
  intros Hstep. revert final_points.
  induction lines_coords as [|segment rest IH]; intros final_points;
    [by exists 0%nat, final_points|].
  cbn [resample_loop].
  destruct segment as [|p0 [|p1 tl]]; try apply IH.
  destruct (walk_island_total step_m (p0 :: p1 :: tl) [p0] 0 Hstep) as (f1 & pts & Hw).
  destruct (IH (final_points ++ pts)) as (f2 & r & Hr).
  exists (f1 `max` f2)%nat, r.
  rewrite (walk_island_mono f1 _ _ _ _ _ _ (Nat.le_max_l f1 f2) Hw).
  by apply (resample_loop_mono f2 _ _ _ _ _ (Nat.le_max_r f1 f2)).
Qed.

(** *** Interpolated points stay within their segment *)

Lemma emit_samples_within fuel step_m seg_dist p1 p2 pts ds tr pts' ds' tr' :
  (0 < step_m)%Q ->
  (0 <= ds)%Q -> (ds < step_m)%Q -> (0 <= tr)%Q -> (tr <= seg_dist)%Q ->
  emit_samples fuel step_m seg_dist p1 p2 pts ds tr = Some (pts', ds', tr') ->
  (exists new, pts' = pts ++ new /\
     forall pt, pt ∈ new -> exists ratio, (0 <= ratio <= 1)%Q /\ pt = lerp p1 p2 ratio) /\
  (0 <= ds')%Q /\ (tr' <= seg_dist)%Q /\ (ds' + (seg_dist - tr') < step_m)%Q.
Proof.
  intros Hstep. revert pts ds tr.
  induction fuel as [|fuel IH]; intros pts ds tr Hds0 Hds Htr0 Htr H; [done|].
  cbn [emit_samples] in H.
  destruct (Qle_bool step_m (ds + (seg_dist - tr))) eqn:Hc.
  - apply Qle_bool_iff in Hc.
    assert (Hpos : (0 < seg_dist)%Q) by lra.
    rewrite (Qlt_bool_true _ _ Hpos) in H.
    apply IH in H; [|lra..].
    destruct H as ((new & -> & Hnew) & Hrest).
    split; [|done].
    eexists (_ :: new). split; [by rewrite <- app_assoc|].
    intros pt Hpt. apply elem_of_cons in Hpt as [->|Hpt]; [|by apply Hnew].
    eexists. split; [|reflexivity]. split.
    + apply Qle_shift_div_l; [done|]. lra.
    + apply Qle_shift_div_r; [done|]. lra.
  - inversion H; subst. split.
    + exists []. split; [by rewrite app_nil_r|].
      intros pt Hpt. by apply elem_of_nil in Hpt.
    + split; [done|]. split; [done|].
      apply Qnot_le_lt. intros Hle. apply Qle_bool_iff in Hle. congruence.
Qed.

Lemma within_segment_of_cons p island pt :
  within_segment_of island pt -> within_segment_of (p :: island) pt.
Proof.
  intros (i & p1 & p2 & r & H1 & H2 & Hr & ->). by exists (S i), p1, p2, r.
Qed.

Lemma walk_island_within fuel step_m segment pts ds pts' :
  (0 < step_m)%Q ->
  (forall a b, (0 <= geodesic a b)%Q) ->
  (0 <= ds)%Q -> (ds < step_m)%Q ->
  walk_island fuel step_m segment pts ds = Some pts' ->
  exists new, pts' = pts ++ new /\
    forall pt, pt ∈ new -> within_segment_of segment pt.
Proof.
  intros Hstep Hgeo. revert pts ds.
  induction segment as [|p1 rest IH]; intros pts ds Hds0 Hds H.
  { inversion H; subst. exists []. split; [by rewrite app_nil_r|].
    intros pt Hpt. by apply elem_of_nil in Hpt. }
  destruct rest as [|p2 rest'].
  { inversion H; subst. exists []. split; [by rewrite app_nil_r|].
    intros pt Hpt. by apply elem_of_nil in Hpt. }
  rewrite walk_island_step in H.
  destruct (emit_samples fuel step_m (geodesic p1 p2) p1 p2 pts ds 0)
    as [[[pts1 ds1] tr1]|] eqn:He; [|done].
  apply emit_samples_within in He; [|done|done|done|lra|apply Hgeo].
  destruct He as ((new1 & -> & Hnew1) & Hds1 & Htr1 & Hlt).
  apply IH in H; [|lra..].
  destruct H as (new2 & -> & Hnew2).
  exists (new1 ++ new2). split; [by rewrite app_assoc|].
  intros pt Hpt. apply elem_of_app in Hpt as [Hpt|Hpt].
  - destruct (Hnew1 pt Hpt) as (r & Hr & ->). by exists 0%nat, p1, p2, r.
  - by apply within_segment_of_cons, Hnew2.
Qed.

(** C8: the resampler handles each island on its own.  The result for a
    list of islands is the concatenation of the results for its parts, so
    what is emitted for an island is what the function emits for that
    island alone, with the running distance starting at zero.  An island
    of fewer than two points contributes nothing; any other contributes
    its start point first, followed by points interpolated between
    consecutive points of that same island.  For a positive step the
    function returns, and (the geodesic distance being never negative)
    every interpolated point lies within its segment. *)
Theorem resampling_is_per_island (step_m : Q) :
  (forall fuel l1 l2,
     interpolate_continuous_coords_global fuel (l1 ++ l2) step_m =
     (pts1 ← interpolate_continuous_coords_global fuel l1 step_m;
      pts2 ← interpolate_continuous_coords_global fuel l2 step_m;
      Some (pts1 ++ pts2))) /\
  (forall fuel (island : list coord) part,
     interpolate_continuous_coords_global fuel [island] step_m = Some part ->
     if (length island <? 2)%nat then part = []
     else exists p0 new,
         head island = Some p0 /\ part = p0 :: new /\
         forall pt, pt ∈ new -> on_segment_of island pt) /\
  ((0 < step_m)%Q ->
   (forall lines_coords, exists fuel0 pts, forall fuel, (fuel0 <= fuel)%nat ->
      interpolate_continuous_coords_global fuel lines_coords step_m = Some pts) /\
   ((forall a b, (0 <= geodesic a b)%Q) ->
    forall fuel (island : list coord) p0 new,
      interpolate_continuous_coords_global fuel [island] step_m = Some (p0 :: new) ->
      forall pt, pt ∈ new -> within_segment_of island pt)).
Proof.
  split; [|split].
  - intros fuel l1 l2. apply resample_loop_app.
  - intros fuel island part. apply single_island_points.
  - intros Hstep. split.
    + intros lines_coords.
      destruct (resample_loop_total step_m lines_coords [] Hstep) as (fuel0 & pts & H).
      exists fuel0, pts. intros fuel Hle.
      by apply (resample_loop_mono fuel0).
    + intros Hgeo fuel island p0 new.
      unfold interpolate_continuous_coords_global. cbn [resample_loop].
      destruct island as [|q0 [|q1 tl]]; try done.
      destruct (walk_island fuel step_m (q0 :: q1 :: tl) [q0] 0) as [pts|] eqn:Hw; [|done].
      intros H; inversion H; subst; clear H.
      apply walk_island_within in Hw; [|done|done|lra|done].
      destruct Hw as (new' & Heq & Hnew). simpl in Heq.
      inversion Heq; subst. exact Hnew.
Qed.

End Utils.

(** Three islands with a step of 50 m: 111 m long, a single point, and
    55.5 m long.  The 11 m left over at the end of the first island are
    not carried into the third, whose only interpolated point lies 50 m
    from its own start. *)
Example two_islands_are_resampled_apart :
  interpolate_continuous_coords_global flat_geodesic 10
    [[pt 0 0; pt 0 0.001]; [pt 1 1]; [pt 5 5; pt 5 5.0005]] 50%Q
  = Some [pt 0 0;
          (0 # 111000, 50000 # 111000000); (0 # 111000, 100000 # 111000000);
          pt 5 5;
          (2775000 # 555000, 27752500000 # 5550000000)].
Proof. by vm_compute. Qed.

Lemma flat_geodesic_nonneg (a b : coord) : (0 <= flat_geodesic a b)%Q.
Proof.
  unfold flat_geodesic.
  pose proof (Qabs_nonneg (fst a - fst b)).
  pose proof (Qabs_nonneg (snd a - snd b)).
  lra.
Qed.

Lemma flat_geodesic_sym (a b : coord) : flat_geodesic a b == flat_geodesic b a.
Proof.
  unfold flat_geodesic.
  by rewrite (Qabs_Qminus (fst a) (fst b)), (Qabs_Qminus (snd a) (snd b)).
Qed.

Lemma first_point_distance_sym (l1 l2 : line) :
  first_point_distance l1 l2 == first_point_distance l2 l1.
Proof.
  destruct l1 as [|a l1], l2 as [|b l2]; try reflexivity.
  apply flat_geodesic_sym.
Qed.

Definition chunk_a : line := [pt 0 0; pt 0 1].
Definition chunk_b : line := [pt 0 0.000001; pt 1 1].
Definition chunk_c : line := [pt 0 0.000002; pt 2 2].
Definition chunk_d : line := [pt 5 5; pt 6 6].


(** The resampler returns on three islands with a step of 50 m. *)
Lemma resampling_is_per_island_witness :
  exists fuel0 pts, forall fuel, (fuel0 <= fuel)%nat ->
    interpolate_continuous_coords_global flat_geodesic fuel
      [[pt 0 0; pt 0 0.001]; [pt 1 1]; [pt 5 5; pt 5 5.0005]] 50%Q = Some pts.
Proof.
  apply (proj1 (proj2 (proj2 (resampling_is_per_island flat_geodesic 50%Q))
                  ltac:(by vm_compute))).
Defined.

(** * Further properties of the modelled code *)

(** ** graph_manager.py: what a call does to the cache object *)

Section GraphManagerMore.

Variable cfg : config.
Variable provider : list provider_call -> provider_call -> result graph.

Local Abbreviation ladder_key r nt extra := (r, nt, (REGION_GRAPH_DIST_M cfg + extra)%Z).

Lemma expand_loop_grows rid lat lon nt extras last_exc rc res rc' :
  expand_loop cfg provider rid lat lon nt extras last_exc rc = (res, rc') ->
  reg_df rc' = reg_df rc /\
  cache rc ⊆ cache rc' /\
  exists new, requests rc' = requests rc ++ new /\
    (length new <= length extras)%nat /\
    forall q, q ∈ new -> exists dist, q = FromPoint lat lon dist nt.
Proof.
  revert last_exc rc.
  induction extras as [|extra rest IH]; intros last_exc rc H; cbn [expand_loop] in H.
  - inversion H; subst. repeat split; [done|]. exists [].
    rewrite app_nil_r. repeat split; [done|]. intros q Hq. by apply elem_of_nil in Hq.
  - destruct (cache rc !! _) as [G|] eqn:Hc.
    { inversion H; subst. repeat split; [done|]. exists [].
      rewrite app_nil_r. repeat split; [simpl; lia|].
      intros q Hq. by apply elem_of_nil in Hq. }
    destruct (provider (requests rc) _) as [G|e0] eqn:Hp.
    + inversion H; subst. cbn. split; [done|]. split; [by apply insert_subseteq|].
      eexists [_]. repeat split; [simpl; lia|].
      intros q Hq. apply list_elem_of_singleton in Hq as ->. by eexists.
    + apply IH in H as (Hdf & Hsub & new & Hreq & Hlen & Hnew). cbn in Hdf, Hsub, Hreq.
      split; [done|]. split; [done|].
      eexists (_ :: new). rewrite Hreq, <- app_assoc. repeat split; [simpl; lia|].
      intros q Hq. apply elem_of_cons in Hq as [->|Hq]; [by eexists|by apply Hnew].
Qed.

(** X1: a call of [get_with_expand], whatever it returns, only adds to the
    cache object: the region table is unchanged, every cached graph is
    still cached under its key, and the provider requests made so far are
    extended by at most one request per radius of the ladder, each a
    point request for the network type asked. *)
Theorem get_with_expand_only_grows
    (rc rc' : RegionGraphCache) (rid : option Z) (nt : string) (res : result graph) :
  get_with_expand cfg provider rc rid nt = (res, rc') ->
  reg_df rc' = reg_df rc /\
  cache rc ⊆ cache rc' /\
  exists new, requests rc' = requests rc ++ new /\
    (length new <= length (DIST_EXPANDS cfg))%nat /\
    forall q, q ∈ new -> exists lat lon dist, q = FromPoint lat lon dist nt.
Proof.
  unfold get_with_expand. intros H.
  assert (Hsame : (res, rc') = (Raise region_missing, rc) ->
     reg_df rc' = reg_df rc /\ cache rc ⊆ cache rc' /\
     exists new, requests rc' = requests rc ++ new /\
       (length new <= length (DIST_EXPANDS cfg))%nat /\
       forall q, q ∈ new -> exists lat lon dist, q = FromPoint lat lon dist nt).
  { intros Heq; inversion Heq; subst. repeat split; [done|]. exists [].
    rewrite app_nil_r. repeat split; [simpl; lia|].
    intros q Hq. by apply elem_of_nil in Hq. }
  destruct rid as [r|]; [|by apply Hsame].
  destruct (select_region (reg_df rc) (Some r)) as [|row rows]; [by apply Hsame|].
  apply expand_loop_grows in H as (Hdf & Hsub & new & Hreq & Hlen & Hnew).
  split; [done|]. split; [done|]. exists new. repeat split; [done..|].
  intros q Hq. destruct (Hnew q Hq) as [dist ->]. by eexists _, _, _.
Qed.

Lemma expand_loop_ok_if_cached rid lat lon nt extras last_exc rc :
  (exists extra, In extra extras /\ is_Some (cache rc !! ladder_key rid nt extra)) ->
  exists G rc', expand_loop cfg provider rid lat lon nt extras last_exc rc = (Ok G, rc').
Proof.
  revert last_exc rc.
  induction extras as [|extra rest IH]; intros last_exc rc (x & Hin & Hx); [done|].
  cbn [expand_loop].
  destruct (cache rc !! ladder_key rid nt extra) as [G|] eqn:Hc; [by eauto|].
  destruct (provider (requests rc) _) as [G|e0]; [by eauto|].
  apply IH. exists x. split; [|done].
  destruct Hin as [->|Hin]; [|done].
  rewrite Hc in Hx. by destruct Hx.
Qed.

(** X2: success is lasting.  Once [get_with_expand] has returned a graph
    for a region and network type, every later call for them on a cache
    object that still holds what the first call left (same region table,
    cache at least as large) returns a graph and does not raise, whatever
    the provider answers then. *)
Theorem get_with_expand_success_is_lasting
    (rc rc1 rc2 : RegionGraphCache) (rid : option Z) (nt : string) (G : graph) :
  get_with_expand cfg provider rc rid nt = (Ok G, rc1) ->
  reg_df rc2 = reg_df rc ->
  cache rc1 ⊆ cache rc2 ->
  exists G' rc3, get_with_expand cfg provider rc2 rid nt = (Ok G', rc3).
Proof.
  unfold get_with_expand. intros H Hdf Hsub. rewrite Hdf.
  destruct rid as [r|]; [|done].
  destruct (select_region (reg_df rc) (Some r)) as [|row rows]; [done|].
  apply expand_loop_ok in H as (extra & Hin & Hget).
  apply expand_loop_ok_if_cached. exists extra. split; [done|].
  exists G. by eapply lookup_weaken.
Qed.

(** X3: insert, then look up.  When the first radius of the ladder misses
    the cache and the provider delivers a graph for it, the call returns
    that graph having sent this one request, and the same call repeated
    returns the same graph from the cache, with no further request. *)
Theorem get_with_expand_caches_first_radius
    (rc : RegionGraphCache) (r : Z) (row : region_row) (rows : list region_row)
    (extra : Z) (rest : list Z) (nt : string) (G : graph) :
  select_region (reg_df rc) (Some r) = row :: rows ->
  DIST_EXPANDS cfg = extra :: rest ->
  cache rc !! ladder_key r nt extra = None ->
  provider (requests rc)
    (FromPoint (mean_lat row) (mean_lon row) (REGION_GRAPH_DIST_M cfg + extra) nt) = Ok G ->
  exists rc1,
    get_with_expand cfg provider rc (Some r) nt = (Ok G, rc1) /\
    requests rc1 = requests rc ++
      [FromPoint (mean_lat row) (mean_lon row) (REGION_GRAPH_DIST_M cfg + extra) nt] /\
    cache rc1 = <[ladder_key r nt extra := G]> (cache rc) /\
    get_with_expand cfg provider rc1 (Some r) nt = (Ok G, rc1).
Proof.
  intros Hsel Hladder Hmiss Hprov. eexists. split; [|split; [|split]].
  - unfold get_with_expand. rewrite Hsel, Hladder. cbn [expand_loop].
    rewrite Hmiss, Hprov. reflexivity.
  - done.
  - done.
  - unfold get_with_expand. cbn [reg_df add_request set_cache].
    rewrite Hsel, Hladder. cbn [expand_loop cache add_request set_cache].
    by rewrite lookup_insert_eq.
Qed.

End GraphManagerMore.

Definition provider_up : list provider_call -> provider_call -> result graph :=
  fun _ _ => Ok G_line.

(** With the provider down, three requests are added and nothing else changes. *)
Lemma get_with_expand_only_grows_witness :
  reg_df (snd (get_with_expand cfg0 provider_down rc_seoul (Some 1%Z) "walk"))
    = reg_df rc_seoul /\
  cache rc_seoul ⊆ cache (snd (get_with_expand cfg0 provider_down rc_seoul (Some 1%Z) "walk")).
Proof.
  destruct (get_with_expand_only_grows cfg0 provider_down rc_seoul _ (Some 1%Z) "walk" _
              eq_refl) as (H1 & H2 & _).
  by split.
Defined.

(** A cached graph keeps the call from raising although the provider is down. *)
Lemma get_with_expand_success_is_lasting_witness :
  exists G' rc3, get_with_expand cfg0 provider_down rc_cached (Some 1%Z) "walk" = (Ok G', rc3).
Proof.
  apply (get_with_expand_success_is_lasting cfg0 provider_down rc_cached rc_cached
           rc_cached (Some 1%Z) "walk" G_line); [by vm_compute|reflexivity|reflexivity].
Defined.

(** Region 1, first radius 5000 m, delivered by the provider and then cached. *)
Lemma get_with_expand_caches_first_radius_witness :
  exists rc1,
    get_with_expand cfg0 provider_up rc_seoul (Some 1%Z) "walk" = (Ok G_line, rc1) /\
    get_with_expand cfg0 provider_up rc1 (Some 1%Z) "walk" = (Ok G_line, rc1).
Proof.
  destruct (get_with_expand_caches_first_radius cfg0 provider_up rc_seoul 1%Z seoul []
              0%Z [3000; 6000]%Z "walk" G_line eq_refl eq_refl eq_refl eq_refl)
    as (rc1 & H1 & _ & _ & H2).
  by exists rc1.
Defined.

(** ** graph_manager.py: snapping and the bounding-box graph *)

Section SnapAndBBox.

Variable provider : list provider_call -> provider_call -> result graph.
Variable nearest_nodes : graph -> Q -> Q -> result Z.
Variable nearest_edges : graph -> Q -> Q -> result (Z * Z * Z).
Variable geodesic : coord -> coord -> Q.

Local Abbreviation snap := (snap_nodes_hybrid nearest_nodes nearest_edges geodesic).

(** The distance [snap_nodes_hybrid] measures from the point to a node. *)
Definition node_distance (G : graph) (lon lat : Q) (n : Z) : option Q :=
  match g_nodes G !! n with
  | Some xy => Some (geodesic (lat, lon) (swap_coord xy))
  | None => None
  end.

(** X4: [snap_nodes_hybrid] returns the answer of the nearest-node search
    when there is one.  Otherwise a node it returns is an endpoint of the
    nearest edge, and no endpoint of that edge is closer to the point; and
    when it raises, the nearest-node search has raised that same error. *)
Theorem snap_nodes_hybrid_fallback (G : graph) (lon lat : Q) :
  match nearest_nodes G lon lat with
  | Ok n => snap G lon lat = Ok n
  | Raise e =>
      match snap G lon lat with
      | Ok n =>
          exists u v key du dv,
            nearest_edges G lon lat = Ok (u, v, key) /\
            node_distance G lon lat u = Some du /\
            node_distance G lon lat v = Some dv /\
            ((n = u /\ (du <= dv)%Q) \/ (n = v /\ (dv < du)%Q))
      | Raise e' => e' = e
      end
  end.
Proof.
  unfold snap_nodes_hybrid, node_distance, node_xy.
  destruct (nearest_nodes G lon lat) as [n|e]; [done|].
  destruct (nearest_edges G lon lat) as [[[u v] key]|e1]; rsimpl; [|done].
  destruct (g_nodes G !! u) as [uxy|] eqn:Hu; rsimpl; [|done].
  destruct (g_nodes G !! v) as [vxy|] eqn:Hv; rsimpl; [|done].
  exists u, v, key. eexists _, _. split; [done|].
  rewrite Hu, Hv. split; [done|]. split; [done|].
  unfold swap_coord.
  destruct (Qle_bool _ _) eqn:Hle.
  - left. split; [done|]. by apply Qle_bool_iff.
  - right. split; [done|]. apply Qnot_le_lt. intros H. apply Qle_bool_iff in H. congruence.
Qed.

(** X5: [graph_from_segment_bbox] sends exactly one request, for a box
    that contains both end points of the segment with the padding
    [pad_m / 111000] degrees to spare on every side (the padding not being
    negative); it returns the provider's answer and leaves the cache as it
    was. *)
Theorem graph_from_segment_bbox_covers_segment
    (rc : RegionGraphCache) (s_lat s_lon e_lat e_lon pad_m : Q) (nt : string) :
  (0 <= pad_m)%Q ->
  exists north south east west,
    graph_from_segment_bbox provider rc s_lat s_lon e_lat e_lon pad_m nt =
      (provider (requests rc) (FromBBox north south east west nt),
       add_request (FromBBox north south east west nt) rc) /\
    (south + pad_m / 111000 <= s_lat <= north - pad_m / 111000)%Q /\
    (south + pad_m / 111000 <= e_lat <= north - pad_m / 111000)%Q /\
    (west + pad_m / 111000 <= s_lon <= east - pad_m / 111000)%Q /\
    (west + pad_m / 111000 <= e_lon <= east - pad_m / 111000)%Q /\
    (south <= north)%Q /\ (west <= east)%Q.
Proof.
  intros Hpad. unfold graph_from_segment_bbox. eexists _, _, _, _.
  split; [reflexivity|].
  assert (Hdeg : (0 <= pad_m / 111000)%Q).
  { apply Qle_shift_div_l; [done|]. lra. }
  assert (Hmax : forall a b, (a <= py_max a b)%Q /\ (b <= py_max a b)%Q).
  { intros a b. unfold py_max. destruct (Qlt_bool a b) eqn:E.
    - apply Qlt_bool_iff in E. lra.
    - split; [lra|]. destruct (Qlt_le_dec a b) as [Hlt|Hle]; [|done].
      apply Qlt_bool_iff in Hlt. congruence. }
  assert (Hmin : forall a b, (py_min a b <= a)%Q /\ (py_min a b <= b)%Q).
  { intros a b. unfold py_min. destruct (Qlt_bool b a) eqn:E.
    - apply Qlt_bool_iff in E. lra.
    - split; [lra|]. destruct (Qlt_le_dec b a) as [Hlt|Hle]; [|done].
      apply Qlt_bool_iff in Hlt. congruence. }
  pose proof (Hmax s_lat e_lat). pose proof (Hmin s_lat e_lat).
  pose proof (Hmax s_lon e_lon). pose proof (Hmin s_lon e_lon).
  repeat split; lra.
Qed.

End SnapAndBBox.

(** The box requested for a bridge along the parallel 37.5 N, padded by 800 m. *)
Lemma graph_from_segment_bbox_covers_segment_witness :
  exists north south east west,
    graph_from_segment_bbox provider_down rc_seoul 37.5 127.001 37.5 127.003 800 "walk" =
      (provider_down (requests rc_seoul) (FromBBox north south east west "walk"),
       add_request (FromBBox north south east west "walk") rc_seoul) /\
    (west + 800 / 111000 <= 127.001 <= east - 800 / 111000)%Q.
Proof.
  destruct (graph_from_segment_bbox_covers_segment provider_down rc_seoul
              37.5 127.001 37.5 127.003 800 "walk" ltac:(by vm_compute))
    as (n & s & e & w & H & _ & _ & Hlon & _).
  by exists n, s, e, w.
Defined.

(** ** matcher.py: the pieces of the route finder *)

(** No two neighbours in the list are equal. *)
Definition no_adjacent_repeat {A} (l : list A) : Prop :=
  forall i a b, l !! i = Some a -> l !! S i = Some b -> a <> b.

Lemma no_adjacent_repeat_snoc {A} (l : list A) (x : A) :
  no_adjacent_repeat l -> last l <> Some x -> no_adjacent_repeat (l ++ [x]).
Proof.
  intros Hl Hlast i a b Ha Hb.
  destruct (decide (S i < length l)%nat) as [Hlt|Hge].
  - rewrite lookup_app_l in Ha by lia. rewrite lookup_app_l in Hb by lia.
    by apply (Hl i).
  - pose proof (lookup_lt_Some _ _ _ Hb) as Hb'. rewrite length_app in Hb'. simpl in Hb'.
    assert (S i = length l) as Hi by lia.
    rewrite lookup_app_l in Ha by lia.
    rewrite lookup_app_r in Hb by lia. rewrite Hi, Nat.sub_diag in Hb.
    inversion Hb; subst b. intros ->. apply Hlast.
    rewrite last_lookup. rewrite <- Hi. exact Ha.
Qed.

Lemma fold_append_if_new (rest acc : list Z) :
  acc <> [] ->
  no_adjacent_repeat acc ->
  no_adjacent_repeat (fold_left append_if_new rest acc) /\
  head (fold_left append_if_new rest acc) = head acc /\
  last (fold_left append_if_new rest acc) = last (acc ++ rest) /\
  (forall n, n ∈ fold_left append_if_new rest acc <-> n ∈ acc ++ rest).
Proof.
  revert acc. induction rest as [|x rest IH]; intros acc Hne Hacc; cbn [fold_left].
  - rewrite app_nil_r. by repeat split.
  - assert (Hstep : append_if_new acc x =
        if decide (last acc = Some x) then acc else acc ++ [x]) by done.
    rewrite Hstep. clear Hstep.
    destruct (decide (last acc = Some x)) as [Hx|Hx].
    + destruct (IH acc Hne Hacc) as (H1 & H2 & H3 & H4).
      split; [done|]. split; [done|]. split.
      * rewrite H3. destruct rest as [|y rest'].
        { rewrite app_nil_r, Hx. by rewrite last_snoc. }
        by rewrite !last_app_cons.
      * intros n. rewrite H4, !elem_of_app, elem_of_cons.
        split; [tauto|]. intros [H|[->|H]]; [tauto| |tauto].
        left. rewrite last_lookup in Hx. by eapply list_elem_of_lookup_2.
    + destruct (IH (acc ++ [x])) as (H1 & H2 & H3 & H4).
      { by destruct acc. }
      { by apply no_adjacent_repeat_snoc. }
      split; [done|]. split.
      * rewrite H2. by destruct acc.
      * rewrite <- app_assoc in H3, H4. done.
Qed.

Lemma fold_append_if_new_length (rest acc : list Z) :
  (length (fold_left append_if_new rest acc) <= length acc + length rest)%nat.
Proof.
  revert acc. induction rest as [|x rest IH]; intros acc; cbn [fold_left length].
  - lia.
  - etrans; [apply IH|]. unfold append_if_new.
    destruct (decide _); rewrite ?length_app; cbn [length]; lia.
Qed.

(** X7: [collapse_nodes] (the removal of standing still) keeps the first
    and the last node and the set of nodes visited, and leaves no two equal
    nodes next to each other; it fails only on an empty list. *)
Theorem collapse_nodes_no_standing_still (all_nodes : list Z) :
  match collapse_nodes all_nodes with
  | Ok unique_nodes =>
      no_adjacent_repeat unique_nodes /\
      head unique_nodes = head all_nodes /\
      last unique_nodes = last all_nodes /\
      (forall n, n ∈ unique_nodes <-> n ∈ all_nodes) /\
      (length unique_nodes <= length all_nodes)%nat
  | Raise _ => all_nodes = []
  end.
Proof.
  destruct all_nodes as [|n0 rest]; [done|]. cbn [collapse_nodes].
  destruct (fold_append_if_new rest [n0]) as (H1 & H2 & H3 & H4); [done| |].
  { intros i a b Ha Hb. by destruct i. }
  split; [done|]. split; [done|]. split; [done|]. split; [done|].
  apply (fold_append_if_new_length rest [n0]).
Qed.

(** [a] is no longer than [b], a missing length counting as infinity. *)
Definition length_le (a b : option Q) : Prop :=
  match a, b with
  | Some x, Some y => (x <= y)%Q
  | Some _, None => True
  | None, Some _ => False
  | None, None => True
  end.

Lemma length_lt_false_le (a b : option Q) : length_lt a b = false -> length_le b a.
Proof.
  destruct a as [x|], b as [y|]; simpl; try done.
  unfold Qlt_bool. intros H. apply negb_false_iff, Qle_bool_iff in H. exact H.
Qed.

Lemma length_lt_true_le (a b : option Q) : length_lt a b = true -> length_le a b.
Proof.
  destruct a as [x|], b as [y|]; simpl; try done.
  intros H. apply Qlt_bool_iff in H. lra.
Qed.

Lemma length_le_trans (a b c : option Q) :
  length_le a b -> length_le b c -> length_le a c.
Proof.
  destruct a as [x|], b as [y|], c as [z|]; simpl; try done. lra.
Qed.

(** X8: among the parallel edges between two nodes the route finder
    takes one of minimal length (an edge without a length counting as
    infinitely long), and the first such in the order of the edge
    dictionary. *)
Theorem best_edge_is_shortest (kd : Z * edge_attrs) (rest : list (Z * edge_attrs)) :
  exists i cand,
    (kd :: rest) !! i = Some cand /\
    best_edge kd rest = snd cand /\
    (forall other, other ∈ kd :: rest ->
       length_le (e_length (snd cand)) (e_length (snd other))) /\
    (forall j other, (j < i)%nat -> (kd :: rest) !! j = Some other ->
       length_lt (e_length (snd cand)) (e_length (snd other)) = true).
Proof.
  unfold best_edge.
  set (step := fun best cand : Z * edge_attrs =>
     if length_lt (e_length (snd cand)) (e_length (snd best)) then cand else best).
  assert (Hgen : forall rest seen best i,
     seen !! i = Some best ->
     (forall other, other ∈ seen -> length_le (e_length (snd best)) (e_length (snd other))) ->
     (forall j other, (j < i)%nat -> seen !! j = Some other ->
        length_lt (e_length (snd best)) (e_length (snd other)) = true) ->
     exists i' cand, (seen ++ rest) !! i' = Some cand /\
       fold_left step rest best = cand /\
       (forall other, other ∈ seen ++ rest ->
          length_le (e_length (snd cand)) (e_length (snd other))) /\
       (forall j other, (j < i')%nat -> (seen ++ rest) !! j = Some other ->
          length_lt (e_length (snd cand)) (e_length (snd other)) = true)).
  { clear. intros rest. induction rest as [|c rest IH]; intros seen best i Hi Hmin Hfirst.
    - exists i, best. rewrite app_nil_r. by repeat split.
    - cbn [fold_left]. unfold step at 2.
      destruct (length_lt (e_length (snd c)) (e_length (snd best))) eqn:Hlt.
      + destruct (IH (seen ++ [c]) c (length seen)) as (i' & cand & H1 & H2 & H3 & H4).
        * by rewrite lookup_app_r, Nat.sub_diag by lia.
        * intros other Ho. apply elem_of_app in Ho as [Ho|Ho].
          -- eapply length_le_trans; [by apply length_lt_true_le|by apply Hmin].
          -- apply list_elem_of_singleton in Ho as ->.
             destruct (e_length (snd c)); simpl; [lra|done].
        * intros j other Hj Ho. rewrite lookup_app_l in Ho by lia.
          specialize (Hmin other (list_elem_of_lookup_2 _ _ _ Ho)).
          apply length_lt_true_le in Hlt as Hle.
          clear -Hlt Hmin.
          destruct (e_length (snd c)) as [x|], (e_length (snd best)) as [y|],
            (e_length (snd other)) as [z|]; simpl in *; try done.
          apply Qlt_bool_iff in Hlt. apply Qlt_bool_iff. lra.
        * rewrite <- app_assoc in H1, H3, H4. by exists i', cand.
      + destruct (IH (seen ++ [c]) best i) as (i' & cand & H1 & H2 & H3 & H4).
        * rewrite lookup_app_l; [done|]. by eapply lookup_lt_Some.
        * intros other Ho. apply elem_of_app in Ho as [Ho|Ho]; [by apply Hmin|].
          apply list_elem_of_singleton in Ho as ->. by apply length_lt_false_le.
        * intros j other Hj Ho. apply lookup_lt_Some in Hi as Hi'.
          rewrite lookup_app_l in Ho by lia. by eapply Hfirst.
        * rewrite <- app_assoc in H1, H3, H4. by exists i', cand. }
  destruct (Hgen rest [kd] kd 0%nat) as (i' & cand & H1 & H2 & H3 & H4).
  - done.
  - intros other Ho. apply list_elem_of_singleton in Ho as ->.
    destruct (e_length (snd kd)); simpl; [lra|done].
  - intros j other Hj. lia.
  - exists i', cand. rewrite H2. by repeat split.
Qed.

(** ** matcher.py: what the route finder and the router return *)

(** [rc'] holds everything [rc] holds: same region table, every cached
    graph still cached, the requests sent so far extended. *)
Definition grown_from (rc rc' : RegionGraphCache) : Prop :=
  reg_df rc' = reg_df rc /\
  cache rc ⊆ cache rc' /\
  requests rc `prefix_of` requests rc'.

Lemma grown_from_refl rc : grown_from rc rc.
Proof. by repeat split. Qed.

Lemma grown_from_trans rc1 rc2 rc3 :
  grown_from rc1 rc2 -> grown_from rc2 rc3 -> grown_from rc1 rc3.
Proof.
  intros (H1 & H2 & H3) (H4 & H5 & H6). split; [congruence|].
  split; by etrans.
Qed.

Definition is_point_request (q : provider_call) : bool :=
  match q with FromPoint _ _ _ _ => true | FromBBox _ _ _ _ _ => false end.

Section MatcherMore.

Variable cfg : config.
Variable provider : list provider_call -> provider_call -> result graph.
Variable nearest_nodes : graph -> Q -> Q -> result Z.
Variable nearest_edges : graph -> Q -> Q -> result (Z * Z * Z).
Variable shortest_path : graph -> Z -> Z -> result (list Z).
Variable geodesic : coord -> coord -> Q.

Local Abbreviation route_on_graph :=
  (route_on_graph_with_waypoints nearest_nodes nearest_edges shortest_path geodesic).
Local Abbreviation router :=
  (route_between_points_with_fallback cfg provider nearest_nodes nearest_edges
     shortest_path geodesic).
Local Abbreviation tier1_of :=
  (tier1 cfg provider nearest_nodes nearest_edges shortest_path geodesic).
Local Abbreviation tier2_of :=
  (tier2 provider nearest_nodes nearest_edges shortest_path geodesic).
Local Abbreviation step_of :=
  (stitch_step cfg provider nearest_nodes nearest_edges shortest_path geodesic).
Local Abbreviation loop_of :=
  (stitch_loop cfg provider nearest_nodes nearest_edges shortest_path geodesic).
Local Abbreviation stitch_of :=
  (stitch_and_merge_paths cfg provider nearest_nodes nearest_edges shortest_path geodesic).

Lemma LineString_ok (cs l : list coord) :
  LineString cs = Ok l -> l = cs /\ length cs <> 1%nat.
Proof.
  unfold LineString. destruct (length cs =? 1)%nat eqn:E; [done|].
  intros H; inversion H; subst. split; [done|]. by apply Nat.eqb_neq.
Qed.

(** X6: the route finder returns no degenerate geometry: a line it
    returns holds at least two coordinates, and it returns none at all for
    fewer than two waypoints. *)
Theorem route_on_graph_returns_two_points_or_more
    (G : graph) (waypoints : list coord) :
  match route_on_graph G waypoints with
  | Ok (Some l) => (2 <= length l)%nat /\ (2 <= length waypoints)%nat
  | Ok None => True
  | Raise _ => (2 <= length waypoints)%nat
  end.
Proof.
  unfold route_on_graph_with_waypoints.
  destruct (length waypoints <? 2)%nat eqn:Hlen; [done|].
  apply Nat.ltb_ge in Hlen.
  destruct (snap_all _ _ _ G waypoints) as [all_nodes|]; [|done].
  destruct (collapse_nodes all_nodes) as [unique_nodes|]; rsimpl; [|done].
  destruct (length unique_nodes <? 2)%nat.
  - destruct unique_nodes as [|n0 rest]; [done|].
    unfold _safe_same_node_linestring.
    destruct (node_xy G n0) as [xy|]; rsimpl; [|done]. cbn. split; [lia|done].
  - destruct (route_pairs shortest_path G unique_nodes []) as [[|c tl]|]; try done.
    destruct (LineString (c :: tl)) as [l|] eqn:Hl; rsimpl; [|done].
    apply LineString_ok in Hl as [-> Hne]. split; [|done].
    destruct tl; [done|]. simpl. lia.
Qed.

Lemma usable_shape (r : result (option line)) (l : line) :
  usable r = Some l -> (2 <= length l)%nat.
Proof.
  destruct r as [[l0|]|]; try done. cbn [usable].
  destruct (line_truthy l0 && (1 <? length l0)%nat) eqn:E; [|done].
  intros H; inversion H; subst. apply andb_prop in E as [_ E].
  apply Nat.ltb_lt in E. lia.
Qed.

Lemma get_with_expand_grown rc rid nt res rc' :
  get_with_expand cfg provider rc rid nt = (res, rc') ->
  grown_from rc rc' /\
  exists new, requests rc' = requests rc ++ new /\
    (length new <= length (DIST_EXPANDS cfg))%nat /\
    forallb is_point_request new = true.
Proof.
  unfold get_with_expand. intros H.
  assert (Hsame : (res, rc') = (Raise region_missing, rc) ->
    grown_from rc rc' /\
    exists new, requests rc' = requests rc ++ new /\
      (length new <= length (DIST_EXPANDS cfg))%nat /\
      forallb is_point_request new = true).
  { intros Heq; inversion Heq; subst. split; [apply grown_from_refl|].
    exists []. rewrite app_nil_r. repeat split. simpl. lia. }
  destruct rid as [r|]; [|by apply Hsame].
  destruct (select_region (reg_df rc) (Some r)) as [|row rows]; [by apply Hsame|].
  apply expand_loop_grows in H as (Hdf & Hsub & new & Hreq & Hlen & Hnew).
  split.
  - split; [done|]. split; [done|]. rewrite Hreq. by apply prefix_app_r.
  - exists new. split; [done|]. split; [done|].
    apply forallb_forall. intros q Hq. apply list_elem_of_In in Hq.
    by destruct (Hnew q Hq) as [dist ->].
Qed.

Lemma tier1_spec rc rid waypoints nets o rc' :
  tier1_of rc rid waypoints nets = (o, rc') ->
  grown_from rc rc' /\
  (forall l, o = Some l -> (2 <= length l)%nat) /\
  exists new, requests rc' = requests rc ++ new /\
    (length new <= length nets * length (DIST_EXPANDS cfg))%nat /\
    forallb is_point_request new = true.
Proof.
  revert rc. induction nets as [|net rest IH]; intros rc H; cbn [tier1] in H.
  - inversion H; subst. split; [apply grown_from_refl|]. split; [done|].
    exists []. rewrite app_nil_r. repeat split. simpl. lia.
  - destruct (get_with_expand cfg provider rc rid net) as [r rc1] eqn:Hget.
    apply get_with_expand_grown in Hget as (Hg & new1 & Hreq1 & Hlen1 & Hpt1).
    assert (Hrec : tier1_of rc1 rid waypoints rest = (o, rc') ->
      grown_from rc rc' /\ (forall l, o = Some l -> (2 <= length l)%nat) /\
      exists new, requests rc' = requests rc ++ new /\
        (length new <= length (net :: rest) * length (DIST_EXPANDS cfg))%nat /\
        forallb is_point_request new = true).
    { intros Hr. apply IH in Hr as (Hg2 & Hshape & new2 & Hreq2 & Hlen2 & Hpt2).
      split; [by eapply grown_from_trans|]. split; [done|].
      exists (new1 ++ new2). rewrite Hreq2, Hreq1, <- app_assoc. split; [done|].
      rewrite length_app, forallb_app, Hpt1, Hpt2. simpl. split; [lia|done]. }
    destruct r as [G|e]; [|by apply Hrec].
    destruct (usable (route_on_graph G waypoints)) as [l|] eqn:Hu; [|by apply Hrec].
    inversion H; subst. split; [done|]. split.
    + intros l' Hl'. inversion Hl'; subst. by eapply usable_shape.
    + exists new1. split; [done|]. simpl. split; [lia|done].
Qed.

Lemma tier2_spec rc waypoints s_lat s_lon e_lat e_lon nets o rc' :
  tier2_of rc waypoints s_lat s_lon e_lat e_lon nets = (o, rc') ->
  grown_from rc rc' /\
  (forall l, o = Some l -> (2 <= length l)%nat) /\
  cache rc' = cache rc /\
  exists new, requests rc' = requests rc ++ new /\
    (length new <= length nets)%nat /\
    forallb (fun q => negb (is_point_request q)) new = true.
Proof.
  revert rc. induction nets as [|net rest IH]; intros rc H; cbn [tier2] in H.
  - inversion H; subst. split; [apply grown_from_refl|]. split; [done|]. split; [done|].
    exists []. rewrite app_nil_r. by repeat split.
  - unfold graph_from_segment_bbox in H.
    set (q := FromBBox _ _ _ _ net) in H.
    assert (Hg1 : grown_from rc (add_request q rc)).
    { split; [done|]. split; [done|]. by apply prefix_app_r. }
    assert (Hrec : tier2_of (add_request q rc) waypoints s_lat s_lon e_lat e_lon rest
                   = (o, rc') ->
      grown_from rc rc' /\ (forall l, o = Some l -> (2 <= length l)%nat) /\
      cache rc' = cache rc /\
      exists new, requests rc' = requests rc ++ new /\
        (length new <= length (net :: rest))%nat /\
        forallb (fun q => negb (is_point_request q)) new = true).
    { intros Hr. apply IH in Hr as (Hg2 & Hshape & Hc & new2 & Hreq2 & Hlen2 & Hbox2).
      split; [by eapply grown_from_trans|]. split; [done|]. split; [done|].
      exists (q :: new2). cbn in Hreq2. rewrite <- app_assoc in Hreq2.
      split; [done|]. split; [simpl; lia|]. cbn. exact Hbox2. }
    destruct (provider (requests rc) q) as [G|e]; [|by apply Hrec].
    destruct (usable (route_on_graph G waypoints)) as [l|] eqn:Hu; [|by apply Hrec].
    inversion H; subst. split; [done|]. split.
    + intros l' Hl'. inversion Hl'; subst. by eapply usable_shape.
    + split; [done|]. exists [q]. split; [done|]. split; [simpl; lia|done].
Qed.

Lemma router_returns_line_or_nothing_aux
    (rc rc' : RegionGraphCache) (rid : option Z) (waypoints : list coord)
    (r : result (option line)) :
  router rc rid waypoints = (r, rc') ->
  grown_from rc rc' /\
  match r with
  | Ok (Some l) => (2 <= length l)%nat /\ (2 <= length waypoints)%nat
  | Ok None => waypoints <> []
  | Raise e => waypoints = [] /\ e = IndexError "waypoints[0]"
  end.
Proof.
  unfold route_between_points_with_fallback. intros H.
  assert (Hshort : forall G l,
    usable (route_on_graph G waypoints) = Some l -> (2 <= length waypoints)%nat).
  { intros G l Hu. pose proof (route_on_graph_returns_two_points_or_more G waypoints) as Hr.
    destruct (route_on_graph G waypoints) as [[l0|]|]; try done. by destruct Hr. }
  assert (Ht1 : forall nets rc0 l rc1,
    tier1_of rc0 rid waypoints nets = (Some l, rc1) -> (2 <= length waypoints)%nat).
  { induction nets as [|net rest IH]; intros rc0 l rc1 Ht; cbn [tier1] in Ht; [done|].
    destruct (get_with_expand cfg provider rc0 rid net) as [[G|e] rc2]; [|by eapply IH].
    destruct (usable (route_on_graph G waypoints)) as [l0|] eqn:Hu; [|by eapply IH].
    by eapply Hshort. }
  assert (Ht2 : forall nets rc0 a b c d l rc1,
    tier2_of rc0 waypoints a b c d nets = (Some l, rc1) -> (2 <= length waypoints)%nat).
  { induction nets as [|net rest IH]; intros rc0 a b c d l rc1 Ht; cbn [tier2] in Ht; [done|].
    destruct (graph_from_segment_bbox provider rc0 a b c d 800 net) as [[G|e] rc2];
      [|by eapply IH].
    destruct (usable (route_on_graph G waypoints)) as [l0|] eqn:Hu; [|by eapply IH].
    by eapply Hshort. }
  destruct (tier1_of rc rid waypoints (network_types cfg)) as [o1 rc1] eqn:H1.
  destruct o1 as [l|].
  { pose proof (Ht1 _ _ _ _ H1) as Hlen1.
    apply tier1_spec in H1 as (Hg1 & Hshape1 & _).
    inversion H; subst. split; [done|]. split; [by apply Hshape1|done]. }
  apply tier1_spec in H1 as (Hg1 & Hshape1 & _).
  destruct waypoints as [|p rest].
  { inversion H; subst. by split. }
  cbn [head] in H.
  destruct (last (p :: rest)) as [[e_lon e_lat]|] eqn:E; [|by apply last_None in E].
  destruct p as [s_lon s_lat].
  match type of H with
  | context [tier2 ?a ?b ?c ?d ?e ?f ?g ?h ?i ?j ?k ?l] =>
      destruct (tier2 a b c d e f g h i j k l) as [o2 rc2] eqn:H2
  end.
  inversion H; subst.
  destruct o2 as [l|].
  - pose proof (Ht2 _ _ _ _ _ _ _ _ H2) as Hlen2.
    apply tier2_spec in H2 as (Hg2 & Hshape2 & _).
    split; [by eapply grown_from_trans|]. split; [by apply Hshape2|done].
  - apply tier2_spec in H2 as (Hg2 & _).
    split; [by eapply grown_from_trans|done].
Qed.

(** X9: the fallback router converts every failure into an absent result:
    for a non-empty list of waypoints it never raises, and for an empty
    one it raises the index error of [waypoints[0]] (after Tier 1 has been
    tried).  A line it returns holds at least two coordinates, which needs
    two waypoints or more, and whatever it returns the cache object has
    only grown. *)
Theorem router_returns_line_or_nothing
    (rc rc' : RegionGraphCache) (rid : option Z) (waypoints : list coord)
    (r : result (option line)) :
  router rc rid waypoints = (r, rc') ->
  grown_from rc rc' /\
  match r with
  | Ok (Some l) => (2 <= length l)%nat /\ (2 <= length waypoints)%nat
  | Ok None => waypoints <> []
  | Raise e => waypoints = [] /\ e = IndexError "waypoints[0]"
  end.
Proof. apply router_returns_line_or_nothing_aux. Qed.

(** X10: the router's requests are bounded and ordered.  One call sends
    at most one point request per radius and network type (Tier 1),
    followed by at most two bounding-box requests (Tier 2); a box request
    is sent only when Tier 1 ended without a usable line, and a line found
    by Tier 1 is the router's result. *)
Theorem router_request_budget
    (rc rc' : RegionGraphCache) (rid : option Z) (waypoints : list coord)
    (r : result (option line)) :
  router rc rid waypoints = (r, rc') ->
  exists points boxes,
    requests rc' = requests rc ++ points ++ boxes /\
    forallb is_point_request points = true /\
    forallb (fun q => negb (is_point_request q)) boxes = true /\
    (length points <= 2 * length (DIST_EXPANDS cfg))%nat /\
    (length boxes <= 2)%nat /\
    (forall l rc1, tier1_of rc rid waypoints (network_types cfg) = (Some l, rc1) ->
       boxes = [] /\ r = Ok (Some l) /\ rc' = rc1).
Proof.
  unfold route_between_points_with_fallback. intros H.
  destruct (tier1_of rc rid waypoints (network_types cfg)) as [o1 rc1] eqn:H1.
  apply tier1_spec in H1 as Hs1. destruct Hs1 as (_ & _ & points & Hreq1 & Hlen1 & Hpt1).
  cbn [network_types length] in Hlen1.
  destruct o1 as [l|].
  { inversion H; subst. exists points, []. rewrite app_nil_r.
    split; [done|]. split; [done|]. split; [done|]. split; [lia|].
    split; [simpl; lia|]. intros l' rc1' Heq. by inversion Heq. }
  assert (Hnone : forall l rc0, (None, rc1) = (Some l, rc0) ->
            @nil provider_call = [] /\ r = Ok (Some l) /\ rc' = rc0) by done.
  destruct waypoints as [|p rest].
  { inversion H; subst. exists points, []. rewrite app_nil_r.
    split; [done|]. split; [done|]. split; [done|]. split; [lia|].
    split; [simpl; lia|]. done. }
  cbn [head] in H.
  destruct (last (p :: rest)) as [[e_lon e_lat]|] eqn:E; [|by apply last_None in E].
  destruct p as [s_lon s_lat].
  match type of H with
  | context [tier2 ?a ?b ?c ?d ?e ?f ?g ?h ?i ?j ?k ?l] =>
      destruct (tier2 a b c d e f g h i j k l) as [o2 rc2] eqn:H2
  end.
  inversion H; subst.
  apply tier2_spec in H2 as (_ & _ & _ & boxes & Hreq2 & Hlen2 & Hbox2).
  exists points, boxes. rewrite Hreq2, Hreq1, <- app_assoc.
  split; [done|]. split; [done|]. split; [done|]. split; [lia|].
  split; [simpl in Hlen2; lia|]. done.
Qed.

(** ** matcher.py: matching every segment *)

(** The loop of [perform_map_matching_by_region] over the rows of
    [features_df], each row given by its segment id. *)
Fixpoint matching_loop (rc : RegionGraphCache) (segment_ids : list string)
    (all_waypoints : gmap string (list coord)) (seg_region_ids : gmap string Z)
    (matched : list (option line))
    : result (list (option line)) * RegionGraphCache :=
  match segment_ids with
  | [] => (Ok matched, rc)
  | sid :: rest =>
      match all_waypoints !! sid with
      | Some waypoints =>
          if (length waypoints <? 2)%nat then
            matching_loop rc rest all_waypoints seg_region_ids (matched ++ [None])
          else
            match router rc (seg_region_ids !! sid) waypoints with
            | (Ok line, rc1) =>
                matching_loop rc1 rest all_waypoints seg_region_ids (matched ++ [line])
            | (Raise e, rc1) => (Raise e, rc1)
            end
      | None => matching_loop rc rest all_waypoints seg_region_ids (matched ++ [None])
      end
  end.

Definition perform_map_matching_by_region (rc : RegionGraphCache)
    (segment_ids : list string) (all_waypoints : gmap string (list coord))
    (seg_region_ids : gmap string Z)
    : result (list (option line)) * RegionGraphCache :=
  matching_loop rc segment_ids all_waypoints seg_region_ids [].

(** A segment with waypoints enough to be matched. *)
Definition eligible (all_waypoints : gmap string (list coord)) (sid : string) : Prop :=
  exists waypoints, all_waypoints !! sid = Some waypoints /\ (2 <= length waypoints)%nat.

(** An entry of the matcher's result: absent, or a line of two or more
    coordinates for an eligible segment. *)
Definition matched_entry (all_waypoints : gmap string (list coord)) (sid : string)
    (entry : option line) : Prop :=
  match entry with
  | Some l => (2 <= length l)%nat /\ eligible all_waypoints sid
  | None => True
  end.

Lemma matching_loop_spec rc segment_ids all_waypoints seg_region_ids matched :
  exists more rc',
    matching_loop rc segment_ids all_waypoints seg_region_ids matched
      = (Ok (matched ++ more), rc') /\
    grown_from rc rc' /\
    Forall2 (matched_entry all_waypoints) segment_ids more /\
    (Forall (fun sid => ~ eligible all_waypoints sid) segment_ids ->
     rc' = rc /\ more = replicate (length segment_ids) None).
Proof.
  revert rc matched.
  induction segment_ids as [|sid rest IH]; intros rc matched; cbn [matching_loop].
  { exists [], rc. rewrite app_nil_r. split; [done|]. split; [apply grown_from_refl|].
    by split; [constructor|]. }
  assert (Hskip : exists more rc',
    matching_loop rc rest all_waypoints seg_region_ids (matched ++ [None])
      = (Ok (matched ++ more), rc') /\
    grown_from rc rc' /\
    Forall2 (matched_entry all_waypoints) (sid :: rest) more /\
    (Forall (fun sid => ~ eligible all_waypoints sid) (sid :: rest) ->
     rc' = rc /\ more = replicate (length (sid :: rest)) None)).
  { destruct (IH rc (matched ++ [None])) as (more & rc' & Hloop & Hg & Hall & Hnone).
    exists (None :: more), rc'. rewrite <- app_assoc in Hloop.
    split; [done|]. split; [done|]. split; [by constructor|].
    intros Hin. inversion Hin; subst. destruct (Hnone H2) as [-> ->]. by split. }
  destruct (all_waypoints !! sid) as [waypoints|] eqn:Hw; [|done].
  destruct (length waypoints <? 2)%nat eqn:Hlen; [done|].
  apply Nat.ltb_ge in Hlen.
  destruct (router rc (seg_region_ids !! sid) waypoints) as [r rc1] eqn:Hr.
  apply router_returns_line_or_nothing_aux in Hr as (Hg1 & Hshape).
  destruct r as [entry|e]; [|destruct Hshape as [-> _]; simpl in Hlen; lia].
  destruct (IH rc1 (matched ++ [entry])) as (more & rc' & Hloop & Hg & Hall & _).
  exists (entry :: more), rc'. rewrite <- app_assoc in Hloop.
  split; [done|]. split; [by eapply grown_from_trans|]. split.
  - constructor; [|done]. destruct entry as [l|]; [|done].
    split; [by destruct Hshape|]. by exists waypoints.
  - intros Hin. inversion Hin; subst. exfalso. apply H1. by exists waypoints.
Qed.

(** X11: [perform_map_matching_by_region] never raises and returns one
    entry per segment, in the order of the segments; an entry is absent or
    a line of at least two coordinates, and it is absent for every segment
    without waypoints or with fewer than two.  The cache object only
    grows, and such segments do not touch it: when no segment is eligible
    it is returned as it was, no request having been sent. *)
Theorem perform_map_matching_matches_every_segment
    (rc : RegionGraphCache) (segment_ids : list string)
    (all_waypoints : gmap string (list coord)) (seg_region_ids : gmap string Z) :
  exists matched rc',
    perform_map_matching_by_region rc segment_ids all_waypoints seg_region_ids
      = (Ok matched, rc') /\
    length matched = length segment_ids /\
    grown_from rc rc' /\
    (forall i sid, segment_ids !! i = Some sid ->
       exists entry, matched !! i = Some entry /\
         matched_entry all_waypoints sid entry /\
         (~ eligible all_waypoints sid -> entry = None)) /\
    (Forall (fun sid => ~ eligible all_waypoints sid) segment_ids ->
     rc' = rc /\ matched = replicate (length segment_ids) None).
Proof.
  unfold perform_map_matching_by_region.
  destruct (matching_loop_spec rc segment_ids all_waypoints seg_region_ids [])
    as (matched & rc' & Hloop & Hg & Hall & Hnone).
  exists matched, rc'. split; [done|].
  split; [symmetry; by eapply Forall2_length|]. split; [done|]. split; [|done].
  intros i sid Hi.
  destruct (Forall2_lookup_l _ _ _ _ _ Hall Hi) as (entry & He & Hentry).
  exists entry. split; [done|]. split; [done|].
  intros Hne. destruct entry as [l|]; [|done]. by destruct Hentry.
Qed.

(** ** matcher.py: more on the stitcher *)

(** Lines that the stitcher treats as matched. *)
Definition count_matched (matched_lines : list (option line)) : nat :=
  length (filter (fun m => is_unmatched m = false) matched_lines).

(** 1 when a chunk is being accumulated, 0 otherwise. *)
Definition open_chunk (s : stitch_state) : nat :=
  match merged_coords s with [] => 0 | _ => 1 end.

Definition two_or_more (c : line) : Prop := (2 <= length c)%nat.

(** The chunks emitted so far are well formed and, with the chunk being
    accumulated, no more than [k]. *)
Definition chunks_inv (k : nat) (s : stitch_state) : Prop :=
  Forall two_or_more (chunks s) /\ (length (chunks s) + open_chunk s <= k)%nat.

Lemma flush_chunk_inv k s :
  chunks_inv k s ->
  Forall two_or_more (chunks (flush_chunk s)) /\
  (length (chunks (flush_chunk s)) <= k)%nat /\
  merged_coords (flush_chunk s) = [].
Proof.
  intros [Hall Hk]. unfold flush_chunk, open_chunk in *. cbn [chunks merged_coords].
  destruct (2 <=? length (merged_coords s))%nat eqn:E.
  - apply Nat.leb_le in E. split; [|split; [|done]].
    + apply Forall_app. split; [done|]. by constructor.
    + rewrite length_app. simpl. destruct (merged_coords s); simpl in *; lia.
  - split; [done|]. split; [lia|done].
Qed.

Lemma force_split_inv k s l rid :
  chunks_inv k s -> l <> [] -> chunks_inv (S k) (force_split s l rid).
Proof.
  intros Hinv Hl. destruct (flush_chunk_inv k s Hinv) as (Hall & Hk & Hm).
  unfold force_split, start_with, chunks_inv, open_chunk. cbn [chunks merged_coords].
  rewrite Hm. split; [done|]. destruct l; [done|]. cbn [app]. lia.
Qed.

Lemma append_line_inv' k s l rid s' :
  chunks_inv k s -> append_line s l rid = Ok s' -> chunks_inv (S k) s'.
Proof.
  intros [Hall Hk]. unfold append_line.
  destruct (extend_dedup (merged_coords s) l) as [merged|]; rsimpl; [|done].
  intros H; inversion H; subst. unfold chunks_inv, open_chunk in *.
  cbn [chunks merged_coords]. split; [done|]. destruct merged; lia.
Qed.

Lemma stitch_step_chunks_inv ids k s i m s' :
  chunks_inv k s ->
  step_of ids s i m = Ok s' ->
  chunks_inv (k + count_matched [m]) s'.
Proof.
  intros Hinv. unfold stitch_step, count_matched.
  destruct (ids !! i) as [rid|]; [|done].
  destruct (is_unmatched m) eqn:Hm.
  { rewrite filter_cons_False by congruence. cbn. rewrite Nat.add_0_r.
    intros H; inversion H; subst.
    destruct (flush_chunk_inv k s Hinv) as (Hall & Hk & Hmerged).
    unfold chunks_inv, flush_and_reset, open_chunk. cbn [chunks merged_coords].
    rewrite Hmerged. split; [done|]. lia. }
  rewrite filter_cons_True by done. cbn [filter list_filter length].
  rewrite Nat.add_1_r.
  destruct m as [l|]; [|done].
  destruct (matched_line_shape l Hm) as (c0 & c1 & tl & ->).
  cbn [head]. change (last (c0 :: c1 :: tl)) with (last (c1 :: tl)).
  destruct (last (c1 :: tl)) as [finish|] eqn:E; [|by apply last_None in E].
  assert (Hb : forall p, bridge_or_split cfg provider nearest_nodes nearest_edges
              shortest_path geodesic s p c0 (c0 :: c1 :: tl) rid = Ok s' ->
            chunks_inv (S k) s').
  { intros p. unfold bridge_or_split.
    destruct (route_between_points_with_fallback _ _ _ _ _ _ _ _ _) as [r rc'].
    destruct r as [[b|]|e]; rsimpl; [| |done].
    - destruct (line_truthy b && (1 <? length b)%nat).
      + cbn [merged_coords chunks prev_end prev_rid reg_cache bridge_calls].
        destruct (extend_dedup (merged_coords s) b) as [merged|] eqn:Hext; [|done].
        apply append_line_inv'. destruct Hinv as [Hall Hk].
        unfold chunks_inv, open_chunk in *. cbn [chunks merged_coords].
        split; [done|]. unfold extend_dedup in Hext.
        destruct (merged_coords s); [done|]. destruct merged; simpl in *; lia.
      + intros H; inversion H; subst. by apply force_split_inv.
    - intros H; inversion H; subst. by apply force_split_inv. }
  destruct (prev_end s) as [p|].
  - repeat match goal with |- context [if ?b then _ else _] => destruct b end;
      intros H;
      first [ by (inversion H; subst; apply force_split_inv)
            | by (apply Hb in H)
            | by (eapply append_line_inv' in H) ].
  - intros H; inversion H; subst. destruct Hinv as [Hall Hk].
    unfold chunks_inv, start_with, open_chunk in *. cbn [chunks merged_coords].
    split; [done|]. destruct (merged_coords s); simpl in *; lia.
Qed.

Lemma stitch_loop_chunks_inv ids k s i matched_lines s' :
  chunks_inv k s ->
  loop_of ids s i matched_lines = Ok s' ->
  chunks_inv (k + count_matched matched_lines) s'.
Proof.
  revert k s i. induction matched_lines as [|m rest IH]; intros k s i Hinv; cbn [stitch_loop].
  - intros H; inversion H; subst. unfold count_matched. cbn. by rewrite Nat.add_0_r.
  - destruct (step_of ids s i m) as [s1|] eqn:Hs; rsimpl; [|done].
    intros H. apply (stitch_step_chunks_inv ids k) in Hs; [|done].
    apply (IH _ _ _ Hs) in H.
    replace (k + count_matched (m :: rest))%nat
      with (k + count_matched [m] + count_matched rest)%nat; [done|].
    unfold count_matched. destruct (decide (is_unmatched m = false)).
    + rewrite !filter_cons_True by done. simpl. lia.
    + rewrite !filter_cons_False by done. simpl. lia.
Qed.

Lemma stitch_chunks_shape rc matched_lines ids chunks0 :
  stitch_of rc matched_lines ids = Ok chunks0 ->
  Forall two_or_more chunks0 /\
  (length chunks0 <= count_matched matched_lines)%nat.
Proof.
  unfold stitch_and_merge_paths.
  destruct (loop_of ids (stitch_init rc) 0 matched_lines) as [s|] eqn:Hloop; rsimpl; [|done].
  intros H; inversion H; subst.
  apply (stitch_loop_chunks_inv ids 0) in Hloop.
  - destruct (flush_chunk_inv _ _ Hloop) as (Hall & Hk & _). by split.
  - split; [constructor|]. cbn. lia.
Qed.

(** X12: the chunks [stitch_and_merge_paths] returns hold at least two
    coordinates each, and there are no more of them than matched lines in
    the input (so none when no line is matched). *)
Theorem stitcher_chunks_are_well_formed
    (rc : RegionGraphCache) (matched_lines : list (option line))
    (seg_region_ids : list (option Z)) (chunks0 : list line) :
  stitch_of rc matched_lines seg_region_ids = Ok chunks0 ->
  Forall two_or_more chunks0 /\
  (length chunks0 <= count_matched matched_lines)%nat.
Proof. apply stitch_chunks_shape. Qed.

(** [valid_chunks = [ch for ch in merged_chunks if ch and not ch.is_empty]]
    of main.py. *)
Definition valid_chunks (merged_chunks : list line) : list line :=
  List.filter (fun ch => line_truthy ch && negb (length ch =? 0)%nat) merged_chunks.


Local Abbreviation pair_of :=
  (consecutive_pair cfg provider nearest_nodes nearest_edges shortest_path geodesic).
Local Abbreviation bridge_of :=
  (bridge_or_split cfg provider nearest_nodes nearest_edges shortest_path geodesic).

Lemma append_line_prev_rid s l rid s' :
  append_line s l rid = Ok s' -> prev_rid s' = rid.
Proof.
  unfold append_line. destruct (extend_dedup _ _); rsimpl; [|done].
  intros H; by inversion H.
Qed.

Lemma stitch_step_prev_rid ids s i (l : line) s' :
  is_unmatched (Some l) = false ->
  step_of ids s i (Some l) = Ok s' ->
  ids !! i = Some (prev_rid s').
Proof.
  intros Hl. unfold stitch_step. rewrite Hl.
  destruct (ids !! i) as [rid|]; [|done].
  destruct (head l) as [start|]; [|done].
  destruct (last l) as [finish|] eqn:Hlast; [|done].
  assert (Hb : forall p, bridge_of s p start l rid = Ok s' -> prev_rid s' = rid).
  { intros p. unfold bridge_or_split.
    destruct (route_between_points_with_fallback _ _ _ _ _ _ _ _ _) as [r rc'].
    destruct r as [[b|]|e]; rsimpl; [| |done].
    - destruct (line_truthy b && (1 <? length b)%nat).
      + destruct (extend_dedup _ b); [|done]. apply append_line_prev_rid.
      + intros H; by inversion H; subst.
    - intros H; by inversion H; subst. }
  destruct (prev_end s) as [p|].
  - repeat match goal with |- context [if ?b then _ else _] => destruct b end;
      intros H; f_equal; symmetry;
      first [ by (inversion H; subst)
            | by (apply Hb in H)
            | by (apply append_line_prev_rid in H) ].
  - intros H; by inversion H; subst.
Qed.

(** The gaps for which the stitcher asks the router for a bridge. *)
Definition bridge_range (gap : Q) : Prop :=
  ((GAP_BREAK_M cfg < gap)%Q /\ (gap <= MAX_BRIDGE_TRY_M cfg)%Q) \/
  ((gap <= GAP_BREAK_M cfg)%Q /\ (EPS_CONNECT_M < gap)%Q).

(** X14: the middle of the stitcher's decision.  For consecutive matched
    lines whose end-to-end distance is below MAX_END_TO_END_DIST_M and
    whose start gap is above GAP_BREAK_M but not above MAX_BRIDGE_TRY_M, or
    above EPS_CONNECT_M but not above GAP_BREAK_M, exactly one bridge
    request is sent to the router: from the previous endpoint to the
    line's start, for the previous line's region, or for the current
    line's when the previous region id is absent or 0.  The router does
    not raise.  If it returns a bridge, the bridge and then the line are
    appended to the current chunk (each less a repeated joint) and nothing
    is emitted; if it returns none, the current chunk is emitted and the
    line starts the next one. *)
Theorem mid_gap_is_bridged_or_split
    (seg_region_ids : list (option Z)) (rc : RegionGraphCache)
    (before : list (option line)) (l1 l2 : line) (s : stitch_state)
    (rid : option Z) (p start finish : coord) :
  pair_of seg_region_ids rc before l1 l2 s rid p start finish ->
  (end_to_end_m geodesic p finish < MAX_END_TO_END_DIST_M cfg)%Q ->
  bridge_range (gap_m geodesic p start) ->
  exists rid1 bridge rc' s',
    seg_region_ids !! length before = Some rid1 /\
    router (reg_cache s) (rid_for_gap rid1 rid) [p; start] = (Ok bridge, rc') /\
    step_of seg_region_ids s (S (length before)) (Some l2) = Ok s' /\
    bridge_calls s' = bridge_calls s ++ [(rid_for_gap rid1 rid, [p; start])] /\
    reg_cache s' = rc' /\
    prev_end s' = Some finish /\
    match bridge with
    | Some b =>
        chunks s' = chunks s /\
        exists b0 q, head b = Some b0 /\ last b = Some q /\
          merged_coords s' =
            (merged_coords s ++ (if coord_eqb p b0 then tail b else b))
            ++ (if coord_eqb q start then tail l2 else l2)
    | None =>
        chunks s' = chunks s ++ [merged_coords s] /\ merged_coords s' = l2
    end.
Proof.
  intros Hpair He2e Hrange.
  destruct (consecutive_pair_state _ _ _ _ _ _ _ _ _ _ _ _ _ _ _ _ Hpair) as [Hprev Hinv].
  destruct Hpair as (Hl1 & Hl2 & Hloop & Hrid & _ & Hstart & Hfinish).
  assert (Hrid1 : seg_region_ids !! length before = Some (prev_rid s)).
  { rewrite stitch_loop_app in Hloop.
    destruct (loop_of seg_region_ids (stitch_init rc) 0 before) as [s0|]; [|done].
    rsimpl_in Hloop. cbn [stitch_loop] in Hloop.
    destruct (step_of seg_region_ids s0 _ (Some l1)) as [s1|] eqn:Hs; [|done].
    rsimpl_in Hloop. inversion Hloop; subst.
    by apply stitch_step_prev_rid in Hs. }
  unfold stitch_inv in Hinv. rewrite Hprev in Hinv. destruct Hinv as [Hlast Hlen].
  exists (prev_rid s).
  destruct (router (reg_cache s) (rid_for_gap (prev_rid s) rid) [p; start])
    as [r rc'] eqn:Hr.
  apply router_returns_line_or_nothing_aux in Hr as Hshape.
  destruct Hshape as [_ Hshape].
  destruct r as [bridge|e]; [|by destruct Hshape].
  assert (Hstep : step_of seg_region_ids s (S (length before)) (Some l2)
                  = bridge_of s p start l2 rid).
  { unfold stitch_step. rewrite Hrid, Hl2, Hstart, Hfinish, Hprev.
    fold (gap_m geodesic p start). fold (end_to_end_m geodesic p finish).
    rewrite (Qle_bool_false _ _ He2e).
    destruct Hrange as [[H1 H2]|[H1 H2]].
    - by rewrite (Qlt_bool_true _ _ H1), (Qlt_bool_false _ _ H2).
    - by rewrite (Qlt_bool_false _ _ H1), (Qlt_bool_true _ _ H2). }
  rewrite Hstep. unfold bridge_or_split. rewrite Hr. rsimpl.
  exists bridge, rc'.
  destruct bridge as [b|].
  - destruct Hshape as [Hb _].
    assert (Hbm : is_unmatched (Some b) = false).
    { unfold is_unmatched. apply Nat.ltb_ge. lia. }
    assert (Husable : line_truthy b && (1 <? length b)%nat = true).
    { destruct (matched_line_shape b Hbm) as (c0 & c1 & tl & ->). done. }
    rewrite Husable. cbn [merged_coords chunks prev_end prev_rid reg_cache bridge_calls].
    destruct (extend_dedup_matched (merged_coords s) p b Hlast Hbm) as (Hext & Hlast' & _).
    rewrite Hext. rsimpl.
    destruct (matched_line_shape b Hbm) as (b0 & b1 & btl & ->).
    cbn [head default] in *.
    destruct (last (b0 :: b1 :: btl)) as [q|] eqn:Hq; [|by apply last_None in Hq].
    unfold append_line. cbn [merged_coords chunks prev_end prev_rid reg_cache bridge_calls].
    destruct (extend_dedup_matched _ q l2 Hlast' Hl2) as (Hext2 & _ & _).
    rewrite Hstart in Hext2. cbn [default] in Hext2. rewrite Hext2. rsimpl.
    eexists. split; [done|]. split; [done|]. split; [reflexivity|].
    cbn [merged_coords chunks prev_end prev_rid reg_cache bridge_calls].
    split; [done|]. split; [done|]. split; [done|]. split; [done|].
    by exists b0, q.
  - eexists. split; [done|]. split; [done|]. split; [reflexivity|].
    destruct (force_split_spec _ l2 rid Hlen) as (H1 & H2 & H3 & _ & _).
    unfold force_split, start_with, flush_chunk in *.
    cbn [merged_coords chunks prev_end prev_rid reg_cache bridge_calls] in *.
    split; [done|]. split; [done|]. split; [done|]. done.
Qed.

End MatcherMore.

(** The router on a 222 m gap with the provider down: no bridge, no
    error, and the cache object has only grown. *)
Lemma router_returns_line_or_nothing_witness :
  grown_from rc_seoul
    (snd (route_between_points_with_fallback cfg0 provider_down scan_nearest_nodes
            no_nearest_edges one_hop_path flat_geodesic rc_seoul (Some 1%Z)
            [pt 127.001 37.5; pt 127.003 37.5])).
Proof.
  exact (proj1 (router_returns_line_or_nothing cfg0 provider_down scan_nearest_nodes
                  no_nearest_edges one_hop_path flat_geodesic rc_seoul _ (Some 1%Z)
                  [pt 127.001 37.5; pt 127.003 37.5] _ eq_refl)).
Defined.

(** The same call sends six point requests and then two box requests. *)
Lemma router_request_budget_witness :
  exists points boxes,
    requests (snd (route_between_points_with_fallback cfg0 provider_down
                     scan_nearest_nodes no_nearest_edges one_hop_path flat_geodesic
                     rc_seoul (Some 1%Z) [pt 127.001 37.5; pt 127.003 37.5]))
      = requests rc_seoul ++ points ++ boxes /\
    (length points <= 6)%nat /\ (length boxes <= 2)%nat.
Proof.
  destruct (router_request_budget cfg0 provider_down scan_nearest_nodes
              no_nearest_edges one_hop_path flat_geodesic rc_seoul _ (Some 1%Z)
              [pt 127.001 37.5; pt 127.003 37.5] _ eq_refl)
    as (points & boxes & H1 & _ & _ & H2 & H3 & _).
  by exists points, boxes.
Defined.

(** Two matched lines far apart: two chunks of two coordinates each. *)
Lemma stitcher_chunks_are_well_formed_witness :
  Forall two_or_more [line_a; line_far] /\
  (length [line_a; line_far] <= count_matched [Some line_a; Some line_far])%nat.
Proof.
  apply (stitcher_chunks_are_well_formed cfg0 provider_down scan_nearest_nodes
           no_nearest_edges one_hop_path flat_geodesic rc_seoul
           [Some line_a; Some line_far] ids2).
  by vm_compute.
Defined.

(** A 222 m gap under the first configuration: a bridge is asked for
    region 1 and, the provider being down, the chunk is split. *)
Lemma mid_gap_is_bridged_or_split_witness :
  exists rid1 bridge rc' s',
    ids2 !! 0%nat = Some rid1 /\
    route_between_points_with_fallback cfg0 provider_down scan_nearest_nodes
      no_nearest_edges one_hop_path flat_geodesic (reg_cache s_after_a)
      (rid_for_gap rid1 (Some 1%Z)) [pt 127.001 37.5; pt 127.003 37.5] = (Ok bridge, rc') /\
    stitch_step cfg0 provider_down scan_nearest_nodes no_nearest_edges one_hop_path
      flat_geodesic ids2 s_after_a 1 (Some line_mid) = Ok s' /\
    bridge_calls s' = bridge_calls s_after_a
      ++ [(rid_for_gap rid1 (Some 1%Z), [pt 127.001 37.5; pt 127.003 37.5])].
Proof.
  destruct (mid_gap_is_bridged_or_split cfg0 provider_down scan_nearest_nodes
              no_nearest_edges one_hop_path flat_geodesic ids2 rc_seoul [] line_a
              line_mid s_after_a (Some 1%Z) (pt 127.001 37.5) (pt 127.003 37.5)
              (pt 127.004 37.5))
    as (rid1 & bridge & rc' & s' & H1 & H2 & H3 & H4 & _).
  - by apply pair_after_a_holds.
  - by vm_compute.
  - right. split; by vm_compute.
  - by exists rid1, bridge, rc', s'.
Defined.

(** ** visualizer.py: the groups partition the chunks *)

Section ComponentsMore.

Variable n : nat.
Variable edges : list (nat * nat).
Hypothesis edges_in_range :
  forall i j, (i, j) ∈ edges -> (i < n)%nat /\ (j < n)%nat.

Lemma plain_bfs_nodup fuel src seen queue :
  bfs_inv n edges src seen queue ->
  NoDup (plain_bfs fuel edges seen queue).
Proof.
  revert seen queue. induction fuel as [|fuel IH]; intros seen queue Hinv.
  - destruct queue; apply (inv_nodup _ _ _ _ _ Hinv).
  - destruct queue as [|v q]; [apply (inv_nodup _ _ _ _ _ Hinv)|].
    cbn [plain_bfs].
    destruct (bfs_inv_step n edges edges_in_range _ _ _ _ Hinv) as (new & -> & Hinv').
    cbn [fst snd]. by apply IH.
Qed.

Lemma component_in_range src u :
  (src < n)%nat -> u ∈ plain_bfs n edges [src] [src] -> (u < n)%nat.
Proof.
  intros Hsrc Hu. apply (plain_bfs_component n edges edges_in_range src Hsrc) in Hu.
  assert (Hin : u ∈ seq 0 n).
  { apply (closed_contains_component edges src (seq 0 n)); [..|done].
    - apply elem_of_seq. lia.
    - intros x w _ Hl. apply (linked_in_range n edges edges_in_range) in Hl.
      apply elem_of_seq. lia. }
  apply elem_of_seq in Hin. lia.
Qed.

Lemma components_loop_concat nodes seen :
  (forall u, u ∈ nodes -> (u < n)%nat) ->
  closed edges seen ->
  NoDup (concat (components_loop n edges nodes seen)) /\
  (forall u, u ∈ concat (components_loop n edges nodes seen) ->
     (u < n)%nat /\ u ∉ seen) /\
  Forall (fun c => c <> []) (components_loop n edges nodes seen).
Proof.
  revert seen. induction nodes as [|x rest IH]; intros seen Hrange Hclosed.
  { cbn. split; [constructor|]. split; [|constructor].
    intros u Hu. by apply elem_of_nil in Hu. }
  assert (Hrest : forall u, u ∈ rest -> (u < n)%nat).
  { intros u Hu. apply Hrange. by right. }
  cbn [components_loop].
  destruct (decide (x ∈ seen)) as [Hx|Hx]; [by apply IH|].
  assert (Hx' : (x < n)%nat) by (apply Hrange; by left).
  assert (Hcl : closed edges (seen ++ plain_bfs n edges [x] [x])).
  { apply closed_app; [done|by apply component_closed]. }
  destruct (IH _ Hrest Hcl) as (Hnd & Hfresh & Hne).
  cbn [concat]. split; [|split].
  - apply NoDup_app. split; [|split; [|done]].
    + apply (plain_bfs_nodup n x). by apply bfs_inv_start.
    + intros u Hu Hu'. apply Hfresh in Hu' as [_ Hu']. apply Hu', elem_of_app. by right.
  - intros u Hu. apply elem_of_app in Hu as [Hu|Hu].
    + split; [by eapply component_in_range|].
      intros Hin. apply Hx.
      apply (closed_contains_component edges u seen Hin Hclosed).
      apply rtc_linked_sym. by apply (plain_bfs_component n edges edges_in_range x Hx').
    + apply Hfresh in Hu as [Hlt Hu]. split; [done|].
      intros Hin. apply Hu, elem_of_app. by left.
  - constructor; [|done]. intros Hnil.
    assert (Hin : x ∈ plain_bfs n edges [x] [x]).
    { by apply (plain_bfs_component n edges edges_in_range x Hx'). }
    rewrite Hnil in Hin. by apply elem_of_nil in Hin.
Qed.

Lemma connected_components_partition :
  concat (connected_components n edges) ≡ₚ seq 0 n /\
  Forall (fun c => c <> []) (connected_components n edges).
Proof.
  assert (Hrange : forall u, u ∈ seq 0 n -> (u < n)%nat).
  { intros u Hu. apply elem_of_seq in Hu. lia. }
  destruct (components_loop_concat (seq 0 n) [] Hrange) as (Hnd & Hin & Hne).
  { intros u w Hu. by apply elem_of_nil in Hu. }
  split; [|done].
  apply NoDup_Permutation; [done|apply NoDup_seq|].
  intros u. split.
  - intros Hu. apply Hin in Hu as [Hlt _]. apply elem_of_seq. lia.
  - intros Hu. apply Hrange in Hu.
    destruct (connected_components_spec n edges edges_in_range) as (Hcover & _).
    destruct (Hcover u Hu) as (g & Hg & Hug).
    apply list_elem_of_In, in_concat. exists g.
    split; by apply list_elem_of_In.
Qed.

End ComponentsMore.

Lemma omap_lookup_seq_from {A} (l pre : list A) :
  omap (fun i => (pre ++ l) !! i) (seq (length pre) (length l)) = l.
Proof.
  revert pre. induction l as [|x l IH]; intros pre; [done|].
  cbn [length seq]. cbn [omap list_omap].
  rewrite lookup_app_r, Nat.sub_diag by lia. cbn [lookup list_lookup]. f_equal.
  specialize (IH (pre ++ [x])). rewrite <- app_assoc, length_app in IH.
  cbn [length app] in IH. rewrite Nat.add_1_r in IH. exact IH.
Qed.

Lemma omap_lookup_seq {A} (l : list A) :
  omap (fun i => l !! i) (seq 0 (length l)) = l.
Proof. exact (omap_lookup_seq_from l []). Qed.

Section VisualizerMore.

Variable distance : line -> line -> Q.

(** X15: the groups are a partition of the chunks.  Flattened (as
    main.py does to get [all_lines_flat]) they hold exactly the input
    chunks, each once, so no chunk is lost or drawn twice; no group is
    empty, and an empty input gives no group. *)
Theorem grouping_partitions_the_chunks (lines : list line) (tol_deg : Q) :
  concat (group_lines_by_connectivity distance lines tol_deg) ≡ₚ lines /\
  Forall (fun g => g <> []) (group_lines_by_connectivity distance lines tol_deg) /\
  (length (group_lines_by_connectivity distance lines tol_deg) <= length lines)%nat /\
  (lines = [] -> group_lines_by_connectivity distance lines tol_deg = []).
Proof.
  destruct (connected_components_partition (length lines)
              (close_pairs distance lines tol_deg)
              (close_pairs_in_range distance lines tol_deg)) as [Hperm Hne].
  fold (group_indices distance lines tol_deg) in Hperm, Hne.
  assert (Hflat : concat (group_lines_by_connectivity distance lines tol_deg) ≡ₚ lines).
  { assert (Hmap : forall gs : list (list nat),
              concat (map (fun comp => omap (fun i => lines !! i) comp) gs)
              = omap (fun i => lines !! i) (concat gs)).
    { induction gs as [|g gs IH]; [done|].
      cbn [map concat]. rewrite omap_app. by rewrite IH. }
    unfold group_lines_by_connectivity. destruct lines as [|l0 lines']; [done|].
    rewrite Hmap.
    etrans; [apply omap_Permutation; exact Hperm|].
    by rewrite omap_lookup_seq. }
  assert (Hgroups : Forall (fun g => g <> [])
            (group_lines_by_connectivity distance lines tol_deg)).
  { unfold group_lines_by_connectivity. destruct lines as [|l0 lines']; [constructor|].
    set (ls := l0 :: lines') in *.
    assert (Hin : forall g, g ∈ group_indices distance ls tol_deg ->
              forall i, i ∈ g -> (i < length ls)%nat).
    { intros g Hg i Hi.
      assert (Hc : i ∈ concat (group_indices distance ls tol_deg)).
      { apply list_elem_of_In, in_concat. exists g. split; by apply list_elem_of_In. }
      rewrite Hperm in Hc. apply elem_of_seq in Hc. lia. }
    apply Forall_fmap. apply Forall_forall. intros g Hg. cbn.
    rewrite Forall_forall in Hne. specialize (Hne g Hg).
    destruct g as [|i g']; [done|].
    destruct (lookup_lt_is_Some_2 ls i) as [x Hx]; [apply (Hin _ Hg); by left|].
    cbn. by rewrite Hx. }
  split; [done|]. split; [done|]. split; [|by intros ->].
  apply Permutation_length in Hflat. rewrite <- Hflat. clear -Hgroups.
  induction Hgroups as [|g gs Hg _ IH]; [done|].
  cbn [concat length]. rewrite length_app. destruct g; [done|]. simpl. lia.
Qed.

End VisualizerMore.

Lemma plain_bfs_no_edges (fuel v : nat) : plain_bfs fuel [] [v] [v] = [v].
Proof. destruct fuel as [|[|fuel]]; reflexivity. Qed.

Lemma components_loop_no_edges (n : nat) (nodes seen : list nat) :
  NoDup nodes ->
  (forall u, u ∈ nodes -> u ∉ seen) ->
  components_loop n [] nodes seen = map (fun i => [i]) nodes.
Proof.
  revert seen. induction nodes as [|x rest IH]; intros seen Hnd Hfresh; [done|].
  cbn [components_loop map]. rewrite plain_bfs_no_edges.
  apply NoDup_cons in Hnd as [Hx Hnd].
  destruct (decide (x ∈ seen)) as [Hin|_]; [by destruct (Hfresh x); [left|]|].
  f_equal. apply IH; [done|].
  intros u Hu Hin. apply elem_of_app in Hin as [Hin|Hin].
  - by apply (Hfresh u); [right|].
  - apply list_elem_of_singleton in Hin as ->. done.
Qed.

Lemma singletons_lookup_seq_from {A} (l pre : list A) :
  map (fun comp => omap (fun i => (pre ++ l) !! i) comp)
      (map (fun i => [i]) (seq (length pre) (length l)))
  = map (fun x => [x]) l.
Proof.
  revert pre. induction l as [|x l IH]; intros pre; [done|].
  cbn [length seq map]. cbn [omap list_omap].
  rewrite lookup_app_r, Nat.sub_diag by lia. cbn [lookup list_lookup]. f_equal.
  specialize (IH (pre ++ [x])). rewrite <- app_assoc, length_app in IH.
  cbn [length app] in IH. rewrite Nat.add_1_r in IH. exact IH.
Qed.

Section VisualizerAlone.

Variable distance : line -> line -> Q.

(** X16: when no two chunks are closer than the tolerance (as with a
    tolerance of zero and a distance that is never negative), every chunk
    is a group of its own, and the groups come in the order of the
    chunks. *)
Theorem grouping_without_neighbours (lines : list line) (tol_deg : Q) :
  (forall i j a b, (i < j)%nat -> lines !! i = Some a -> lines !! j = Some b ->
     (tol_deg <= distance a b)%Q) ->
  group_lines_by_connectivity distance lines tol_deg = map (fun l => [l]) lines.
Proof.
  intros Hfar.
  assert (Hnone : close_pairs distance lines tol_deg = []).
  { destruct (close_pairs distance lines tol_deg) as [|[i j] ps] eqn:E; [done|].
    assert (Hin : (i, j) ∈ close_pairs distance lines tol_deg) by (rewrite E; by left).
    apply close_pairs_spec in Hin as (Hlt & a & b & Ha & Hb & Hd).
    specialize (Hfar i j a b Hlt Ha Hb). lra. }
  unfold group_lines_by_connectivity, group_indices, connected_components.
  rewrite Hnone.
  destruct lines as [|l0 lines']; [done|].
  rewrite components_loop_no_edges.
  - exact (singletons_lookup_seq_from (l0 :: lines') []).
  - apply NoDup_seq.
  - intros u _. apply not_elem_of_nil.
Qed.

End VisualizerAlone.

(** Far-apart chunks under the first-point distance. *)
Lemma grouping_without_neighbours_witness :
  group_lines_by_connectivity first_point_distance [chunk_a; chunk_d] 0.2%Q
  = [[chunk_a]; [chunk_d]].
Proof.
  apply (grouping_without_neighbours first_point_distance [chunk_a; chunk_d] 0.2%Q).
  intros [|[|i]] [|[|[|j]]] a b Hlt Ha Hb; try lia; try done.
  inversion Ha; inversion Hb; subst. by vm_compute.
Defined.

(** ** utils.py: from merged geometry to islands *)

(** [if (lat, lon) != cleaned[-1]: cleaned.append((lat, lon))]; [cleaned]
    is never empty where the code does this. *)
Definition append_if_moved (cleaned : list coord) (c : coord) : list coord :=
  match last cleaned with
  | Some l => if coord_eqb c l then cleaned else cleaned ++ [c]
  | None => cleaned ++ [c]
  end.

(** The body of the loop of [_coords_from_lines] for one geometry: the
    island it adds, if any. *)
Definition clean_line (ln : line) : option (list coord) :=
  if line_truthy ln && (1 <? length ln)%nat then
    match map swap_coord ln with
    | c0 :: rest =>
        let cleaned := fold_left append_if_moved rest [c0] in
        if (1 <? length cleaned)%nat then Some cleaned else None
    | [] => None
    end
  else None.

Definition _coords_from_lines (geom_list : list line) : list (list coord) :=
  omap clean_line geom_list.

(** What [linemerge(unary_union(lines))] may return. *)
Inductive geometry : Type :=
| GLineString (l : line)
| GMultiLineString (geoms : list line)
| GOther.

Section MergeAndSimplify.

(** shapely's [unary_union] followed by [linemerge]. *)
Variable union_and_merge : list line -> geometry.

Definition merge_and_simplify_lines (lines : list line) : list (list coord) :=
  let unique_lines :=
    match union_and_merge lines with
    | GLineString l => [l]
    | GMultiLineString geoms => geoms
    | GOther => []
    end in
  _coords_from_lines unique_lines.

End MergeAndSimplify.

(** No point of the list is followed by an equal point. *)
Definition no_point_twice_in_a_row (l : list coord) : Prop :=
  forall i a b, l !! i = Some a -> l !! S i = Some b -> coord_eqb b a = false.

Lemma fold_append_if_moved (rest acc : list coord) :
  acc <> [] ->
  no_point_twice_in_a_row acc ->
  no_point_twice_in_a_row (fold_left append_if_moved rest acc) /\
  head (fold_left append_if_moved rest acc) = head acc /\
  (forall c, c ∈ fold_left append_if_moved rest acc -> c ∈ acc ++ rest).
Proof.
  revert acc. induction rest as [|x rest IH]; intros acc Hne Hacc; cbn [fold_left].
  - rewrite app_nil_r. by repeat split.
  - assert (Hcase : append_if_moved acc x = acc \/
              (append_if_moved acc x = acc ++ [x] /\
               forall l, last acc = Some l -> coord_eqb x l = false)).
    { unfold append_if_moved. destruct (last acc) as [l|] eqn:El.
      - destruct (coord_eqb x l) eqn:E; [by left|].
        right. split; [done|]. intros l' Hl'. by inversion Hl'; subst.
      - right. split; [done|]. done. }
    destruct Hcase as [->|[-> Hx]].
    + destruct (IH acc Hne Hacc) as (H1 & H2 & H3).
      split; [done|]. split; [done|].
      intros c Hc. apply H3 in Hc. rewrite !elem_of_app, elem_of_cons in *. tauto.
    + destruct (IH (acc ++ [x])) as (H1 & H2 & H3).
      { by destruct acc. }
      { intros i a b Ha Hb.
        destruct (decide (S i < length acc)%nat) as [Hlt|Hge].
        - rewrite lookup_app_l in Ha by lia. rewrite lookup_app_l in Hb by lia.
          by apply (Hacc i).
        - pose proof (lookup_lt_Some _ _ _ Hb) as Hb'.
          rewrite length_app in Hb'. simpl in Hb'.
          assert (S i = length acc) as Hi by lia.
          rewrite lookup_app_l in Ha by lia.
          rewrite lookup_app_r in Hb by lia. rewrite Hi, Nat.sub_diag in Hb.
          inversion Hb; subst b. apply Hx.
          rewrite last_lookup. rewrite <- Hi. exact Ha. }
      split; [done|]. split.
      * rewrite H2. by destruct acc.
      * intros c Hc. apply H3 in Hc. by rewrite <- app_assoc in Hc.
Qed.

Lemma clean_line_spec (ln : line) (island : list coord) :
  clean_line ln = Some island ->
  (2 <= length island)%nat /\
  no_point_twice_in_a_row island /\
  head island = swap_coord <$> head ln /\
  (forall c, c ∈ island -> exists c', c' ∈ ln /\ c = swap_coord c').
Proof.
  unfold clean_line.
  destruct (line_truthy ln && (1 <? length ln)%nat); [|done].
  destruct ln as [|c0 rest]; [done|]. cbn [map].
  destruct (1 <? length (fold_left append_if_moved (map swap_coord rest) [swap_coord c0]))%nat
    eqn:Hlen; [|done].
  intros H; inversion H; subst; clear H.
  destruct (fold_append_if_moved (map swap_coord rest) [swap_coord c0]) as (H1 & H2 & H3).
  { done. }
  { intros i a b Ha Hb. by destruct i. }
  apply Nat.ltb_lt in Hlen. split; [lia|]. split; [done|]. split; [done|].
  intros c Hc. apply H3 in Hc.
  change ([swap_coord c0] ++ map swap_coord rest) with (map swap_coord (c0 :: rest)) in Hc.
  apply list_elem_of_fmap in Hc as (c' & -> & Hc'). by exists c'.
Qed.


(** ** utils.py: how many points the resampler emits *)

Section UtilsMore.

Variable geodesic : coord -> coord -> Q.

Local Abbreviation emit := (emit_samples).
Local Abbreviation walk := (walk_island geodesic).
Local Abbreviation resample := (interpolate_continuous_coords_global geodesic).

(** The length of a polyline: the sum of the geodesic lengths of its
    segments. *)
Fixpoint path_length (segment : list coord) : Q :=
  match segment with
  | p1 :: ((p2 :: _) as rest) => (geodesic p1 p2 + path_length rest)%Q
  | _ => 0%Q
  end.

Definition Qnat (k : nat) : Q := inject_Z (Z.of_nat k).

Lemma Qnat_succ (k : nat) : Qnat (S k) == Qnat k + 1.
Proof. apply inject_nat_succ. Qed.

Lemma emit_samples_count fuel step_m seg_dist p1 p2 pts ds tr pts' ds' tr' :
  (0 < step_m)%Q ->
  (0 <= ds)%Q -> (ds < step_m)%Q -> (0 <= tr)%Q -> (tr <= seg_dist)%Q ->
  emit fuel step_m seg_dist p1 p2 pts ds tr = Some (pts', ds', tr') ->
  exists new, pts' = pts ++ new /\
    (Qnat (length new) * step_m + ds' - tr' == ds - tr)%Q /\
    (0 <= ds')%Q /\ (tr' <= seg_dist)%Q /\ (ds' + (seg_dist - tr') < step_m)%Q.
Proof.
  intros Hstep. revert pts ds tr.
  induction fuel as [|fuel IH]; intros pts ds tr Hds0 Hds Htr0 Htr H; [done|].
  cbn [emit_samples] in H.
  destruct (Qle_bool step_m (ds + (seg_dist - tr))) eqn:Hc.
  - apply Qle_bool_iff in Hc.
    apply IH in H; [|lra..].
    destruct H as (new & -> & Hcount & Hrest).
    eexists (_ :: new). split; [by rewrite <- app_assoc|]. split; [|done].
    cbn [length]. rewrite Qnat_succ. lra.
  - inversion H; subst. exists []. split; [by rewrite app_nil_r|].
    split; [change (Qnat (length (@nil coord))) with 0%Q; lra|]. split; [done|]. split; [done|].
    apply Qnot_le_lt. intros Hle. apply Qle_bool_iff in Hle. congruence.
Qed.

Lemma walk_island_count fuel step_m segment pts ds pts' :
  (0 < step_m)%Q ->
  (forall a b, (0 <= geodesic a b)%Q) ->
  (0 <= ds)%Q -> (ds < step_m)%Q ->
  walk fuel step_m segment pts ds = Some pts' ->
  exists new rest_m, pts' = pts ++ new /\
    (Qnat (length new) * step_m + rest_m == ds + path_length segment)%Q /\
    (0 <= rest_m)%Q /\ (rest_m < step_m)%Q.
Proof.
  intros Hstep Hgeo. revert pts ds.
  induction segment as [|p1 rest IH]; intros pts ds Hds0 Hds H.
  { inversion H; subst. exists [], ds. rewrite app_nil_r.
    split; [done|]. split; [cbn [path_length]; change (Qnat (length (@nil coord))) with 0%Q; lra|done]. }
  destruct rest as [|p2 rest'].
  { inversion H; subst. exists [], ds. rewrite app_nil_r.
    split; [done|]. split; [cbn [path_length]; change (Qnat (length (@nil coord))) with 0%Q; lra|done]. }
  rewrite walk_island_step in H.
  destruct (emit fuel step_m (geodesic p1 p2) p1 p2 pts ds 0)
    as [[[pts1 ds1] tr1]|] eqn:He; [|done].
  apply emit_samples_count in He; [|done|done|done|lra|apply Hgeo].
  destruct He as (new1 & -> & Hc1 & Hds1 & Htr1 & Hlt).
  apply IH in H; [|lra..].
  destruct H as (new2 & rest_m & -> & Hc2 & Hr0 & Hr).
  exists (new1 ++ new2), rest_m. split; [by rewrite app_assoc|]. split; [|done].
  assert (Hsum : Qnat (length (new1 ++ new2)) == Qnat (length new1) + Qnat (length new2)).
  { unfold Qnat. by rewrite length_app, Nat2Z.inj_add, inject_Z_plus. }
  rewrite Hsum.
  change (path_length (p1 :: p2 :: rest'))
    with (geodesic p1 p2 + path_length (p2 :: rest'))%Q.
  lra.
Qed.


End UtilsMore.


(** ** utils.py: resampling a single line *)

Section LinestringEvery.

Variable geodesic : coord -> coord -> Q.

(** The [while] loop of [interpolate_linestring_every] on the way from
    [last] to [cur] (both [(lon, lat)]); the samples are [(lat, lon)]. *)
Fixpoint every_while (fuel : nat) (step_m : Q) (cur last : coord)
    (samples : list coord) (dist_since seg_len : Q)
    : option (list coord * Q * Q) :=
  match fuel with
  | O => None
  | S fuel' =>
      if Qle_bool step_m (dist_since + seg_len) then
        let need := (step_m - dist_since)%Q in
        let ratio := if Qlt_bool 0 seg_len then (need / seg_len)%Q else 0%Q in
        let interp_lon := (fst last + (fst cur - fst last) * ratio)%Q in
        let interp_lat := (snd last + (snd cur - snd last) * ratio)%Q in
        every_while fuel' step_m cur (interp_lon, interp_lat)
          (samples ++ [(interp_lat, interp_lon)]) 0 (seg_len - need)
      else Some (samples, dist_since, seg_len)
  end.

(** The loop [for i in range(1, len(pts))]. *)
Fixpoint every_walk (fuel : nat) (step_m : Q) (pts : list coord) (last : coord)
    (samples : list coord) (dist_since : Q) : option (list coord) :=
  match pts with
  | [] => Some samples
  | cur :: rest =>
      let seg_len := geodesic (swap_coord last) (swap_coord cur) in
      match every_while fuel step_m cur last samples dist_since seg_len with
      | None => None
      | Some (samples', ds, seg_len') =>
          every_walk fuel step_m rest cur samples' (ds + seg_len')
      end
  end.

Definition end_tolerance : Q := 1 # 10000000.

(** The last statements: the line's end point is added unless the last
    sample is already on it. *)
Definition close_with_end (samples : list coord) (last_pt : coord) : list coord :=
  match last samples with
  | Some (last_sample_lat, last_sample_lon) =>
      if Qlt_bool end_tolerance (Qabs (last_sample_lon - fst last_pt))
         || Qlt_bool end_tolerance (Qabs (last_sample_lat - snd last_pt))
      then samples ++ [swap_coord last_pt] else samples
  | None => samples
  end.

Definition interpolate_linestring_every (fuel : nat) (l : line) (step_m : Q)
    : option (list coord) :=
  if negb (line_truthy l) || (length l <? 2)%nat then Some []
  else
    match l, last l with
    | p0 :: rest, Some last_pt =>
        match every_walk fuel step_m rest p0 [swap_coord p0] 0 with
        | None => None
        | Some samples => Some (close_with_end samples last_pt)
        end
    | _, _ => Some []
    end.

Lemma every_while_extends fuel step_m cur last samples ds seg_len r :
  every_while fuel step_m cur last samples ds seg_len = Some r ->
  exists new, fst (fst r) = samples ++ new.
Proof.
  revert last samples ds seg_len.
  induction fuel as [|fuel IH]; intros last samples ds seg_len H; [done|].
  cbn [every_while] in H. destruct (Qle_bool step_m (ds + seg_len)).
  - apply IH in H as (new & ->). eexists. by rewrite <- app_assoc.
  - inversion H; subst. exists []. by rewrite app_nil_r.
Qed.

Lemma every_walk_extends fuel step_m pts last samples ds samples' :
  every_walk fuel step_m pts last samples ds = Some samples' ->
  exists new, samples' = samples ++ new.
Proof.
  revert last samples ds. induction pts as [|cur rest IH]; intros last samples ds H.
  { inversion H; subst. exists []. by rewrite app_nil_r. }
  cbn [every_walk] in H.
  destruct (every_while fuel step_m cur last samples ds _) as [[[s1 ds1] sl1]|] eqn:He;
    [|done].
  apply every_while_extends in He as (new1 & Hs1). cbn in Hs1. subst s1.
  apply IH in H as (new2 & ->). eexists. by rewrite <- app_assoc.
Qed.

Lemma close_with_end_spec (samples : list coord) (last_pt : coord) :
  samples <> [] ->
  head (close_with_end samples last_pt) = head samples /\
  exists s, last (close_with_end samples last_pt) = Some s /\
    (Qabs (snd s - fst last_pt) <= end_tolerance)%Q /\
    (Qabs (fst s - snd last_pt) <= end_tolerance)%Q.
Proof.
  intros Hne. unfold close_with_end.
  destruct (last samples) as [[s_lat s_lon]|] eqn:El; [|by apply last_None in El].
  destruct (Qlt_bool end_tolerance (Qabs (s_lon - fst last_pt))
            || Qlt_bool end_tolerance (Qabs (s_lat - snd last_pt))) eqn:E.
  - split; [by destruct samples|].
    exists (swap_coord last_pt). rewrite last_snoc. split; [done|].
    unfold swap_coord. cbn [fst snd].
    assert (Hz : forall x : Q, (Qabs (x - x) <= end_tolerance)%Q).
    { intros x. apply Qabs_Qle_condition. unfold end_tolerance. split; lra. }
    by split.
  - split; [done|]. exists (s_lat, s_lon). split; [done|].
    apply orb_false_elim in E as [E1 E2]. cbn [fst snd].
    unfold Qlt_bool in E1, E2. apply negb_false_iff in E1, E2.
    apply Qle_bool_iff in E1, E2. by split.
Qed.

Lemma every_while_terminates fuel step_m cur last samples ds seg_len :
  (0 < step_m)%Q ->
  (ds + seg_len < step_m * inject_Z (Z.of_nat fuel))%Q ->
  exists r, every_while (S fuel) step_m cur last samples ds seg_len = Some r.
Proof.
  intros Hstep. revert last samples ds seg_len.
  induction fuel as [|fuel IH]; intros last samples ds seg_len Hq; cbn [every_while].
  - rewrite Qle_bool_false; [by eauto|].
    change (inject_Z (Z.of_nat 0)) with 0%Q in Hq. lra.
  - destruct (Qle_bool step_m (ds + seg_len)) eqn:Hc; [|by eauto].
    apply IH. rewrite inject_nat_succ in Hq. lra.
Qed.

Lemma every_while_mono fuel fuel' step_m cur last samples ds seg_len r :
  (fuel <= fuel')%nat ->
  every_while fuel step_m cur last samples ds seg_len = Some r ->
  every_while fuel' step_m cur last samples ds seg_len = Some r.
Proof.
  revert fuel' last samples ds seg_len.
  induction fuel as [|fuel IH]; intros fuel' last samples ds seg_len Hle H; [done|].
  destruct fuel' as [|fuel']; [lia|]. cbn [every_while] in *.
  destruct (Qle_bool step_m (ds + seg_len)); [|done]. apply IH; [lia|done].
Qed.

Lemma every_walk_mono fuel fuel' step_m pts last samples ds r :
  (fuel <= fuel')%nat ->
  every_walk fuel step_m pts last samples ds = Some r ->
  every_walk fuel' step_m pts last samples ds = Some r.
Proof.
  intros Hle. revert last samples ds.
  induction pts as [|cur rest IH]; intros last samples ds H; [done|].
  cbn [every_walk] in *.
  destruct (every_while fuel step_m cur last samples ds _) as [[[s1 ds1] sl1]|] eqn:He;
    [|done].
  rewrite (every_while_mono _ _ _ _ _ _ _ _ _ Hle He). by apply IH.
Qed.

Lemma every_walk_total step_m pts last samples ds :
  (0 < step_m)%Q ->
  exists fuel r, every_walk fuel step_m pts last samples ds = Some r.
Proof.
  intros Hstep. revert last samples ds.
  induction pts as [|cur rest IH]; intros last samples ds; [by exists 0%nat, samples|].
  destruct (multiple_above step_m
              (ds + geodesic (swap_coord last) (swap_coord cur)) Hstep) as [k Hk].
  destruct (every_while_terminates k step_m cur last samples ds _ Hstep Hk)
    as ([[s1 ds1] sl1] & He).
  destruct (IH cur s1 (ds1 + sl1)%Q) as (f2 & r & Hw).
  exists (S k `max` f2)%nat, r. cbn [every_walk].
  rewrite (every_while_mono (S k) _ _ _ _ _ _ _ _ (Nat.le_max_l (S k) f2) He).
  by apply (every_walk_mono f2 _ _ _ _ _ _ _ (Nat.le_max_r (S k) f2)).
Qed.


End LinestringEvery.

(** ** data_loader.py *)

(** [dists.idxmin()] on the default index: the position of the first
    smallest distance. *)
Fixpoint idxmin_from (best_i : nat) (best : Q) (i : nat) (dists : list Q) : nat :=
  match dists with
  | [] => best_i
  | d :: rest =>
      if Qlt_bool d best then idxmin_from i d (S i) rest
      else idxmin_from best_i best (S i) rest
  end.

(** [None]: pandas raises on an empty table. *)
Definition idxmin (dists : list Q) : option nat :=
  match dists with
  | [] => None
  | d :: rest => Some (idxmin_from 0 d 1 rest)
  end.

(** A row of the sorted path table, as far as the waypoint extraction
    reads it. *)
Record path_row : Type := {
  segment_id : string;
  longitude : Q;
  latitude : Q
}.

Definition lon_lat (r : path_row) : coord := (longitude r, latitude r).

(** The keys of [groupby(..., sort=False)] and the values of [unique()]:
    each one once, in the order of first appearance. *)
Fixpoint unique_in_order (ids : list string) : list string :=
  match ids with
  | [] => []
  | x :: rest => x :: filter (fun y => y <> x) (unique_in_order rest)
  end.

Definition groupby_segment_id (df : list path_row) : list (string * list path_row) :=
  map (fun sid => (sid, filter (fun r => segment_id r = sid) df))
      (unique_in_order (map segment_id df)).

(** The body of the loop of [extract_waypoints_by_segment]. *)
Definition dedupe_waypoints (waypoints_raw : list coord) : list coord :=
  match waypoints_raw with
  | [] => []
  | p0 :: rest => fold_left append_if_moved rest [p0]
  end.

Definition extract_waypoints_by_segment (df : list path_row) : gmap string (list coord) :=
  fold_left
    (fun all_waypoints g =>
       <[fst g := dedupe_waypoints (map lon_lat (snd g))]> all_waypoints)
    (groupby_segment_id df) ∅.

(** [valid_ids] of main.py: the segments of the feature table that hold
    two waypoints or more. *)
Definition valid_ids (feature_ids : list string)
    (all_waypoints : gmap string (list coord)) : list string :=
  filter (fun sid => (2 <= length (default [] (all_waypoints !! sid)))%nat)
         (unique_in_order feature_ids).

Section DataLoader.

Variable geodesic : coord -> coord -> Q.

Definition region_distance (lat lon : Q) (r : region_row) : Q :=
  geodesic (lat, lon) (mean_lat r, mean_lon r).

Definition assign_nearest_region_id (reg_df : list region_row) (lat lon : Q)
    : option Z :=
  match idxmin (map (region_distance lat lon) reg_df) with
  | None => None
  | Some idx => region_id <$> reg_df !! idx
  end.

End DataLoader.

Lemma idxmin_from_spec (best_i i : nat) (best : Q) (dists : list Q) :
  (best_i < i)%nat ->
  let k := idxmin_from best_i best i dists in
  (k = best_i \/ (i <= k < i + length dists)%nat) /\
  (forall d, (if decide (k = best_i) then Some best else dists !! (k - i)%nat) = Some d ->
     (d <= best)%Q /\
     (forall j d', dists !! j = Some d' -> (d <= d')%Q) /\
     (forall j d', dists !! j = Some d' -> (i + j < k)%nat -> (d < d')%Q) /\
     (k <> best_i -> (d < best)%Q)).
Proof.
  revert best_i i best. induction dists as [|d0 rest IH]; intros best_i i best Hlt.
  { cbn. split; [by left|]. intros d. rewrite decide_True by done.
    intros [= <-]. split; [lra|]. by repeat split. }
  cbn [idxmin_from]. destruct (Qlt_bool d0 best) eqn:Hc.
  - apply Qlt_bool_iff in Hc.
    destruct (IH i (S i) d0 ltac:(lia)) as [Hk Hmin]. cbv zeta in *.
    set (k := idxmin_from i d0 (S i) rest) in *.
    split; [right; cbn [length]; lia|].
    rewrite decide_False by lia. intros d Hd.
    assert (Hd' : (if decide (k = i) then Some d0 else rest !! (k - S i)%nat) = Some d).
    { destruct (decide (k = i)) as [->|Hne].
      - by rewrite Nat.sub_diag in Hd.
      - replace (k - i)%nat with (S (k - S i)) in Hd by lia. done. }
    destruct (Hmin d Hd') as (H1 & H2 & H3 & H4).
    split; [lra|]. split; [|split].
    + intros [|j] d' Hj; [inversion Hj; by subst|]. by apply (H2 j).
    + intros [|j] d' Hj Hjk.
      * inversion Hj; subst d'. apply H4. lia.
      * apply (H3 j); [done|lia].
    + intros _. lra.
  - assert (Hc' : (best <= d0)%Q).
    { destruct (Qlt_le_dec d0 best) as [Hl|Hl]; [|done].
      apply Qlt_bool_iff in Hl. congruence. }
    destruct (IH best_i (S i) best ltac:(lia)) as [Hk Hmin]. cbv zeta in *.
    set (k := idxmin_from best_i best (S i) rest) in *.
    split; [destruct Hk as [Hk|Hk]; [by left|right; cbn [length]; lia]|].
    intros d Hd.
    assert (Hd' : (if decide (k = best_i) then Some best else rest !! (k - S i)%nat)
                  = Some d).
    { destruct (decide (k = best_i)) as [He|Hne]; [done|].
      replace (k - i)%nat with (S (k - S i)) in Hd by lia. done. }
    destruct (Hmin d Hd') as (H1 & H2 & H3 & H4).
    split; [done|]. split; [|split].
    + intros [|j] d' Hj; [inversion Hj; subst; lra|]. by apply (H2 j).
    + intros [|j] d' Hj Hjk.
      * inversion Hj; subst d'. destruct (decide (k = best_i)) as [He|Hne]; [lia|].
        specialize (H4 Hne). lra.
      * apply (H3 j); [done|lia].
    + done.
Qed.

Lemma assign_nearest_region_id_aux (geodesic : coord -> coord -> Q)
    (reg_df : list region_row) (lat lon : Q) :
  reg_df <> [] ->
  exists idx row,
    assign_nearest_region_id geodesic reg_df lat lon = Some (region_id row) /\
    reg_df !! idx = Some row /\
    (forall r, r ∈ reg_df ->
       (region_distance geodesic lat lon row <= region_distance geodesic lat lon r)%Q) /\
    (forall j r, (j < idx)%nat -> reg_df !! j = Some r ->
       (region_distance geodesic lat lon row < region_distance geodesic lat lon r)%Q).
Proof.
  destruct reg_df as [|r0 rest]; [done|]. intros _.
  unfold assign_nearest_region_id. cbn [map idxmin].
  set (f := region_distance geodesic lat lon).
  destruct (idxmin_from_spec 0 1 (f r0) (map f rest) ltac:(lia)) as [Hk Hmin].
  cbv zeta in *. set (k := idxmin_from 0 (f r0) 1 (map f rest)) in *.
  destruct (decide (k = 0%nat)) as [Hk0|Hk0].
  - rewrite Hk0. exists 0%nat, r0. split; [done|]. split; [done|].
    destruct (Hmin (f r0) eq_refl) as (_ & H2 & _ & _).
    split; [|intros; lia].
    intros r [->|Hr]%elem_of_cons; [lra|].
    apply list_elem_of_lookup in Hr as [j Hj].
    apply (H2 j). by rewrite list_lookup_fmap, Hj.
  - destruct Hk as [Hk|Hk]; [done|]. rewrite length_map in Hk.
    destruct (lookup_lt_is_Some_2 rest (k - 1)%nat ltac:(lia)) as [row Hrow].
    assert (Hrow' : (r0 :: rest) !! k = Some row).
    { replace k with (S (k - 1)) by lia. exact Hrow. }
    exists k, row. rewrite Hrow'. split; [done|]. split; [done|].
    destruct (Hmin (f row)) as (H1 & H2 & H3 & H4).
    { by rewrite list_lookup_fmap, Hrow. }
    split.
    + intros r [->|Hr]%elem_of_cons; [done|].
      apply list_elem_of_lookup in Hr as [j Hj].
      apply (H2 j). by rewrite list_lookup_fmap, Hj.
    + intros [|j] r Hj Hr.
      * inversion Hr; subst r. by apply H4.
      * apply (H3 j); [|lia]. change (rest !! j = Some r) in Hr.
        by rewrite list_lookup_fmap, Hr.
Qed.

(** X20: on a region table with a row or more,
    [assign_nearest_region_id] returns the region id of a row that is
    nearest to the given position, and of the first such row: no row is
    nearer, and every row before it is strictly farther. *)
Theorem assign_nearest_region_id_is_first_nearest
    (geodesic : coord -> coord -> Q) (reg_df : list region_row) (lat lon : Q) :
  reg_df <> [] ->
  exists idx row,
    assign_nearest_region_id geodesic reg_df lat lon = Some (region_id row) /\
    reg_df !! idx = Some row /\
    (forall r, r ∈ reg_df ->
       (region_distance geodesic lat lon row <= region_distance geodesic lat lon r)%Q) /\
    (forall j r, (j < idx)%nat -> reg_df !! j = Some r ->
       (region_distance geodesic lat lon row < region_distance geodesic lat lon r)%Q).
Proof. apply assign_nearest_region_id_aux. Qed.

Lemma fmap_injective_on_NoDup {A B : Type} (f : A -> B) (l : list A) (a b : A) :
  NoDup (map f l) -> a ∈ l -> b ∈ l -> f a = f b -> a = b.
Proof.
  induction l as [|x l IH]; intros Hnd Ha Hb Hf; [by apply elem_of_nil in Ha|].
  cbn [map] in Hnd. apply NoDup_cons in Hnd as [Hx Hnd].
  apply elem_of_cons in Ha as [->|Ha]; apply elem_of_cons in Hb as [->|Hb]; [done| | |by apply IH].
  - exfalso. apply Hx. rewrite Hf. apply list_elem_of_fmap. by exists b.
  - exfalso. apply Hx. rewrite <- Hf. apply list_elem_of_fmap. by exists a.
Qed.

(** X21: region assignment and graph loading compose as main.py composes
    them.  A region id that [assign_nearest_region_id] returns for the
    cache's own region table always selects a row, so [get_with_expand]
    does not stop at the region lookup: it runs its ladder, centred on the
    first row of that id.  When the table's region ids are distinct, that
    row is a nearest row to the position that was assigned. *)
Theorem assigned_region_centres_the_graph
    (cfg : config) (provider : list provider_call -> provider_call -> result graph)
    (geodesic : coord -> coord -> Q)
    (rc : RegionGraphCache) (lat lon : Q) (rid : Z) (nt : string) :
  assign_nearest_region_id geodesic (reg_df rc) lat lon = Some rid ->
  exists row rows,
    select_region (reg_df rc) (Some rid) = row :: rows /\
    get_with_expand cfg provider rc (Some rid) nt
      = expand_loop cfg provider rid (mean_lat row) (mean_lon row) nt
          (DIST_EXPANDS cfg) None rc /\
    (NoDup (map region_id (reg_df rc)) ->
     forall r, r ∈ reg_df rc ->
       (region_distance geodesic lat lon row <= region_distance geodesic lat lon r)%Q).
Proof.
  intros Ha.
  assert (Hne : reg_df rc <> []).
  { intros E. unfold assign_nearest_region_id in Ha. by rewrite E in Ha. }
  destruct (assign_nearest_region_id_aux geodesic (reg_df rc) lat lon Hne)
    as (idx & near & Ha' & Hidx & Hmin & _).
  rewrite Ha in Ha'. inversion Ha'; subst rid; clear Ha'.
  assert (Hin : near ∈ select_region (reg_df rc) (Some (region_id near))).
  { cbn [select_region]. apply list_elem_of_filter. split; [done|].
    by eapply list_elem_of_lookup_2. }
  destruct (select_region (reg_df rc) (Some (region_id near))) as [|row rows] eqn:Hsel;
    [by apply elem_of_nil in Hin|].
  exists row, rows. split; [done|]. split.
  { unfold get_with_expand. by rewrite Hsel. }
  intros Hnd.
  assert (Hrow : row ∈ reg_df rc /\ region_id row = region_id near).
  { assert (H : row ∈ select_region (reg_df rc) (Some (region_id near))).
    { rewrite Hsel. by left. }
    cbn [select_region] in H. apply list_elem_of_filter in H. tauto. }
  destruct Hrow as [Hrow Hid].
  assert (row = near) as ->; [|done].
  eapply (fmap_injective_on_NoDup region_id); [done|done| |done].
  by eapply list_elem_of_lookup_2.
Qed.

Definition busan : region_row :=
  {| region_id := 2; mean_lat := 35; mean_lon := 129 |}.

Definition rc_two_regions : RegionGraphCache :=
  {| reg_df := [busan; seoul]; cache := ∅; requests := [] |}.

(** A position in Seoul is assigned to the Seoul row, the second of the
    table. *)
Lemma assign_nearest_region_id_is_first_nearest_witness :
  exists idx row,
    assign_nearest_region_id flat_geodesic [busan; seoul] (375 # 10) 127
      = Some (region_id row) /\
    [busan; seoul] !! idx = Some row /\
    (forall r, r ∈ [busan; seoul] ->
       (region_distance flat_geodesic (375 # 10) 127 row
        <= region_distance flat_geodesic (375 # 10) 127 r)%Q) /\
    (forall j r, (j < idx)%nat -> [busan; seoul] !! j = Some r ->
       (region_distance flat_geodesic (375 # 10) 127 row
        < region_distance flat_geodesic (375 # 10) 127 r)%Q).
Proof.
  apply (assign_nearest_region_id_is_first_nearest flat_geodesic [busan; seoul]
           (375 # 10) 127).
  done.
Defined.

Lemma assigned_region_centres_the_graph_witness :
  exists row rows,
    select_region (reg_df rc_two_regions) (Some 1%Z) = row :: rows /\
    get_with_expand cfg0 provider_down rc_two_regions (Some 1%Z) "walk"
      = expand_loop cfg0 provider_down 1 (mean_lat row) (mean_lon row) "walk"
          (DIST_EXPANDS cfg0) None rc_two_regions /\
    (NoDup (map region_id (reg_df rc_two_regions)) ->
     forall r, r ∈ reg_df rc_two_regions ->
       (region_distance flat_geodesic (375 # 10) 127 row
        <= region_distance flat_geodesic (375 # 10) 127 r)%Q).
Proof.
  apply (assigned_region_centres_the_graph cfg0 provider_down flat_geodesic
           rc_two_regions (375 # 10) 127 1 "walk").
  by vm_compute.
Defined.

(** *** Waypoint extraction *)

Lemma unique_in_order_elem (ids : list string) (y : string) :
  y ∈ unique_in_order ids <-> y ∈ ids.
Proof.
  induction ids as [|x rest IH]; [done|]. cbn [unique_in_order].
  rewrite !elem_of_cons, list_elem_of_filter, IH.
  destruct (decide (y = x)); tauto.
Qed.

Lemma fold_insert_lookup {V W : Type} (F : W -> V) (G : string -> W)
    (keys : list string) (m0 : gmap string V) (s : string) :
  fold_left (fun m g => <[fst g := F (snd g)]> m) (map (fun k => (k, G k)) keys) m0 !! s
  = if decide (s ∈ keys) then Some (F (G s)) else m0 !! s.
Proof.
  revert m0. induction keys as [|k keys IH]; intros m0; cbn [map fold_left fst snd].
  { rewrite decide_False; [done|]. apply not_elem_of_nil. }
  rewrite IH. destruct (decide (s ∈ keys)) as [Hin|Hnin].
  - rewrite decide_True; [done|]. by right.
  - destruct (decide (s = k)) as [->|Hne].
    + rewrite decide_True by left. by rewrite lookup_insert_eq.
    + rewrite decide_False. { by rewrite lookup_insert_ne. }
      rewrite elem_of_cons. tauto.
Qed.

Lemma extract_waypoints_lookup (df : list path_row) (sid : string) :
  extract_waypoints_by_segment df !! sid
  = if decide (sid ∈ map segment_id df)
    then Some (dedupe_waypoints
                 (map lon_lat (filter (fun r => segment_id r = sid) df)))
    else None.
Proof.
  unfold extract_waypoints_by_segment, groupby_segment_id.
  rewrite (fold_insert_lookup (fun rows => dedupe_waypoints (map lon_lat rows))
             (fun sid => filter (fun r => segment_id r = sid) df)).
  destruct (decide (sid ∈ unique_in_order (map segment_id df))) as [H|H];
    rewrite unique_in_order_elem in H.
  - by rewrite decide_True.
  - by rewrite decide_False.
Qed.

(** X22: [extract_waypoints_by_segment] has an entry exactly for the
    segment ids that occur in the table.  The entry of a segment begins
    with the position of the segment's first row, holds positions of the
    segment's own rows only, and holds no position twice in a row. *)
Theorem extract_waypoints_by_segment_entries (df : list path_row) (sid : string) :
  match extract_waypoints_by_segment df !! sid with
  | Some waypoints =>
      exists r0 rows,
        filter (fun r => segment_id r = sid) df = r0 :: rows /\
        head waypoints = Some (lon_lat r0) /\
        no_point_twice_in_a_row waypoints /\
        (forall c, c ∈ waypoints ->
           exists r, r ∈ df /\ segment_id r = sid /\ c = lon_lat r)
  | None => forall r, r ∈ df -> segment_id r <> sid
  end.
Proof.
  rewrite extract_waypoints_lookup.
  destruct (decide (sid ∈ map segment_id df)) as [Hin|Hnin].
  - apply list_elem_of_fmap in Hin as (r & Hr & Hin).
    assert (Hf : r ∈ filter (fun r => segment_id r = sid) df).
    { apply list_elem_of_filter. by split. }
    destruct (filter (fun r => segment_id r = sid) df) as [|r0 rows] eqn:Hsel;
      [by apply elem_of_nil in Hf|].
    exists r0, rows. split; [done|]. cbn [map dedupe_waypoints].
    destruct (fold_append_if_moved (map lon_lat rows) [lon_lat r0]) as (H1 & H2 & H3).
    { done. }
    { intros i a b Ha Hb. by destruct i. }
    split; [done|]. split; [done|].
    intros c Hc. apply H3 in Hc.
    change ([lon_lat r0] ++ map lon_lat rows) with (map lon_lat (r0 :: rows)) in Hc.
    apply list_elem_of_fmap in Hc as (r' & -> & Hr').
    rewrite <- Hsel in Hr'. apply list_elem_of_filter in Hr' as [Hid Hr'].
    by exists r'.
  - intros r Hr Hid. apply Hnin. apply list_elem_of_fmap. by exists r.
Qed.

Lemma coord_eqb_spec (p q : coord) :
  coord_eqb p q = true <-> (fst p == fst q)%Q /\ (snd p == snd q)%Q.
Proof.
  unfold coord_eqb. rewrite andb_true_iff, !Qeq_bool_iff. tauto.
Qed.

Lemma coord_eqb_refl (p : coord) : coord_eqb p p = true.
Proof. apply coord_eqb_spec. by split. Qed.

Lemma coord_eqb_sym (p q : coord) : coord_eqb p q = true -> coord_eqb q p = true.
Proof. rewrite !coord_eqb_spec. intros [H1 H2]. by split; symmetry. Qed.

Lemma coord_eqb_trans (p q r : coord) :
  coord_eqb p q = true -> coord_eqb q r = true -> coord_eqb p r = true.
Proof.
  rewrite !coord_eqb_spec. intros [H1 H2] [H3 H4].
  split; etransitivity; eauto.
Qed.

Lemma append_if_moved_length (acc : list coord) (c : coord) :
  (length acc <= length (append_if_moved acc c))%nat.
Proof.
  unfold append_if_moved. destruct (last acc) as [l|].
  - destruct (coord_eqb c l); [done|]. rewrite length_app. lia.
  - rewrite length_app. lia.
Qed.

Lemma fold_append_if_moved_length (rest acc : list coord) :
  (length acc <= length (fold_left append_if_moved rest acc))%nat.
Proof.
  revert acc. induction rest as [|c rest IH]; intros acc; cbn [fold_left]; [done|].
  etransitivity; [apply append_if_moved_length|apply IH].
Qed.

(** A segment keeps two waypoints or more exactly when one of its later
    positions differs from its first. *)
Lemma dedupe_waypoints_moves (p0 : coord) (rest : list coord) :
  (2 <= length (dedupe_waypoints (p0 :: rest)))%nat <->
  exists c, c ∈ rest /\ coord_eqb c p0 = false.
Proof.
  cbn [dedupe_waypoints]. induction rest as [|c0 rest IH]; cbn [fold_left].
  { split; [simpl; lia|]. intros (c & Hc & _). by apply elem_of_nil in Hc. }
  unfold append_if_moved at 2. cbn [last].
  destruct (coord_eqb c0 p0) eqn:E.
  - rewrite IH. split; intros (c & Hc & Hne).
    + exists c. split; [by right|done].
    + exists c. split; [|done].
      apply elem_of_cons in Hc as [->|Hc]; [congruence|done].
  - split.
    + intros _. exists c0. by split; [left|].
    + intros _. etransitivity; [|apply fold_append_if_moved_length]. simpl. lia.
Qed.

(** X23: extraction and main.py's filter compose.  A segment of the
    feature table is kept as valid exactly when two of its rows in the
    path table carry different positions; a segment that never moves, or
    has no row at all, is dropped before region assignment and matching. *)
Theorem segment_is_valid_iff_it_moves
    (df : list path_row) (feature_ids : list string) (sid : string) :
  sid ∈ valid_ids feature_ids (extract_waypoints_by_segment df) <->
  sid ∈ feature_ids /\
  exists r r', r ∈ df /\ r' ∈ df /\ segment_id r = sid /\ segment_id r' = sid /\
    coord_eqb (lon_lat r) (lon_lat r') = false.
Proof.
  unfold valid_ids. rewrite list_elem_of_filter, unique_in_order_elem.
  rewrite extract_waypoints_lookup.
  assert (Hsel : forall r, r ∈ filter (fun r => segment_id r = sid) df <->
                   segment_id r = sid /\ r ∈ df).
  { intros r. by rewrite list_elem_of_filter. }
  destruct (decide (sid ∈ map segment_id df)) as [Hin|Hnin]; cbn [default].
  - destruct (filter (fun r => segment_id r = sid) df) as [|r0 rows] eqn:Hf.
    { exfalso. apply list_elem_of_fmap in Hin as (r & Hr & Hin).
      assert (H : r ∈ @nil path_row) by (apply Hsel; by split).
      by apply elem_of_nil in H. }
    cbn [map]. unfold id. rewrite dedupe_waypoints_moves.
    split; intros [Hlen Hfeat].
    all: first [split; [done|] | split; [|done]].
    + destruct Hlen as (c & Hc & Hne).
      apply list_elem_of_fmap in Hc as (r' & -> & Hr').
      assert (H0 : segment_id r0 = sid /\ r0 ∈ df) by (apply Hsel; by left).
      assert (H1 : segment_id r' = sid /\ r' ∈ df) by (apply Hsel; by right).
      exists r', r0. tauto.
    + destruct Hfeat as (r & r' & Hr & Hr' & Hid & Hid' & Hne).
      assert (Hr0 : r ∈ r0 :: rows) by (apply Hsel; by split).
      assert (Hr0' : r' ∈ r0 :: rows) by (apply Hsel; by split).
      destruct (coord_eqb (lon_lat r) (lon_lat r0)) eqn:E.
      * destruct (coord_eqb (lon_lat r') (lon_lat r0)) eqn:E'.
        { exfalso. apply coord_eqb_sym in E'.
          rewrite (coord_eqb_trans _ _ _ E E') in Hne. done. }
        exists (lon_lat r'). split; [|done]. apply list_elem_of_fmap.
        exists r'. split; [done|].
        apply elem_of_cons in Hr0' as [->|H]; [|done].
        by rewrite coord_eqb_refl in E'.
      * exists (lon_lat r). split; [|done]. apply list_elem_of_fmap.
        exists r. split; [done|].
        apply elem_of_cons in Hr0 as [->|H]; [|done].
        by rewrite coord_eqb_refl in E.
  - split.
    + intros [Hlen _]. simpl in Hlen. lia.
    + intros (_ & r & _ & Hr & _ & Hid & _). exfalso. apply Hnin.
      apply list_elem_of_fmap. by exists r.
Qed.

(** ** utils.py: writing a table with retries *)

(** What one attempt of [safe_write_csv] (writing the temporary file and
    moving it over the target) comes to. *)
Inductive write_outcome : Type :=
| Written
| PermissionDenied (msg : string)
| Failed (e : exn).

(** How [safe_write_csv] ends; [RaiseTypeError] is Python's answer to
    [raise None]. *)
Inductive write_result : Type :=
| Returned
| RaisePermissionError (msg : string)
| RaiseOther (e : exn)
| RaiseTypeError.

Section SafeWrite.

(** The file system: the outcome of the attempt of each number. *)
Variable attempt : nat -> write_outcome.

(** [base_delay * (2 ** i)] *)
Definition backoff (base_delay : Q) (i : nat) : Q :=
  (base_delay * inject_Z (2 ^ Z.of_nat i))%Q.

(** The loop [for i in range(retries)] from attempt [i] on, [n] attempts
    left; the second component lists the calls of [time.sleep]. *)
Fixpoint retry_loop (base_delay : Q) (i n : nat) (last_err : option string)
    (sleeps : list Q) : write_result * list Q :=
  match n with
  | O =>
      (match last_err with
       | Some msg => RaisePermissionError msg
       | None => RaiseTypeError
       end, sleeps)
  | S n' =>
      match attempt i with
      | Written => (Returned, sleeps)
      | PermissionDenied msg =>
          retry_loop base_delay (S i) n' (Some msg) (sleeps ++ [backoff base_delay i])
      | Failed e => (RaiseOther e, sleeps)
      end
  end.

Definition safe_write_csv (retries : Z) (base_delay : Q) : write_result * list Q :=
  retry_loop base_delay 0 (Z.to_nat retries) None [].

Lemma retry_loop_spec (base_delay : Q) (i n : nat) (last_err : option string)
    (sleeps : list Q) :
  exists k,
    (k <= n)%nat /\
    (forall j, (j < k)%nat -> exists msg, attempt (i + j) = PermissionDenied msg) /\
    snd (retry_loop base_delay i n last_err sleeps)
      = sleeps ++ map (backoff base_delay) (seq i k) /\
    match fst (retry_loop base_delay i n last_err sleeps) with
    | Returned => (k < n)%nat /\ attempt (i + k) = Written
    | RaiseOther e => (k < n)%nat /\ attempt (i + k) = Failed e
    | RaisePermissionError msg =>
        k = n /\
        match k with
        | O => last_err = Some msg
        | S k' => attempt (i + k') = PermissionDenied msg
        end
    | RaiseTypeError => k = n /\ n = 0%nat /\ last_err = None
    end.
Proof.
  revert i last_err sleeps.
  induction n as [|n IH]; intros i last_err sleeps; cbn [retry_loop].
  { exists 0%nat. cbn [fst snd seq map]. rewrite app_nil_r.
    split; [done|]. split; [intros; lia|]. split; [done|].
    by destruct last_err. }
  destruct (attempt i) as [|msg|e] eqn:Hat.
  - exists 0%nat. cbn [fst snd seq map]. rewrite app_nil_r, Nat.add_0_r.
    split; [lia|]. split; [intros; lia|]. split; [done|]. split; [lia|done].
  - destruct (IH (S i) (Some msg) (sleeps ++ [backoff base_delay i]))
      as (k & Hk & Hden & Hsl & Hres).
    exists (S k). split; [lia|]. split.
    { intros [|j] Hj; [rewrite Nat.add_0_r; by exists msg|].
      destruct (Hden j ltac:(lia)) as [m Hm]. exists m.
      by replace (i + S j)%nat with (S i + j)%nat by lia. }
    split. { rewrite Hsl, <- app_assoc. done. }
    destruct (fst (retry_loop base_delay (S i) n (Some msg) _)) as [|m|e|].
    + destruct Hres as [H1 H2]. split; [lia|].
      by replace (i + S k)%nat with (S i + k)%nat by lia.
    + destruct Hres as [-> H2]. split; [done|].
      destruct n as [|k']; [inversion H2; subst; by rewrite Nat.add_0_r|].
      by replace (i + S k')%nat with (S i + k')%nat by lia.
    + destruct Hres as [H1 H2]. split; [lia|].
      by replace (i + S k)%nat with (S i + k)%nat by lia.
    + by destruct Hres as (_ & _ & ?).
  - exists 0%nat. cbn [fst snd seq map]. rewrite app_nil_r, Nat.add_0_r.
    split; [lia|]. split; [intros; lia|]. split; [done|]. split; [lia|done].
Qed.

(** The waiting time in all. *)
Definition total_sleep (sleeps : list Q) : Q := fold_right Qplus 0%Q sleeps.

Lemma total_sleep_app (l1 l2 : list Q) :
  (total_sleep (l1 ++ l2) == total_sleep l1 + total_sleep l2)%Q.
Proof.
  unfold total_sleep. induction l1 as [|x l1 IH]; simpl.
  - lra.
  - rewrite IH. lra.
Qed.

Lemma total_backoff (base_delay : Q) (k : nat) :
  (total_sleep (map (backoff base_delay) (seq 0 k))
   == base_delay * (inject_Z (2 ^ Z.of_nat k) - 1))%Q.
Proof.
  induction k as [|k IH].
  - change (0 == base_delay * (1 - 1))%Q. lra.
  - rewrite seq_S, map_app, total_sleep_app, IH. cbn [map total_sleep fold_right].
    unfold backoff. rewrite Nat2Z.inj_succ, Z.pow_succ_r by lia.
    rewrite inject_Z_mult. change (inject_Z 2) with 2%Q. cbn [Nat.add]. lra.
Qed.


End SafeWrite.
